(** * Jelly Bean World: the energy-function registry, the Gibbs field cache,
      the Metropolis-Hastings sampler, and the Python binding's save/load and
      agent-state calls, embedded in Rocq.

    Sources embedded here:
    - [energy_functions.h]   intensity, interaction and regeneration functions,
                             their registry and their classification;
    - [jbw/gibbs_field.h]    [gibbs_field_cache], [shuffle], [gibbs_field::sample];
    - [api/python/src/jbw/simulator.cpp]
                             [simulator_save], [simulator_load],
                             [simulator_agent_states].

    Conventions.
    - Unsigned machine integers are [Z] with their wrap-around written out
      ([wrap32], [wrap64]).  Signed 64-bit coordinates are [Z]; signed overflow
      is undefined in C++, so the model speaks about coordinates in range.
    - [float] arithmetic, the conversions from and to integers and the libm
      functions [exp], [log] are the operations of a [FloatOps] structure;
      every theorem holds for every such structure.  The one computation in
      [double], the root in RADIAL_HASH, is evaluated in IEEE 754 binary64
      ([sqrt_to_uint32]).
    - A computation that reads outside an array, dereferences a null pointer
      or divides by zero has no defined result: it is [None]. *)

From Stdlib Require Import ZArith Lia List Bool Strings.Byte.
From Stdlib Require Import Floats.SpecFloat.
From stdpp Require Import base option numbers list gmap.

Local Open Scope Z_scope.

(* ===================================================================== *)
(** * Machine integers                                                    *)
(* ===================================================================== *)

Definition wrap32 (z : Z) : Z := z mod 2 ^ 32.
Definition wrap64 (z : Z) : Z := z mod 2 ^ 64.
Definition UINT_MAX : Z := 2 ^ 32 - 1.

(** C++ [a % b] and [a / b] on unsigned operands; [b = 0] is undefined. *)
Definition umod (a b : Z) : option Z := if b =? 0 then None else Some (a mod b).
Definition udiv (a b : Z) : option Z := if b =? 0 then None else Some (a / b).

(* ===================================================================== *)
(** * Single-precision floats as an interface                             *)
(* ===================================================================== *)

Class FloatOps (float : Type) := {
  (** conversion of an integer (a literal, an [int64_t], a [uint64_t]) *)
  f_of_Z : Z → float;
  (** the cast [(uint32_t) f]; undefined when the value does not fit *)
  f_to_uint32 : float → option Z;
  f_neg : float → float;
  f_add : float → float → float;
  f_sub : float → float → float;
  f_mul : float → float → float;
  f_div : float → float → float;
  f_ltb : float → float → bool;
  f_leb : float → float → bool;
  (** libm *)
  f_exp : float → float;
  f_log : float → float;
}.

Definition f_zero {float : Type} {H : FloatOps float} : float := f_of_Z 0.

(** [(uint32_t) sqrt(v)] for a [uint64_t] [v]: [sqrt] works on [double], so
    [v] is first converted to binary64 (round to nearest, ties to even), the
    root is the correctly rounded binary64 root, and the cast truncates it.
    The cast is undefined when the root is [2^32] or more. *)
Definition sqrt_to_uint32 (v : Z) : option Z :=
  match SFsqrt 53 1024 (binary_normalize 53 1024 v 0 false) with
  | S754_zero _ => Some 0
  | S754_finite false m e =>
      let t := if 0 <=? e then Z.pos m * 2 ^ e else Z.pos m / 2 ^ (- e) in
      if t <? 2 ^ 32 then Some t else None
  | _ => None
  end.

(* ===================================================================== *)
(** * Positions                                                           *)
(* ===================================================================== *)

(** Modelled from the spec: [position.h] is not among the sources; a position
    is a pair of signed 64-bit coordinates with vector addition and
    subtraction, multiplication by a scalar, squared length and equality. *)
Record position := mk_position { px : Z; py : Z }.

Definition position_add (a b : position) : position :=
  mk_position (px a + px b) (py a + py b).
Definition position_sub (a b : position) : position :=
  mk_position (px a - px b) (py a - py b).
Definition position_scale (a : position) (k : Z) : position :=
  mk_position (px a * k) (py a * k).
Definition squared_length (a : position) : Z := px a * px a + py a * py a.
Definition position_eqb (a b : position) : bool :=
  (px a =? px b) && (py a =? py b).

Global Instance position_eq_dec : EqDecision position.
Proof. solve_decision. Defined.

(* ===================================================================== *)
(** * energy_functions.h                                                  *)
(* ===================================================================== *)

(** Function pointers are compared by address in the source; the three
    pointer types are the enumerations of the functions one can point to. *)
Inductive intensity_function :=
  | zero_intensity_fn
  | constant_intensity_fn
  | radial_hash_intensity_fn.

Inductive interaction_function :=
  | zero_interaction_fn
  | piecewise_box_interaction_fn
  | cross_interaction_fn
  | cross_hash_interaction_fn
  | moore_interaction_fn
  | four_interaction_fn
  | gaussian_interaction_fn.

Inductive regeneration_function :=
  | zero_regeneration_fn
  | constant_regeneration_fn
  | custom_regeneration_fn.

Global Instance intensity_function_eq_dec : EqDecision intensity_function.
Proof. solve_decision. Defined.
Global Instance interaction_function_eq_dec : EqDecision interaction_function.
Proof. solve_decision. Defined.
Global Instance regeneration_function_eq_dec : EqDecision regeneration_function.
Proof. solve_decision. Defined.

(** [enum class intensity_fns : uint64_t { ZERO = 0, CONSTANT, RADIAL_HASH }] *)
Module intensity_fns.
Definition ZERO : N := 0.
Definition CONSTANT : N := 1.
Definition RADIAL_HASH : N := 2.
End intensity_fns.

(** [enum class interaction_fns : uint64_t
      { ZERO = 0, PIECEWISE_BOX, CROSS, CROSS_HASH, MOORE, GAUSSIAN, FOUR }] *)
Module interaction_fns.
Definition ZERO : N := 0.
Definition PIECEWISE_BOX : N := 1.
Definition CROSS : N := 2.
Definition CROSS_HASH : N := 3.
Definition MOORE : N := 4.
Definition GAUSSIAN : N := 5.
Definition FOUR : N := 6.
End interaction_fns.

(** [enum class regeneration_fns : uint64_t { ZERO = 0, CONSTANT, CUSTOM }] *)
Module regeneration_fns.
Definition ZERO : N := 0.
Definition CONSTANT : N := 1.
Definition CUSTOM : N := 2.
End regeneration_fns.

Definition murmurhash32_mix32 (x : Z) : Z :=
  let x := Z.lxor x (Z.shiftr x 16) in
  let x := wrap32 (x * 0x45d9f3b) in
  let x := Z.lxor x (Z.shiftr x 16) in
  let x := wrap32 (x * 0x45d9f3b) in
  Z.lxor x (Z.shiftr x 16).

Section EnergyFunctions.
Context {float : Type} {H : FloatOps float}.

(** [args[k]] through a [const float*]: defined inside the array only. *)
Definition arg (args : list float) (k : nat) : option float := args !! k.

Definition zero_intensity (pos : position) (args : list float) : option float :=
  Some f_zero.

Definition constant_intensity (pos : position) (args : list float) : option float :=
  arg args 0.

Definition hash_function (x shift scale : Z) : option float :=
  q ← udiv (wrap32 (x + shift)) scale;
  Some (f_div (f_of_Z (murmurhash32_mix32 q)) (f_of_Z UINT_MAX)).

Definition radial_hash_intensity (pos : position) (args : list float) : option float :=
  a0 ← arg args 0; shift ← f_to_uint32 a0;
  a1 ← arg args 1; scale ← f_to_uint32 a1;
  root ← sqrt_to_uint32 (squared_length pos);
  let s := wrap32 (root + shift) in
  x ← hash_function s shift scale;
  x_next ← hash_function (wrap32 (s + scale)) shift scale;
  r ← umod s scale;
  let t_x := f_div (f_of_Z r) (f_of_Z scale) in
  let t_x := if f_ltb t_x (f_of_Z 0) then f_add t_x (f_of_Z 1) else t_x in
  a2 ← arg args 2; a3 ← arg args 3;
  Some (f_sub a2
          (f_mul (f_add (f_mul x (f_sub (f_of_Z 1) t_x)) (f_mul x_next t_x)) a3)).

Definition call_intensity (f : intensity_function)
    (pos : position) (args : list float) : option float :=
  match f with
  | zero_intensity_fn => zero_intensity pos args
  | constant_intensity_fn => constant_intensity pos args
  | radial_hash_intensity_fn => radial_hash_intensity pos args
  end.

Definition get_intensity_fn (type : N) (args : list float) (num_args : nat)
    : option intensity_function :=
  if decide (type = intensity_fns.ZERO) then
    if decide (num_args ≠ 0%nat) then None else Some zero_intensity_fn
  else if decide (type = intensity_fns.CONSTANT) then
    if decide (num_args = 0%nat) then None else Some constant_intensity_fn
  else if decide (type = intensity_fns.RADIAL_HASH) then
    if decide (num_args ≠ 4%nat) then None else Some radial_hash_intensity_fn
  else None.

(** The overload [intensity_fns get_intensity_fn(intensity_function)]. *)
Definition get_intensity_fn_type (f : intensity_function) : N :=
  match f with
  | zero_intensity_fn => intensity_fns.ZERO
  | constant_intensity_fn => intensity_fns.CONSTANT
  | radial_hash_intensity_fn => intensity_fns.RADIAL_HASH
  end.

Definition zero_interaction (pos1 pos2 : position) (args : list float) : option float :=
  Some f_zero.

Definition piecewise_box_interaction (pos1 pos2 : position) (args : list float)
    : option float :=
  first_cutoff ← arg args 0;
  second_cutoff ← arg args 1;
  first_value ← arg args 2;
  second_value ← arg args 3;
  let squared_length := squared_length (position_sub pos1 pos2) in
  if f_ltb (f_of_Z squared_length) first_cutoff then Some first_value
  else if f_ltb (f_of_Z squared_length) second_cutoff then Some second_value
  else Some f_zero.

Definition gaussian_interaction (pos1 pos2 : position) (args : list float)
    : option float :=
  let diff := position_sub pos1 pos2 in
  a0 ← arg args 0;
  let two_sigma_sq := f_mul (f_mul (f_of_Z 2) a0) a0 in
  let dist :=
    f_exp (f_sub (f_div (f_of_Z (- px diff * px diff)) two_sigma_sq)
                 (f_div (f_of_Z (py diff * py diff)) two_sigma_sq)) in
  a1 ← arg args 1;
  Some (f_mul a1 dist).

Definition cross_interaction (pos1 pos2 : position) (args : list float)
    : option float :=
  let diff := position_sub pos1 pos2 in
  let dist := Z.max (Z.abs (px diff)) (Z.abs (py diff)) in
  a0 ← arg args 0;
  if f_leb (f_of_Z dist) a0 then
    if (px diff =? 0) || (py diff =? 0) then arg args 2 else arg args 4
  else
    a1 ← arg args 1;
    if f_leb (f_of_Z dist) a1 then
      if (px diff =? 0) || (py diff =? 0) then arg args 3 else arg args 5
    else Some f_zero.

Definition cross_hash_interaction (pos1 pos2 : position) (args : list float)
    : option float :=
  a0 ← arg args 0; scale ← f_to_uint32 a0;
  x ← hash_function (wrap32 (px pos1)) 0 scale;
  x_next ← hash_function (wrap32 (wrap32 (px pos1) + scale)) 0 scale;
  r ← umod (wrap32 (px pos1)) scale;
  let t_x := f_div (f_of_Z r) (f_of_Z scale) in
  let t_x := if f_ltb t_x (f_of_Z 0) then f_add t_x (f_of_Z 1) else t_x in
  a2 ← arg args 2; a1 ← arg args 1;
  let d := f_add (f_mul a2 (f_add (f_mul x (f_sub (f_of_Z 1) t_x))
                                  (f_mul x_next t_x))) a1 in
  a3 ← arg args 3;
  let D := f_add d a3 in
  let diff := position_sub pos1 pos2 in
  let dist := Z.max (Z.abs (px diff)) (Z.abs (py diff)) in
  if f_leb (f_of_Z dist) d then
    if (px diff =? 0) || (py diff =? 0) then arg args 4 else arg args 6
  else if f_leb (f_of_Z dist) D then
    if (px diff =? 0) || (py diff =? 0) then arg args 5 else arg args 7
  else Some f_zero.

Definition moore_interaction (pos1 pos2 : position) (args : list float)
    : option float :=
  let diff := position_sub pos1 pos2 in
  if (Z.abs (px diff) <? 2) && (Z.abs (py diff) <? 2) then Some (f_of_Z 1)
  else Some (f_of_Z (-200)).

Definition four_interaction (pos1 pos2 : position) (args : list float)
    : option float :=
  let diff := position_sub pos1 pos2 in
  if (Z.abs (px diff) <? 1) && (Z.abs (py diff) <? 2) then Some (f_of_Z 1)
  else if (Z.abs (py diff) <? 1) && (Z.abs (px diff) <? 2) then Some (f_of_Z 1)
  else Some (f_of_Z (-200)).

Definition call_interaction (f : interaction_function)
    (pos1 pos2 : position) (args : list float) : option float :=
  match f with
  | zero_interaction_fn => zero_interaction pos1 pos2 args
  | piecewise_box_interaction_fn => piecewise_box_interaction pos1 pos2 args
  | cross_interaction_fn => cross_interaction pos1 pos2 args
  | cross_hash_interaction_fn => cross_hash_interaction pos1 pos2 args
  | moore_interaction_fn => moore_interaction pos1 pos2 args
  | four_interaction_fn => four_interaction pos1 pos2 args
  | gaussian_interaction_fn => gaussian_interaction pos1 pos2 args
  end.

Definition get_interaction_fn (type : N) (args : list float) (num_args : nat)
    : option interaction_function :=
  if decide (type = interaction_fns.ZERO) then
    if decide (num_args ≠ 0%nat) then None else Some zero_interaction_fn
  else if decide (type = interaction_fns.PIECEWISE_BOX) then
    if decide (num_args ≠ 4%nat) then None else Some piecewise_box_interaction_fn
  else if decide (type = interaction_fns.CROSS) then
    if decide (num_args ≠ 6%nat) then None else Some cross_interaction_fn
  else if decide (type = interaction_fns.CROSS_HASH) then
    if decide (num_args ≠ 8%nat) then None else Some cross_hash_interaction_fn
  else if decide (type = interaction_fns.MOORE) then
    if decide (num_args ≠ 0%nat) then None else Some moore_interaction_fn
  else if decide (type = interaction_fns.FOUR) then
    if decide (num_args ≠ 0%nat) then None else Some four_interaction_fn
  else if decide (type = interaction_fns.GAUSSIAN) then
    if decide (num_args ≠ 2%nat) then None else Some gaussian_interaction_fn
  else None.

Definition get_interaction_fn_type (f : interaction_function) : N :=
  match f with
  | zero_interaction_fn => interaction_fns.ZERO
  | piecewise_box_interaction_fn => interaction_fns.PIECEWISE_BOX
  | cross_interaction_fn => interaction_fns.CROSS
  | cross_hash_interaction_fn => interaction_fns.CROSS_HASH
  | moore_interaction_fn => interaction_fns.MOORE
  | four_interaction_fn => interaction_fns.FOUR
  | gaussian_interaction_fn => interaction_fns.GAUSSIAN
  end.

Definition zero_regeneration (pos : position) (time : Z) (args : list float)
    : option float :=
  Some f_zero.

Definition constant_regeneration (pos : position) (time : Z) (args : list float)
    : option float :=
  arg args 0.

(** [return args[time];] with [time] a [uint64_t]. *)
Definition custom_regeneration (pos : position) (time : Z) (args : list float)
    : option float :=
  arg args (Z.to_nat time).

Definition call_regeneration (f : regeneration_function)
    (pos : position) (time : Z) (args : list float) : option float :=
  match f with
  | zero_regeneration_fn => zero_regeneration pos time args
  | constant_regeneration_fn => constant_regeneration pos time args
  | custom_regeneration_fn => custom_regeneration pos time args
  end.

Definition get_regeneration_fn (type : N) (args : list float) (num_args : nat)
    : option regeneration_function :=
  if decide (type = regeneration_fns.ZERO) then
    if decide (num_args ≠ 0%nat) then None else Some zero_regeneration_fn
  else if decide (type = regeneration_fns.CONSTANT) then
    if decide (num_args = 0%nat) then None else Some constant_regeneration_fn
  else if decide (type = regeneration_fns.CUSTOM) then
    if decide (num_args = 0%nat) then None else Some custom_regeneration_fn
  else None.

Definition get_regeneration_fn_type (f : regeneration_function) : N :=
  match f with
  | zero_regeneration_fn => regeneration_fns.ZERO
  | constant_regeneration_fn => regeneration_fns.CONSTANT
  | custom_regeneration_fn => regeneration_fns.CUSTOM
  end.

End EnergyFunctions.

(** The classification predicates compare function pointers only. *)
Definition is_constant (function : interaction_function) : bool :=
  bool_decide (function = zero_interaction_fn).

Definition is_constant_regeneration (function : regeneration_function) : bool :=
  bool_decide (function = zero_regeneration_fn).

Definition is_stationary_intensity (function : intensity_function) : bool :=
  bool_decide (function = zero_intensity_fn)
  || bool_decide (function = constant_intensity_fn).

Definition is_stationary (function : interaction_function) : bool :=
  bool_decide (function = zero_interaction_fn)
  || bool_decide (function = piecewise_box_interaction_fn)
  || bool_decide (function = cross_interaction_fn)
  || bool_decide (function = moore_interaction_fn).

Definition is_stationary_regeneration (function : regeneration_function) : bool :=
  bool_decide (function = zero_regeneration_fn)
  || bool_decide (function = constant_regeneration_fn).

Definition is_time_independent (function : regeneration_function) : bool :=
  bool_decide (function = zero_regeneration_fn)
  || bool_decide (function = constant_regeneration_fn).

Definition is_custom (function : regeneration_function) : bool :=
  bool_decide (function = custom_regeneration_fn).

(* ===================================================================== *)
(** * Arrays, loops and the random number generator                       *)
(* ===================================================================== *)

(** [a[i]] and [a[i] = v] with a signed index: defined inside the array only.
    (stdpp's list insert leaves the list unchanged out of range; C++ does not.) *)
Definition array_get {A} (a : list A) (i : Z) : option A :=
  if i <? 0 then None else a !! Z.to_nat i.

Definition array_set {A} (a : list A) (i : Z) (v : A) : option (list A) :=
  if (0 <=? i) && (i <? Z.of_nat (length a)) then Some (<[Z.to_nat i := v]> a)
  else None.

(** [core::swap(array[i], array[j])] *)
Definition swap {A} (a : list A) (i j : nat) : option (list A) :=
  x ← a !! i; y ← a !! j; Some (<[j := x]> (<[i := y]> a)).

(** [core::array<T>::remove(index)]: the last element is moved into the freed
    slot and the length decreases by one ([core/array.h], a library the
    repository builds on). *)
Definition array_remove {A} (a : list A) (index : nat) : option (list A) :=
  _ ← a !! index;
  let length := (length a - 1)%nat in
  if decide (index = length) then Some (take length a)
  else last ← a !! length; Some (<[index := last]> (take length a)).

(** [for (unsigned int i = lo; i < hi; i++) body], threading a state. *)
Fixpoint for_up {S} (count : nat) (i : Z) (body : Z → S → option S) (s : S)
    : option S :=
  match count with
  | O => Some s
  | S count' => s' ← body i s; for_up count' (i + 1) body s'
  end.

Definition for_range {S} (lo hi : Z) (body : Z → S → option S) (s : S) : option S :=
  for_up (Z.to_nat (hi - lo)) lo body s.

(** The template parameter [RNGType]: [rng()] returns an unsigned integer and
    advances the generator, [rng.max()] is its largest value. *)
Class RNGType (rng_state : Type) := {
  rng_call : rng_state → Z * rng_state;
  rng_max : Z;
}.

(* ===================================================================== *)
(** * gibbs_field.h: the cache                                            *)
(* ===================================================================== *)

Section GibbsFieldCache.
Context {float : Type} {H : FloatOps float}.

(** Whether the build defines [NDEBUG] (the range check of
    [gibbs_field_cache::interaction] and the length check of [shuffle]
    are compiled only without it). *)
Variable NDEBUG : bool.

(** An energy function with its arguments ([arg_count] is [length args]). *)
Record energy_function (F : Type) := mk_energy_function {
  fn : F;
  args : list float;
}.
Global Arguments fn {F} _.
Global Arguments args {F} _.

(** The members of [ItemType] that the cache reads. *)
Record item_properties := mk_item_properties {
  intensity_fn : energy_function intensity_function;
  interaction_fns : list (energy_function interaction_function);
  regeneration_fn : energy_function regeneration_function;
}.

(** A cell of [malloc]ed memory holds no value until it is written; a
    pointer is null ([None]) or points to its array. *)
Record gibbs_field_cache := mk_gibbs_field_cache {
  intensities : list (option float);
  interactions : list (option (list (option float)));
  regenerations : list (option float);
  two_n : Z;
  four_n : Z;
  item_types : list item_properties;
  item_type_count : Z;
}.

Definition set_intensities (c : gibbs_field_cache) v :=
  mk_gibbs_field_cache v (interactions c) (regenerations c)
    (two_n c) (four_n c) (item_types c) (item_type_count c).
Definition set_interactions (c : gibbs_field_cache) v :=
  mk_gibbs_field_cache (intensities c) v (regenerations c)
    (two_n c) (four_n c) (item_types c) (item_type_count c).
Definition set_regenerations (c : gibbs_field_cache) v :=
  mk_gibbs_field_cache (intensities c) (interactions c) v
    (two_n c) (four_n c) (item_types c) (item_type_count c).

Definition intensity (c : gibbs_field_cache) (pos : position) (item_type : Z)
    : option float :=
  it ← array_get (item_types c) item_type;
  if is_stationary_intensity (fn (intensity_fn it)) then
    mjoin (array_get (intensities c) item_type)
  else call_intensity (fn (intensity_fn it)) pos (args (intensity_fn it)).

Definition regeneration (c : gibbs_field_cache) (pos : position) (time : Z)
    (item_type : Z) : option float :=
  it ← array_get (item_types c) item_type;
  if is_stationary_regeneration (fn (regeneration_fn it))
     && is_time_independent (fn (regeneration_fn it)) then
    mjoin (array_get (regenerations c) item_type)
  else call_regeneration (fn (regeneration_fn it)) pos time (args (regeneration_fn it)).

Definition interaction (c : gibbs_field_cache)
    (first_position second_position : position)
    (first_item_type second_item_type : Z) : option float :=
  it ← array_get (item_types c) first_item_type;
  ef ← array_get (interaction_fns it) second_item_type;
  let interaction := fn ef in
  if is_constant interaction || negb (is_stationary interaction) then
    if position_eqb first_position second_position then Some f_zero
    else call_interaction interaction first_position second_position (args ef)
  else
    let diff := position_add (position_sub first_position second_position)
                             (mk_position (two_n c) (two_n c)) in
    if negb NDEBUG
       && ((px diff <? 0) || (px diff >=? four_n c)
           || (py diff <? 0) || (py diff >=? four_n c)) then Some f_zero
    else
      table ← mjoin (array_get (interactions c)
                 (wrap32 (first_item_type * item_type_count c + second_item_type)));
      mjoin (array_get table (px diff * four_n c + py diff)).

(** The two inner loops of [init_helper] that fill one table. *)
Definition fill_table (interaction : interaction_function) (args : list float)
    (two_n four_n : Z) (table : list (option float)) : option (list (option float)) :=
  for_range 0 four_n (fun x table =>
    for_range 0 four_n (fun y table =>
      value ← (if (x =? two_n) && (y =? two_n) then Some f_zero
               else call_interaction interaction
                      (mk_position two_n two_n) (mk_position x y) args);
      array_set table (wrap32 (wrap32 (x * four_n) + y)) (Some value))
      table)
    table.

(** Allocation is taken to succeed; the result is [None] only when the
    source's behaviour is undefined. *)
Definition init_helper (c : gibbs_field_cache) (n : Z) : option gibbs_field_cache :=
  let count := item_type_count c in
  let c := set_intensities c (replicate (Z.to_nat count) None) in
  let c := set_regenerations c (replicate (Z.to_nat count) None) in
  let c := set_interactions c (replicate (Z.to_nat (wrap32 (count * count))) None) in
  for_range 0 count (fun i c =>
    it ← array_get (item_types c) i;
    c ← (if is_stationary_intensity (fn (intensity_fn it)) then
           v ← call_intensity (fn (intensity_fn it)) (mk_position 0 0)
                 (args (intensity_fn it));
           set_intensities c <$> array_set (intensities c) i (Some v)
         else Some c);
    c ← (if is_stationary_regeneration (fn (regeneration_fn it))
            && is_time_independent (fn (regeneration_fn it)) then
           v ← call_regeneration (fn (regeneration_fn it)) (mk_position 0 0) 0
                 (args (regeneration_fn it));
           set_regenerations c <$> array_set (regenerations c) i (Some v)
         else Some c);
    for_range 0 count (fun j c =>
      ef ← array_get (interaction_fns it) j;
      let interaction := fn ef in
      if negb (is_constant interaction) && is_stationary interaction then
        table ← fill_table interaction (args ef) (two_n c) (four_n c)
                  (replicate (Z.to_nat (four_n c * four_n c)) None);
        set_interactions c <$>
          array_set (interactions c) (wrap32 (wrap32 (i * count) + j)) (Some table)
      else
        set_interactions c <$>
          array_set (interactions c) (wrap32 (wrap32 (i * count) + j)) None)
      c)
    c.

(** [init(cache, item_types, item_type_count, n)], which is also what the
    constructor does. *)
Definition init (item_types : list item_properties) (item_type_count n : Z)
    : option gibbs_field_cache :=
  init_helper
    (mk_gibbs_field_cache [] [] [] (wrap32 (2 * n)) (wrap32 (4 * n))
       item_types item_type_count)
    n.

(* =================================================================== *)
(** ** shuffle                                                          *)
(* =================================================================== *)

Section Shuffle.
Context {rng_state : Type} {R : RNGType rng_state} {T : Type}.

(** The loop [for (unsigned int i = start; i > 0; i--)]. *)
Fixpoint shuffle_loop (i : nat) (array : list T) (rng : rng_state)
    : option (list T * rng_state) :=
  match i with
  | O => Some (array, rng)
  | S i' =>
      let '(r, rng) := rng_call rng in
      next ← umod r (wrap32 (Z.of_nat i + 1));
      array ← (if decide (Z.to_nat next ≠ i) then swap array (Z.to_nat next) i
               else Some array);
      shuffle_loop i' array rng
  end.

Definition shuffle (array : list T) (length : Z) (rng : rng_state)
    : option (list T * rng_state) :=
  if negb NDEBUG && (length =? 0) then Some (array, rng)
  else shuffle_loop (Z.to_nat (wrap32 (length - 1))) array rng.
End Shuffle.

End GibbsFieldCache.

(* ===================================================================== *)
(** * gibbs_field.h: the Metropolis-Hastings sampler                      *)
(* ===================================================================== *)

Section GibbsField.
Context {float : Type} {H : FloatOps float}.
Context {rng_state : Type} {R : RNGType rng_state}.
Variable NDEBUG : bool.

Local Abbreviation gibbs_field_cache := (@gibbs_field_cache float).

(** An item instance, as [current.items.add({ item_type, new_position, 0, 0 })]
    builds it: type, location, creation time, deletion time. *)
Record item := mk_item {
  item_type : Z;
  location : position;
  creation_time : Z;
  deletion_time : Z;
}.

(** [Map::patch_type]: the sampler touches [items] only; [fixed] stands for
    the rest of the patch. *)
Record patch_type := mk_patch {
  items : list item;
  fixed : bool;
}.

(** Patches are reached through pointers; a pointer is an address in the
    patch store, and several neighborhoods may hold the same address. *)
Record patch_neighborhood := mk_patch_neighborhood {
  bottom_left_neighborhood : list nat;
  top_left_neighborhood : list nat;
  bottom_right_neighborhood : list nat;
  top_right_neighborhood : list nat;
  bottom_left_neighbor_count : Z;
  top_left_neighbor_count : Z;
  bottom_right_neighbor_count : Z;
  top_right_neighbor_count : Z;
}.

Record gibbs_field := mk_gibbs_field {
  cache : gibbs_field_cache;
  patch_positions : list position;
  neighborhoods : list patch_neighborhood;
  patch_count : Z;
  n : Z;
  LOG_ITEM_TYPE_COUNT : float;
  LOG_N_SQUARED : float;
}.

(** The constructor. *)
Definition new_gibbs_field (cache : gibbs_field_cache)
    (patch_positions : list position) (neighborhoods : list patch_neighborhood)
    (patch_count n : Z) : gibbs_field :=
  mk_gibbs_field cache patch_positions neighborhoods patch_count n
    (f_log (f_of_Z (item_type_count cache)))
    (f_mul (f_of_Z 2) (f_log (f_of_Z n))).

(** [log_cache<float>::get(k)] ([math/log.h] of the core library): the
    stored value of [log k]. *)
Definition log_cache_get (k : Z) : float := f_log (f_of_Z k).

Record sampler_state := mk_sampler_state {
  rng : rng_state;
  patches : gmap nat patch_type;
}.

(** The choice of the quadrant neighborhood of a cell. *)
Definition select_neighborhood (neighborhood : patch_neighborhood)
    (pos patch_position_offset : position) (n : Z) : list nat * Z :=
  if px pos - px patch_position_offset <? n / 2 then
    if py pos - py patch_position_offset <? n / 2 then
      (bottom_left_neighborhood neighborhood, bottom_left_neighbor_count neighborhood)
    else
      (top_left_neighborhood neighborhood, top_left_neighbor_count neighborhood)
  else
    if py pos - py patch_position_offset <? n / 2 then
      (bottom_right_neighborhood neighborhood, bottom_right_neighbor_count neighborhood)
    else
      (top_right_neighborhood neighborhood, top_right_neighbor_count neighborhood).

(** The loop over [items] of the birth proposal, with its [break]. *)
Fixpoint birth_scan_items (c : gibbs_field_cache) (new_position : position)
    (new_item_type : Z) (its : list item) (log_acceptance_probability : float)
    : option (float * bool) :=
  match its with
  | [] => Some (log_acceptance_probability, false)
  | it :: rest =>
      if position_eqb (location it) new_position then
        Some (log_acceptance_probability, true)
      else
        a ← interaction NDEBUG c new_position (location it) new_item_type (item_type it);
        b ← interaction NDEBUG c (location it) new_position (item_type it) new_item_type;
        birth_scan_items c new_position new_item_type rest
          (f_add (f_add log_acceptance_probability a) b)
  end.

(** The loop over the [new_neighborhood_size] neighbors, from index [j]. *)
Fixpoint birth_scan (store : gmap nat patch_type) (c : gibbs_field_cache)
    (new_neighborhood : list nat) (new_position : position) (new_item_type : Z)
    (count : nat) (j : Z) (log_acceptance_probability : float)
    : option (float * bool) :=
  match count with
  | O => Some (log_acceptance_probability, false)
  | S count' =>
      p ← array_get new_neighborhood j;
      neighbor ← store !! p;
      '(acc, occupied) ← birth_scan_items c new_position new_item_type
                           (items neighbor) log_acceptance_probability;
      if occupied : bool then Some (acc, true)
      else birth_scan store c new_neighborhood new_position new_item_type
             count' (j + 1) acc
  end.

Fixpoint death_scan_items (c : gibbs_field_cache) (old_position : position)
    (old_item_type : Z) (its : list item) (log_acceptance_probability : float)
    : option float :=
  match its with
  | [] => Some log_acceptance_probability
  | it :: rest =>
      a ← interaction NDEBUG c old_position (location it) old_item_type (item_type it);
      b ← interaction NDEBUG c (location it) old_position (item_type it) old_item_type;
      death_scan_items c old_position old_item_type rest
        (f_sub (f_sub log_acceptance_probability a) b)
  end.

Fixpoint death_scan (store : gmap nat patch_type) (c : gibbs_field_cache)
    (old_neighborhood : list nat) (old_position : position) (old_item_type : Z)
    (count : nat) (j : Z) (log_acceptance_probability : float) : option float :=
  match count with
  | O => Some log_acceptance_probability
  | S count' =>
      p ← array_get old_neighborhood j;
      neighbor ← store !! p;
      r ← death_scan_items c old_position old_item_type (items neighbor)
            log_acceptance_probability;
      death_scan store c old_neighborhood old_position old_item_type
        count' (j + 1) r
  end.

(** C++ leaves open in which order the two arguments of
    [position(rng() % n, rng() % n)] are evaluated, and so which of the two
    calls of the generator gives [x].  [x_first] is the choice of the
    compiler: [true] when the first argument is evaluated first, [false] when
    the second is (as g++ does). *)
Variable x_first : bool.

(** The body of the loop of [gibbs_field::sample] for the patch of index [i]
    ([SAMPLING_METHOD == MH_SAMPLING]). *)
Definition sample_patch (g : gibbs_field) (i : Z) (s : sampler_state)
    : option sampler_state :=
  patch_position ← array_get (patch_positions g) i;
  let patch_position_offset := position_scale patch_position (n g) in
  neighborhood ← array_get (neighborhoods g) i;
  current_ptr ← array_get (top_left_neighborhood neighborhood) 0;
  current ← patches s !! current_ptr;
  let '(r, rng) := rng_call (rng s) in
  if r mod 2 =? 0 then
    (* propose creating a new item *)
    let '(r, rng) := rng_call rng in
    new_item_type ← umod r (item_type_count (cache g));
    let '(r, rng) := rng_call rng in
    first ← umod r (n g);
    let '(r, rng) := rng_call rng in
    second ← umod r (n g);
    let '(x, y) := if x_first then (first, second) else (second, first) in
    let new_position := position_add patch_position_offset (mk_position x y) in
    let '(new_neighborhood, new_neighborhood_size) :=
      select_neighborhood neighborhood new_position patch_position_offset (n g) in
    '(log_acceptance_probability, new_position_occupied) ←
      birth_scan (patches s) (cache g) new_neighborhood new_position
        new_item_type (Z.to_nat new_neighborhood_size) 0 f_zero;
    if new_position_occupied : bool then Some (mk_sampler_state rng (patches s))
    else
      v ← intensity (cache g) new_position new_item_type;
      let log_acceptance_probability := f_add log_acceptance_probability v in
      (* add log probability of inverse proposal *)
      let log_acceptance_probability :=
        f_add log_acceptance_probability
          (f_neg (log_cache_get
                    (wrap32 (wrap32 (Z.of_nat (length (items current))) + 1)))) in
      (* subtract log probability of forward proposal *)
      let log_acceptance_probability :=
        f_sub log_acceptance_probability
          (f_sub (f_neg (LOG_ITEM_TYPE_COUNT g)) (LOG_N_SQUARED g)) in
      (* accept or reject the proposal depending on the computed probability *)
      let '(r, rng) := rng_call rng in
      let random := f_div (f_of_Z r) (f_of_Z rng_max) in
      if f_ltb (f_log random) log_acceptance_probability then
        Some (mk_sampler_state rng
                (<[current_ptr :=
                     mk_patch (items current ++ [mk_item new_item_type new_position 0 0])
                              (fixed current)]> (patches s)))
      else Some (mk_sampler_state rng (patches s))
  else if 0 <? Z.of_nat (length (items current)) then
    (* propose deleting an item *)
    let '(r, rng) := rng_call rng in
    item_index ← wrap32 <$> umod r (Z.of_nat (length (items current)));
    old ← array_get (items current) item_index;
    let old_item_type := item_type old in
    let old_position := location old in
    let '(old_neighborhood, old_neighborhood_size) :=
      select_neighborhood neighborhood old_position patch_position_offset (n g) in
    log_acceptance_probability ←
      death_scan (patches s) (cache g) old_neighborhood old_position
        old_item_type (Z.to_nat old_neighborhood_size) 0 f_zero;
    v ← intensity (cache g) old_position old_item_type;
    let log_acceptance_probability := f_sub log_acceptance_probability v in
    (* add log probability of inverse proposal *)
    let log_acceptance_probability :=
      f_add log_acceptance_probability
        (f_sub (f_neg (LOG_ITEM_TYPE_COUNT g)) (LOG_N_SQUARED g)) in
    (* subtract log probability of forward proposal *)
    let log_acceptance_probability :=
      f_sub log_acceptance_probability
        (f_neg (log_cache_get (wrap32 (Z.of_nat (length (items current)))))) in
    (* accept or reject the proposal depending on the computed probability *)
    let '(r, rng) := rng_call rng in
    let random := f_div (f_of_Z r) (f_of_Z rng_max) in
    if f_ltb (f_log random) log_acceptance_probability then
      remaining ← array_remove (items current) (Z.to_nat item_index);
      Some (mk_sampler_state rng
              (<[current_ptr := mk_patch remaining (fixed current)]> (patches s)))
    else Some (mk_sampler_state rng (patches s))
  else Some (mk_sampler_state rng (patches s)).

(** [gibbs_field::sample]: one pass over the patches of the batch. *)
Definition sample (g : gibbs_field) (s : sampler_state) : option sampler_state :=
  for_range 0 (patch_count g) (sample_patch g) s.

End GibbsField.

(* ===================================================================== *)
(** * fixed_width_stream: fixed-width little-endian bytes                 *)
(* ===================================================================== *)

Definition byte_of_Z (z : Z) : byte := default x00 (Byte.of_N (Z.to_N z)).
Definition Z_of_byte (b : byte) : Z := Z.of_N (Byte.to_N b).

(** The [width] low bytes of [z], least significant first. *)
Fixpoint le_bytes (width : nat) (z : Z) : list byte :=
  match width with
  | O => []
  | S width' => byte_of_Z (z mod 256) :: le_bytes width' (z / 256)
  end.

Fixpoint le_value (bytes : list byte) : Z :=
  match bytes with
  | [] => 0
  | b :: rest => Z_of_byte b + 256 * le_value rest
  end.

(** A way to write values of type [A] to a stream and to read them back: the
    bytes written, and the value read together with the rest of the stream
    ([None] when [read] returns false).  [wf] says which values are in the
    range of their machine types. *)
Record codec (A : Type) := mk_codec {
  wf : A → Prop;
  enc : A → list byte;
  dec : list byte → option (A * list byte);
}.
Global Arguments mk_codec {A} _ _ _.
Global Arguments wf {A} _ _.
Global Arguments enc {A} _ _.
Global Arguments dec {A} _ _.

(** Reading what was written gives the value back and leaves the rest of the
    stream. *)
Definition codec_ok {A} (C : codec A) : Prop :=
  ∀ (a : A) (rest : list byte), wf C a → dec C (enc C a ++ rest) = Some (a, rest).

(** Unsigned integers of [width] bytes. *)
Definition read_uint (width : nat) (input : list byte) : option (Z * list byte) :=
  if decide (length input < width)%nat then None
  else Some (le_value (take width input), drop width input).

Definition uint_codec (width : nat) : codec Z :=
  mk_codec (λ z : Z, 0 ≤ z < 256 ^ Z.of_nat width) (le_bytes width) (read_uint width).

(** [write(size_t)], [write(uint64_t)] and [read] of the same. *)
Definition write_uint64 (z : Z) : list byte := le_bytes 8 z.
Definition read_uint64 (input : list byte) : option (Z * list byte) := read_uint 8 input.
Global Arguments write_uint64 : simpl never.
Global Arguments read_uint64 : simpl never.

(** [write(const uint64_t* data, out, length)] and
    [read(uint64_t* data, in, length)]. *)
Definition write_uint64_array (data : list Z) : list byte :=
  concat (map write_uint64 data).

Fixpoint read_uint64_array (length : nat) (input : list byte)
    : option (list Z * list byte) :=
  match length with
  | O => Some ([], input)
  | S length' =>
      '(z, input) ← read_uint64 input;
      '(data, input) ← read_uint64_array length' input;
      Some (z :: data, input)
  end.

(* ===================================================================== *)
(** * simulator.cpp: the Python binding                                   *)
(* ===================================================================== *)

(** What a function of the extension module hands back to Python. *)
Inductive py_return (A : Type) :=
  | Py_value (a : A)
  | Py_None
  | Py_exception.
Global Arguments Py_value {A} _.
Global Arguments Py_None {A}.
Global Arguments Py_exception {A}.

(** [enum class status] of the RPC layer, as far as the binding looks at it. *)
Inductive status :=
  | OK
  | INVALID_AGENT_ID
  | SERVER_PARSE_MESSAGE_ERROR
  | CLIENT_PARSE_MESSAGE_ERROR
  | SERVER_OUT_OF_MEMORY
  | CLIENT_OUT_OF_MEMORY
  | PERMISSION_DENIED.

Global Instance status_eq_dec : EqDecision status.
Proof. solve_decision. Defined.

Section PythonBinding.

(** The simulator proper ([simulator.h]), the server state ([mpi.h]) and the
    Python objects are not part of this file of the repository:
    - [simulator_state] is what [write(sim, out)] writes and [read(sim, in,
      data)] reads, with [sim_codec] for the two;
    - [server_state] with [state_codec] likewise;
    - [get_agent_state sim id] is the agent that [id] names in [sim], if any;
    - [simulator_time], [get_config] are the accessors of the same names;
    - [build_py_agent] builds the Python tuple of an agent. *)
Context {simulator_state server_state agent_state simulator_config : Type}.
Context {py_callback py_agent : Type}.
Variable sim_codec : codec simulator_state.
Variable state_codec : codec server_state.
Variable get_agent_state : simulator_state → Z → option agent_state.
Variable simulator_time : simulator_state → Z.
Variable get_config : simulator_state → simulator_config.
Variable build_py_agent : agent_state → simulator_config → Z → py_agent.
Variable initial_server_state : server_state.

(** [struct py_simulator_data]; of [server] only the state is kept. *)
Record py_simulator_data := mk_py_simulator_data {
  server : server_state;
  callback : py_callback;
  agent_ids : list Z;
  semaphore_ids : list Z;
}.

(** [simulator<py_simulator_data>]. *)
Record simulator := mk_simulator {
  sim : simulator_state;
  data : py_simulator_data;
}.

(** [py_simulator_data(PyObject* callback)] *)
Definition new_py_simulator_data (callback : py_callback) : py_simulator_data :=
  mk_py_simulator_data initial_server_state callback [] [].

(** Modelled from the spec: [simulator::get_agent_states(states, agent_ids,
    count)] is defined in [simulator.h], which is not among the sources.
    For [i < count], [states[i]] is the state of the agent that
    [agent_ids[i]] names, or null for an id that names no agent. *)
Definition get_agent_states (s : simulator_state) (agent_ids : list Z) (count : nat)
    : list (option agent_state) :=
  map (get_agent_state s) (take count agent_ids).

(** [simulator_save]: the bytes of the file when every write succeeds. *)
Definition simulator_save (sim_handle : simulator) : list byte :=
  let data := data sim_handle in
  enc sim_codec (sim sim_handle)
  ++ write_uint64 (Z.of_nat (length (agent_ids data)))
  ++ write_uint64_array (agent_ids data)
  ++ write_uint64 (Z.of_nat (length (semaphore_ids data)))
  ++ write_uint64_array (semaphore_ids data)
  ++ enc state_codec (server data).

(** What [simulator_load] returns: the time, the simulator and the states of
    the agents the simulator owns. *)
Record loaded := mk_loaded {
  loaded_time : Z;
  loaded_simulator : simulator;
  loaded_states : list py_agent;
}.

(** [simulator_load].  A failed read raises an exception.  The states of the
    owned agents are read through their pointers without a null check, and
    [get_agent_states] is given the count as an [unsigned int]: the result is
    undefined ([None]) when one of them is missing. *)
Definition simulator_load (file : list byte) (py_callback : py_callback)
    : option (py_return loaded) :=
  let data := new_py_simulator_data py_callback in
  match dec sim_codec file with
  | None => Some Py_exception
  | Some (s, input) =>
      match
        ('(agent_id_count, input) ← read_uint64 input;
         '(agent_ids, input) ← read_uint64_array (Z.to_nat agent_id_count) input;
         '(semaphore_id_count, input) ← read_uint64 input;
         '(semaphore_ids, input) ←
           read_uint64_array (Z.to_nat semaphore_id_count) input;
         '(state, input) ← dec state_codec input;
         Some (agent_id_count, agent_ids, semaphore_ids, state))
      with
      | None => Some Py_exception
      | Some (agent_id_count, agent_ids, semaphore_ids, state) =>
          let sim_data :=
            mk_py_simulator_data state (callback data) agent_ids semaphore_ids in
          let agent_states :=
            get_agent_states s agent_ids (Z.to_nat (wrap32 agent_id_count)) in
          py_states ←
            mapM (λ i,
                    agent ← mjoin (agent_states !! i);
                    id ← agent_ids !! i;
                    Some (build_py_agent agent (get_config s) id))
                 (seq 0 (Z.to_nat agent_id_count));
          Some (Py_value
                  (mk_loaded (simulator_time s) (mk_simulator s sim_data) py_states))
      end
  end.

(** The request of [simulator_agent_states] that has come back from the
    server: the status and the parallel arrays
    [response_data.agent_states.{ids, states}] ([length] is their length). *)
Record agent_state_array := mk_agent_state_array {
  ids : list Z;
  states : list agent_state;
}.

(** The loop of the client branch of [simulator_agent_states], from request
    index [i] on, with [next_index] into the response. *)
Fixpoint merge_agent_states (config : simulator_config) (response : agent_state_array)
    (agent_ids : list Z) (next_index : nat) : option (list (option py_agent)) :=
  match agent_ids with
  | [] => Some []
  | agent_id :: rest =>
      if decide (next_index = length (states response)) then
        (None ::.) <$> merge_agent_states config response rest next_index
      else
        id ← ids response !! next_index;
        if decide (id ≠ agent_id) then
          (None ::.) <$> merge_agent_states config response rest next_index
        else
          state ← states response !! next_index;
          (Some (build_py_agent state config agent_id) ::.)
            <$> merge_agent_states config response rest (S next_index)
  end.

(** [simulator_agent_states] with [py_client_handle == Py_None]. *)
Definition simulator_agent_states_local (sim_handle : simulator) (agent_ids : list Z)
    : py_return (list (option py_agent)) :=
  let agent_count := length agent_ids in
  let agent_states := get_agent_states (sim sim_handle) agent_ids agent_count in
  let config := get_config (sim sim_handle) in
  Py_value
    (zip_with (λ state id, (λ a, build_py_agent a config id) <$> state)
       agent_states agent_ids).

(** [simulator_agent_states] through a client: [client_running] and [sent]
    say whether the connection is up and the request could be sent,
    [server_response] and [response] are what the server answered. *)
Definition simulator_agent_states_client (config : simulator_config)
    (client_running sent : bool) (server_response : status)
    (response : agent_state_array) (agent_ids : list Z)
    : option (py_return (list (option py_agent))) :=
  if negb client_running then Some Py_exception
  else if negb sent then Some Py_exception
  else if decide (server_response ≠ OK) then Some Py_None
  else Py_value <$> merge_agent_states config response agent_ids 0.

(** A simulator as the binding keeps it: every field in the range of its
    machine type, fewer than 2^32 owned agents, and every owned agent id the
    id of an agent of the simulator. *)
Definition simulator_wf (sim_handle : simulator) : Prop :=
  let data := data sim_handle in
  wf sim_codec (sim sim_handle)
  ∧ wf state_codec (server data)
  ∧ Forall (λ id, 0 ≤ id < 2 ^ 64) (agent_ids data)
  ∧ Forall (λ id, 0 ≤ id < 2 ^ 64) (semaphore_ids data)
  ∧ Z.of_nat (length (agent_ids data)) < 2 ^ 32
  ∧ Z.of_nat (length (semaphore_ids data)) < 2 ^ 64
  ∧ Forall (λ id, is_Some (get_agent_state (sim sim_handle) id)) (agent_ids data).

(** The entry of the result of [get_agent_states] for one requested id: the
    Python tuple of the agent if the id names one, Python's [None] if not. *)
Definition expected_entry (s : simulator_state) (config : simulator_config)
    (agent_id : Z) : option py_agent :=
  (λ agent, build_py_agent agent config agent_id) <$> get_agent_state s agent_id.

(** Modelled from the spec: the server's answer to [get_agent_states] is
    built in [mpi.h], which is not among the sources.  The response that the
    client branch consumes holds the states of the requested agents that
    exist, each next to its id, in the order of the request; an id that names
    no agent has no entry. *)
Definition found_agents (s : simulator_state) (agent_ids : list Z)
    : list (Z * agent_state) :=
  omap (λ id, (id,.) <$> get_agent_state s id) agent_ids.

Definition response_of (found : list (Z * agent_state)) : agent_state_array :=
  mk_agent_state_array (map fst found) (map snd found).

Definition server_reply (s : simulator_state) (agent_ids : list Z)
    : agent_state_array :=
  response_of (found_agents s agent_ids).

End PythonBinding.

(* ===================================================================== *)
(** * The snapshot codec                                                  *)
(* ===================================================================== *)

(** Modelled from the spec: [simulator.h] and [mpi.h], which hold
    [write]/[read] of the simulator and of the server state, are not among
    the sources.  Section 4.8 of the specification gives the layout: every
    scalar in fixed width, little-endian; every sequence as its count
    followed by its elements; a version byte first; then the configuration,
    the tick, the generator state, the patch map, the agent table, the
    semaphore table and the coordinator state.  A float is written as the
    four bytes of its bit pattern. *)
Module Snapshot.

Definition bool_codec : codec bool :=
  mk_codec (λ _ : bool, True)
    (λ b : bool, [if b then x01 else x00])
    (λ input,
       match input with
       | x00 :: rest => Some (false, rest)
       | x01 :: rest => Some (true, rest)
       | _ => None
       end).

(** [int64_t] in two's complement. *)
Definition int64_codec : codec Z :=
  mk_codec (λ z : Z, - 2 ^ 63 ≤ z < 2 ^ 63)
    (λ z : Z, le_bytes 8 (wrap64 z))
    (λ input,
       '(v, rest) ← read_uint 8 input;
       Some (if v <? 2 ^ 63 then v else v - 2 ^ 64, rest)).

Definition pair_codec {A B} (CA : codec A) (CB : codec B) : codec (A * B) :=
  mk_codec (λ p : A * B, wf CA (fst p) ∧ wf CB (snd p))
    (λ p : A * B, enc CA (fst p) ++ enc CB (snd p))
    (λ input,
       '(a, input) ← dec CA input;
       '(b, input) ← dec CB input;
       Some ((a, b), input)).

Fixpoint dec_elements {A} (C : codec A) (count : nat) (input : list byte)
    : option (list A * list byte) :=
  match count with
  | O => Some ([], input)
  | S count' =>
      '(a, input) ← dec C input;
      '(l, input) ← dec_elements C count' input;
      Some (a :: l, input)
  end.

(** A sequence: its count as a [uint64_t], then its elements. *)
Definition list_codec {A} (C : codec A) : codec (list A) :=
  mk_codec (λ l : list A, Z.of_nat (length l) < 2 ^ 64 ∧ Forall (wf C) l)
    (λ l : list A, write_uint64 (Z.of_nat (length l)) ++ concat (map (enc C) l))
    (λ input,
       '(count, input) ← read_uint64 input;
       dec_elements C (Z.to_nat count) input).

(** A structure written through its tuple of fields. *)
Definition struct_codec {A B} (to_fields : B → A) (of_fields : A → B)
    (C : codec A) : codec B :=
  mk_codec (λ b : B, wf C (to_fields b))
    (λ b : B, enc C (to_fields b))
    (λ input, '(a, input) ← dec C input; Some (of_fields a, input)).

(** A table: the sequence of its entries in key order. *)
Definition map_codec {K A} `{Countable K} (C : codec (K * A)) : codec (gmap K A) :=
  struct_codec map_to_list list_to_map (list_codec C).

Definition u8 : codec Z := uint_codec 1.
Definition u32 : codec Z := uint_codec 4.
Definition u64 : codec Z := uint_codec 8.
Definition f32 : codec Z := uint_codec 4.

Infix "**" := pair_codec (at level 40, left associativity).

(** An energy function: its tag and its argument array. *)
Definition energy_codec : codec (Z * list Z) := u64 ** list_codec f32.

Record item_type := mk_item_type {
  name : list Z;
  scent : list Z;
  color : list Z;
  required_item_counts : list Z;
  required_item_costs : list Z;
  blocks_movement : bool;
  visual_occlusion : Z;
  intensity_fn : Z * list Z;
  interaction_fns : list (Z * list Z);
  regeneration_fn : Z * list Z;
  lifetime : Z;
}.

Definition item_type_codec : codec item_type :=
  struct_codec
    (λ t, (name t, scent t, color t, required_item_counts t,
           required_item_costs t, blocks_movement t, visual_occlusion t,
           intensity_fn t, interaction_fns t, regeneration_fn t, lifetime t))
    (λ '(a, b, c, d, e, f, g, h, i, j, k), mk_item_type a b c d e f g h i j k)
    (list_codec u8 ** list_codec f32 ** list_codec f32 ** list_codec u64
     ** list_codec u64 ** bool_codec ** f32 ** energy_codec
     ** list_codec energy_codec ** energy_codec ** u64).

Record config := mk_config {
  random_seed : Z;
  patch_size : Z;
  mcmc_iterations : Z;
  scent_dim : Z;
  color_dim : Z;
  vision_range : Z;
  max_steps_per_movement : Z;
  allowed_movement_directions : list Z;
  allowed_turn_directions : list Z;
  no_op_allowed : bool;
  agent_color : list Z;
  collision_policy : Z;
  scent_decay : Z;
  scent_diffusion : Z;
  removed_item_lifetime : Z;
  field_of_view : Z;
  item_types : list item_type;
}.

Definition config_codec : codec config :=
  struct_codec
    (λ c, (random_seed c, patch_size c, mcmc_iterations c, scent_dim c,
           color_dim c, vision_range c, max_steps_per_movement c,
           allowed_movement_directions c, allowed_turn_directions c,
           no_op_allowed c, agent_color c, collision_policy c, scent_decay c,
           scent_diffusion c, removed_item_lifetime c, field_of_view c,
           item_types c))
    (λ '(a, b, c, d, e, f, g, h, i, j, k, l, m, n, o, p, q),
       mk_config a b c d e f g h i j k l m n o p q)
    (u32 ** u32 ** u32 ** u32 ** u32 ** u32 ** u32 ** list_codec u8
     ** list_codec u8 ** bool_codec ** list_codec f32 ** u8 ** f32 ** f32
     ** u32 ** f32 ** list_codec item_type_codec).

Definition position_codec : codec position :=
  struct_codec (λ p, (px p, py p)) (λ '(x, y), mk_position x y)
    (int64_codec ** int64_codec).

(** An item instance of a patch, alive or ghost. *)
Record item := mk_item {
  item_type_index : Z;
  location : position;
  creation_tick : Z;
  deletion_tick : Z;
}.

Definition item_codec : codec item :=
  struct_codec
    (λ i, (item_type_index i, location i, creation_tick i, deletion_tick i))
    (λ '(a, b, c, d), mk_item a b c d)
    (u32 ** position_codec ** u64 ** u64).

(** A patch, without its coordinate (the key of the patch map). *)
Record patch := mk_patch {
  fixed : bool;
  items : list item;
  scent_grid : list Z;
  last_scent_update_tick : Z;
}.

Definition patch_codec : codec patch :=
  struct_codec
    (λ p, (fixed p, items p, scent_grid p, last_scent_update_tick p))
    (λ '(a, b, c, d), mk_patch a b c d)
    (bool_codec ** list_codec item_codec ** list_codec f32 ** u64).

(** An agent, without its id (the key of the agent table).  The requested
    action is its kind, its direction and its number of steps. *)
Record agent := mk_agent {
  current_position : position;
  current_direction : Z;
  current_scent : list Z;
  current_vision : list Z;
  collected_items : list Z;
  requested_action : Z * Z * Z;
  active : bool;
}.

Definition agent_codec : codec agent :=
  struct_codec
    (λ a, (current_position a, current_direction a, current_scent a,
           current_vision a, collected_items a, requested_action a, active a))
    (λ '(a, b, c, d, e, f, g), mk_agent a b c d e f g)
    (position_codec ** u8 ** list_codec f32 ** list_codec f32
     ** list_codec u64 ** (u8 ** u8 ** u32) ** bool_codec).

(** The coordinator: how many have reported this tick, and who. *)
Record coordinator := mk_coordinator {
  counter : Z;
  reporters : list Z;
}.

Definition coordinator_codec : codec coordinator :=
  struct_codec (λ c, (counter c, reporters c)) (λ '(a, b), mk_coordinator a b)
    (u64 ** list_codec u64).

Global Instance position_countable : Countable position.
Proof.
  apply (inj_countable' (λ p, (px p, py p)) (λ '(x, y), mk_position x y)).
  intros [x y]. reflexivity.
Defined.

Record simulator_state := mk_simulator_state {
  version : Z;
  configuration : config;
  current_tick : Z;
  rng_state : Z;
  patches : gmap position patch;
  agents : gmap Z agent;
  semaphores : gmap Z bool;
  coordination : coordinator;
}.

Definition simulator_codec : codec simulator_state :=
  struct_codec
    (λ s, (version s, configuration s, current_tick s, rng_state s, patches s,
           agents s, semaphores s, coordination s))
    (λ '(a, b, c, d, e, f, g, h), mk_simulator_state a b c d e f g h)
    (u8 ** config_codec ** u64 ** u64
     ** map_codec (position_codec ** patch_codec)
     ** map_codec (u64 ** agent_codec)
     ** map_codec (u64 ** bool_codec)
     ** coordinator_codec).

(** The server state: for every connected client its id, its nine
    permissions (section 6), and the agents and semaphores it owns. *)
Record client_info := mk_client_info {
  permissions : list bool;
  owned_agents : list Z;
  owned_semaphores : list Z;
}.

Definition client_codec : codec client_info :=
  struct_codec
    (λ c, (permissions c, owned_agents c, owned_semaphores c))
    (λ '(a, b, c), mk_client_info a b c)
    (list_codec bool_codec ** list_codec u64 ** list_codec u64).

Definition server_state := gmap Z client_info.

Definition server_state_codec : codec server_state :=
  map_codec (u64 ** client_codec).

(** The agent that an id names, and the accessors the binding uses. *)
Definition get_agent_state (s : simulator_state) (id : Z) : option agent :=
  agents s !! id.

End Snapshot.

(** A small simulator: one item type, one patch with one item, the agent 7,
    the semaphore 3, one connected client. *)
Module SnapshotExample.
Import Snapshot.

Definition jelly_bean : item_type :=
  mk_item_type [106; 98] [0x3f800000] [0x3f800000] [0] [0] false 0
    (1, [0xc0000000]) [(0, [])] (0, []) 0.

Definition configuration : config :=
  mk_config 1234567890 4 100 1 1 1 1 [1; 1; 1; 1] [1; 1; 1; 1] true
    [0x3f800000] 1 0x3f000000 0x3dcccccd 2000 0x40490fdb [jelly_bean].

Definition origin_patch : patch :=
  mk_patch true [mk_item 0 (mk_position 1 (-2)) 0 0]
    (replicate 16 0x00000000) 5.

Definition agent_7 : agent :=
  mk_agent (mk_position 0 0) 0 [0] (replicate 9 0) [0] (0, 0, 0) true.

Definition state : simulator_state :=
  mk_simulator_state 1 configuration 5 42
    {[ mk_position 0 0 := origin_patch ]}
    {[ 7 := agent_7 ]}
    {[ 3 := true ]}
    (mk_coordinator 1 [3]).

Definition clients : server_state :=
  {[ 1 := mk_client_info (replicate 9 true) [8] [] ]}.

Definition handle : simulator (py_callback := unit) :=
  mk_simulator state (mk_py_simulator_data clients tt [7] [3]).

End SnapshotExample.

(* ===================================================================== *)
(** * The registry's validation rule, in the words of the specification   *)
(* ===================================================================== *)

(** How many arguments a tag asks for. *)
Inductive arity :=
  | Exactly (k : nat)
  | AtLeast (k : nat).

Definition arity_ok (a : arity) (num_args : nat) : bool :=
  match a with
  | Exactly k => bool_decide (num_args = k)
  | AtLeast k => bool_decide (k ≤ num_args)%nat
  end.

(** ZERO takes no argument, CONSTANT at least one, RADIAL_HASH four. *)
Definition spec_intensity_arity (type : N) : option arity :=
  if decide (type = intensity_fns.ZERO) then Some (Exactly 0)
  else if decide (type = intensity_fns.CONSTANT) then Some (AtLeast 1)
  else if decide (type = intensity_fns.RADIAL_HASH) then Some (Exactly 4)
  else None.

(** ZERO, MOORE and FOUR take no argument, PIECEWISE_BOX four, CROSS six,
    CROSS_HASH eight, GAUSSIAN two. *)
Definition spec_interaction_arity (type : N) : option arity :=
  if decide (type = interaction_fns.ZERO) then Some (Exactly 0)
  else if decide (type = interaction_fns.MOORE) then Some (Exactly 0)
  else if decide (type = interaction_fns.FOUR) then Some (Exactly 0)
  else if decide (type = interaction_fns.PIECEWISE_BOX) then Some (Exactly 4)
  else if decide (type = interaction_fns.CROSS) then Some (Exactly 6)
  else if decide (type = interaction_fns.CROSS_HASH) then Some (Exactly 8)
  else if decide (type = interaction_fns.GAUSSIAN) then Some (Exactly 2)
  else None.

(** ZERO takes no argument, CONSTANT and CUSTOM at least one. *)
Definition spec_regeneration_arity (type : N) : option arity :=
  if decide (type = regeneration_fns.ZERO) then Some (Exactly 0)
  else if decide (type = regeneration_fns.CONSTANT) then Some (AtLeast 1)
  else if decide (type = regeneration_fns.CUSTOM) then Some (AtLeast 1)
  else None.

(** A request is valid when the tag is known and the count fits its arity. *)
Definition spec_valid (a : option arity) (num_args : nat) : bool :=
  match a with
  | None => false
  | Some a => arity_ok a num_args
  end.

Section CacheSpec.
Context {float : Type} {H : FloatOps float}.

Local Abbreviation gibbs_field_cache := (@gibbs_field_cache float).

(** An interaction function is displacement-only when shifting both of its
    positions by the same vector never changes its result. *)
Definition displacement_only (f : interaction_function) : Prop :=
  ∀ (p1 p2 d : position) (args : list float),
    call_interaction f (position_add p1 d) (position_add p2 d) args
    = call_interaction f p1 p2 args.

(** The value that [init_helper] stores for the table cell [(x, y)]. *)
Definition table_cell (interaction : interaction_function)
    (args : list float) (two_n x y : Z) : option float :=
  if (x =? two_n) && (y =? two_n) then Some f_zero
  else call_interaction interaction (mk_position two_n two_n) (mk_position x y) args.

(** The functions that get a table: stationary and not constant. *)
Definition cacheable (f : interaction_function) : bool :=
  negb (is_constant f) && is_stationary f.

(** The table of the pair of item types [(i, j)], as a pointer read. *)
Definition interaction_table (c : gibbs_field_cache) (i j : Z)
    : option (list (option float)) :=
  mjoin (array_get (interactions c) (i * item_type_count c + j)).

(** The table cell that holds displacement [d]: index
    [(d + (2n,2n)).x * 4n + (d + (2n,2n)).y]. *)
Definition table_entry (c : gibbs_field_cache)
    (table : list (option float)) (d : position) : option float :=
  let shifted := position_add d (mk_position (two_n c) (two_n c)) in
  mjoin (array_get table (px shifted * four_n c + py shifted)).

Definition in_table (c : gibbs_field_cache) (d : position) : Prop :=
  let shifted := position_add d (mk_position (two_n c) (two_n c)) in
  0 ≤ px shifted < four_n c ∧ 0 ≤ py shifted < four_n c.

(** What [init_helper] leaves unchanged. *)
Definition same_config (c c' : gibbs_field_cache) : Prop :=
  two_n c' = two_n c ∧ four_n c' = four_n c
  ∧ item_types c' = item_types c ∧ item_type_count c' = item_type_count c.

(** The pair [(i, j)] has been handled: its functions exist, and if the
    interaction function is stationary and not constant its table is in place
    and is the one [fill_table] computes. *)
Definition entry_ok (c0 c : gibbs_field_cache) (i j : Z) : Prop :=
  ∃ it ef,
    array_get (item_types c0) i = Some it
    ∧ array_get (interaction_fns it) j = Some ef
    ∧ (cacheable (fn ef) = true →
       ∃ table,
         interactions c !! Z.to_nat (i * item_type_count c0 + j) = Some (Some table)
         ∧ fill_table (fn ef) (args ef) (two_n c0) (four_n c0)
             (replicate (Z.to_nat (four_n c0 * four_n c0)) None) = Some table).

End CacheSpec.

(* ===================================================================== *)
(** * The Metropolis-Hastings moves, in the words of the specification    *)
(* ===================================================================== *)





Section SamplerSpec.
Context {float : Type} {H : FloatOps float}.
Context {rng_state : Type} {R : RNGType rng_state}.
Variable NDEBUG : bool.

Local Abbreviation gibbs_field_cache := (@gibbs_field_cache float).

(** The value and the next state of one call [rng()]. *)
Definition rng_value (s : rng_state) : Z := fst (rng_call s).
Definition rng_step (s : rng_state) : rng_state := snd (rng_call s).



(** The pairwise terms of an item of type [t] at [pos] against the items
    [its]: [interaction(pos, q, t, u)] and [interaction(q, pos, u, t)] for each
    item [(q, u)], combined into [acc] with [op] one after the other in the
    order of the list. *)
Fixpoint pairwise_terms (op : float → float → float) (c : gibbs_field_cache)
    (pos : position) (t : Z) (its : list item) (acc : float) : option float :=
  match its with
  | [] => Some acc
  | it :: rest =>
      a ← interaction NDEBUG c pos (location it) t (item_type it);
      b ← interaction NDEBUG c (location it) pos (item_type it) t;
      pairwise_terms op c pos t rest (op (op acc a) b)
  end.







End SamplerSpec.

(* ===================================================================== *)
(** * A concrete float structure and a concrete generator                 *)
(* ===================================================================== *)

(** IEEE 754 binary32 with round-to-nearest-even, on [spec_float].  libm is
    outside the repository: so that the model can be run on concrete inputs,
    [exp] and [log] are evaluated here by truncated series in binary32
    arithmetic.  No theorem of this development depends on their values. *)
Module Binary32.

Definition prec : Z := 24.
Definition emax : Z := 128.

Definition of_Z (z : Z) : spec_float := binary_normalize prec emax z 0 false.

(** Truncation towards zero; defined when the truncated value fits. *)
Definition to_uint32 (f : spec_float) : option Z :=
  match f with
  | S754_zero _ => Some 0
  | S754_finite s m e =>
      let v := if 0 <=? e then Z.pos m * 2 ^ e else Z.pos m / 2 ^ (- e) in
      if s then (if v =? 0 then Some 0 else None)
      else if v <? 2 ^ 32 then Some v else None
  | _ => None
  end.

Definition add := SFadd prec emax.
Definition sub := SFsub prec emax.
Definition mul := SFmul prec emax.
Definition div := SFdiv prec emax.

Fixpoint exp_series (k : nat) (x term sum : spec_float) (i : Z) : spec_float :=
  match k with
  | O => sum
  | S k' =>
      let term := div (mul term x) (of_Z i) in
      exp_series k' x term (add sum term) (i + 1)
  end.

(** The number of terms grows with the magnitude of the argument. *)
Definition terms (x : spec_float) : nat :=
  match x with
  | S754_finite _ m e => Z.to_nat (Z.max 24 (24 + 2 * (Z.log2 (Z.pos m) + e)))
  | _ => O
  end.

Definition exp (x : spec_float) : spec_float :=
  match x with
  | S754_zero _ => of_Z 1
  | S754_finite _ _ _ => exp_series (terms x) x (of_Z 1) (of_Z 1) 1
  | S754_infinity s => if s then of_Z 0 else x
  | S754_nan => x
  end.

Fixpoint atanh_series (k : nat) (z2 power sum : spec_float) (i : Z) : spec_float :=
  match k with
  | O => sum
  | S k' =>
      let power := mul power z2 in
      atanh_series k' z2 power (add sum (div power (of_Z i))) (i + 2)
  end.

Definition log (x : spec_float) : spec_float :=
  match x with
  | S754_zero _ => S754_infinity true
  | S754_finite false _ _ =>
      let z := div (sub x (of_Z 1)) (add x (of_Z 1)) in
      mul (of_Z 2) (atanh_series (40 + terms x) (mul z z) z z 3)
  | S754_infinity false => x
  | _ => S754_nan
  end.

Definition ops : FloatOps spec_float := {|
  f_of_Z := of_Z;
  f_to_uint32 := to_uint32;
  f_neg := SFopp;
  f_add := add;
  f_sub := sub;
  f_mul := mul;
  f_div := div;
  f_ltb := SFltb;
  f_leb := SFleb;
  f_exp := exp;
  f_log := log;
|}.

End Binary32.

(** [std::minstd_rand]: [x' = 48271 * x mod (2^31 - 1)], largest value
    [2^31 - 2]. *)
Module Minstd.

Definition next (x : Z) : Z * Z :=
  let x' := (48271 * x) mod 2147483647 in (x', x').

Definition rng : RNGType Z := {|
  rng_call := next;
  rng_max := 2147483646;
|}.

End Minstd.

(** A one-item-type world whose items repel each other outside their Moore
    neighborhood, and a three-type world that mixes the three kinds of
    interaction paths. *)
Module Worlds.

Definition mk_item_type {float : Type} {H : FloatOps float}
    (interactions : list (energy_function interaction_function))
    : item_properties (float := float) :=
  mk_item_properties
    (mk_energy_function _ constant_intensity_fn [f_of_Z (-2)])
    interactions
    (mk_energy_function _ zero_regeneration_fn []).

#[local] Existing Instance Binary32.ops.

Definition moore_world : list (item_properties (float := spec_float)) :=
  [ mk_item_type [ mk_energy_function _ moore_interaction_fn [] ] ].

Definition mixed_world : list (item_properties (float := spec_float)) :=
  let box := mk_energy_function _ piecewise_box_interaction_fn
               [f_of_Z 3; f_of_Z 20; f_of_Z (-6); f_of_Z 2] in
  let four := mk_energy_function _ four_interaction_fn [] in
  let zero := mk_energy_function _ zero_interaction_fn [] in
  [ mk_item_type [box; four]; mk_item_type [zero; box] ].

(** Their caches for patches of size [n = 1]. *)
Definition cache_of (world : list (item_properties (float := spec_float)))
    (count n : Z) : gibbs_field_cache (float := spec_float) :=
  default (mk_gibbs_field_cache [] [] [] 0 0 [] 0) (init world count n).

Definition moore_cache : gibbs_field_cache (float := spec_float) := cache_of moore_world 1 1.
Definition mixed_cache : gibbs_field_cache (float := spec_float) := cache_of mixed_world 2 1.

End Worlds.

(** A batch of one patch of size 4 at the origin, with one neighbor to its
    right, in the three-function world. *)
Module Scenario.
Import Worlds.
#[local] Existing Instance Binary32.ops.
#[local] Existing Instance Minstd.rng.

Definition cache4 : gibbs_field_cache (float := spec_float) :=
  Eval vm_compute in cache_of mixed_world 2 4.

Definition current : patch_type :=
  mk_patch [ mk_item 0 (mk_position 2 2) 0 0; mk_item 1 (mk_position 3 2) 0 0 ] false.

Definition right_neighbor : patch_type :=
  mk_patch [ mk_item 0 (mk_position 5 1) 0 0 ] true.

Definition store : gmap nat patch_type :=
  <[0%nat := current]> (<[1%nat := right_neighbor]> ∅).

Definition sparse_current : patch_type :=
  mk_patch [ mk_item 0 (mk_position 3 3) 0 0 ] false.

Definition sparse_store : gmap nat patch_type :=
  <[0%nat := sparse_current]> (<[1%nat := mk_patch [] true]> ∅).

Definition hood : patch_neighborhood :=
  mk_patch_neighborhood [0; 1; 0; 0]%nat [0; 1; 0; 0]%nat [0; 1; 0; 0]%nat
    [0; 1; 0; 0]%nat 2 2 2 2.

Definition field : gibbs_field :=
  new_gibbs_field cache4 [mk_position 0 0] [hood] 1 4.



(** From state 2 the generator yields an even number first (a birth is
    proposed), from state 13 an odd one (a death is proposed). *)
Definition birth_state : sampler_state := mk_sampler_state 2 sparse_store.
Definition death_state : sampler_state := mk_sampler_state 13 store.

End Scenario.

(* ===================================================================== *)
(** * energy_functions.h: the function pointers on a stream               *)
(* ===================================================================== *)

(** [read(intensity_function&, Stream&)]: the tag is read as a [uint64_t]
    ([intensity_fns_type]); reading fails when the stream is too short or the
    tag is outside the enumeration. *)
Definition read_intensity_function (input : list byte)
    : option (intensity_function * list byte) :=
  '(c, input) ← read_uint64 input;
  if decide (c = Z.of_N intensity_fns.ZERO) then Some (zero_intensity_fn, input)
  else if decide (c = Z.of_N intensity_fns.CONSTANT) then
    Some (constant_intensity_fn, input)
  else if decide (c = Z.of_N intensity_fns.RADIAL_HASH) then
    Some (radial_hash_intensity_fn, input)
  else None.

(** [write(const intensity_function&, Stream&)]: the bytes written, or [None]
    for the branch that returns false. *)
Definition write_intensity_function (function : intensity_function)
    : option (list byte) :=
  if decide (function = zero_intensity_fn) then
    Some (write_uint64 (Z.of_N intensity_fns.ZERO))
  else if decide (function = constant_intensity_fn) then
    Some (write_uint64 (Z.of_N intensity_fns.CONSTANT))
  else if decide (function = radial_hash_intensity_fn) then
    Some (write_uint64 (Z.of_N intensity_fns.RADIAL_HASH))
  else None.

Definition read_interaction_function (input : list byte)
    : option (interaction_function * list byte) :=
  '(c, input) ← read_uint64 input;
  if decide (c = Z.of_N interaction_fns.ZERO) then Some (zero_interaction_fn, input)
  else if decide (c = Z.of_N interaction_fns.PIECEWISE_BOX) then
    Some (piecewise_box_interaction_fn, input)
  else if decide (c = Z.of_N interaction_fns.CROSS) then
    Some (cross_interaction_fn, input)
  else if decide (c = Z.of_N interaction_fns.CROSS_HASH) then
    Some (cross_hash_interaction_fn, input)
  else if decide (c = Z.of_N interaction_fns.MOORE) then
    Some (moore_interaction_fn, input)
  else if decide (c = Z.of_N interaction_fns.FOUR) then
    Some (four_interaction_fn, input)
  else if decide (c = Z.of_N interaction_fns.GAUSSIAN) then
    Some (gaussian_interaction_fn, input)
  else None.

Definition write_interaction_function (function : interaction_function)
    : option (list byte) :=
  if decide (function = zero_interaction_fn) then
    Some (write_uint64 (Z.of_N interaction_fns.ZERO))
  else if decide (function = piecewise_box_interaction_fn) then
    Some (write_uint64 (Z.of_N interaction_fns.PIECEWISE_BOX))
  else if decide (function = cross_interaction_fn) then
    Some (write_uint64 (Z.of_N interaction_fns.CROSS))
  else if decide (function = cross_hash_interaction_fn) then
    Some (write_uint64 (Z.of_N interaction_fns.CROSS_HASH))
  else if decide (function = moore_interaction_fn) then
    Some (write_uint64 (Z.of_N interaction_fns.MOORE))
  else if decide (function = four_interaction_fn) then
    Some (write_uint64 (Z.of_N interaction_fns.FOUR))
  else if decide (function = gaussian_interaction_fn) then
    Some (write_uint64 (Z.of_N interaction_fns.GAUSSIAN))
  else None.

Definition read_regeneration_function (input : list byte)
    : option (regeneration_function * list byte) :=
  '(c, input) ← read_uint64 input;
  if decide (c = Z.of_N regeneration_fns.ZERO) then Some (zero_regeneration_fn, input)
  else if decide (c = Z.of_N regeneration_fns.CONSTANT) then
    Some (constant_regeneration_fn, input)
  else if decide (c = Z.of_N regeneration_fns.CUSTOM) then
    Some (custom_regeneration_fn, input)
  else None.

Definition write_regeneration_function (function : regeneration_function)
    : option (list byte) :=
  if decide (function = zero_regeneration_fn) then
    Some (write_uint64 (Z.of_N regeneration_fns.ZERO))
  else if decide (function = constant_regeneration_fn) then
    Some (write_uint64 (Z.of_N regeneration_fns.CONSTANT))
  else if decide (function = custom_regeneration_fn) then
    Some (write_uint64 (Z.of_N regeneration_fns.CUSTOM))
  else None.

(** The permutation that undoes [murmurhash32_mix32].  It is not part of the
    source: [0x119de1f3] is the inverse of the multiplier [0x45d9f3b] modulo
    [2^32], and [x ^= x >> 16] undoes itself on 32-bit words. *)
Definition murmurhash32_unmix32 (x : Z) : Z :=
  let x := Z.lxor x (Z.shiftr x 16) in
  let x := wrap32 (x * 0x119de1f3) in
  let x := Z.lxor x (Z.shiftr x 16) in
  let x := wrap32 (x * 0x119de1f3) in
  Z.lxor x (Z.shiftr x 16).

(* ===================================================================== *)
(** * gibbs_field.h: the cached intensities and regenerations             *)
(* ===================================================================== *)

Section CacheScalars.
Context {float : Type} {H : FloatOps float}.

Local Abbreviation gibbs_field_cache := (@gibbs_field_cache float).

(** The regeneration functions whose value [init_helper] stores. *)
Definition cached_regeneration (f : regeneration_function) : bool :=
  is_stationary_regeneration f && is_time_independent f.

(** Item type [i] has been handled by the outer loop of [init_helper]: the
    cells [intensities[i]] and [regenerations[i]] hold the value of the
    function at [position(0, 0)] (and time 0) when the function is one whose
    value is stored. *)
Definition scalar_ok (c0 c : gibbs_field_cache) (i : Z) : Prop :=
  ∃ it,
    array_get (item_types c0) i = Some it
    ∧ (is_stationary_intensity (fn (intensity_fn it)) = true →
       ∃ v, intensities c !! Z.to_nat i = Some (Some v)
            ∧ call_intensity (fn (intensity_fn it)) (mk_position 0 0)
                (args (intensity_fn it)) = Some v)
    ∧ (cached_regeneration (fn (regeneration_fn it)) = true →
       ∃ v, regenerations c !! Z.to_nat i = Some (Some v)
            ∧ call_regeneration (fn (regeneration_fn it)) (mk_position 0 0) 0
                (args (regeneration_fn it)) = Some v).

End CacheScalars.

(* ===================================================================== *)
(** * gibbs_field.h: what the sampler keeps true of a patch               *)
(* ===================================================================== *)

Section SamplerInvariants.
Context {float : Type} {H : FloatOps float}.
Context {rng_state : Type} {R : RNGType rng_state}.

Local Abbreviation gibbs_field := (@gibbs_field float).
Local Abbreviation sampler_state := (@sampler_state rng_state).

(** The items of a patch are well placed: no two of them in the same cell,
    each inside the [n x n] square of the patch that starts at [offset], each
    of one of the [item_type_count] item types. *)
Definition items_wf (item_type_count n : Z) (offset : position)
    (its : list item) : Prop :=
  NoDup (map location its)
  ∧ Forall (λ it, 0 ≤ item_type it < item_type_count
                   ∧ 0 ≤ px (location it) - px offset < n
                   ∧ 0 ≤ py (location it) - py offset < n) its.

(** Every quadrant neighborhood lists the sampled patch first (the source
    takes [top_left_neighborhood[0]] for the patch it samples, whatever the
    quadrant it scans). *)
Definition starts_with (ptr : nat) (neighborhood : patch_neighborhood) : Prop :=
  (array_get (bottom_left_neighborhood neighborhood) 0 = Some ptr
   ∧ 0 < bottom_left_neighbor_count neighborhood)
  ∧ (array_get (top_left_neighborhood neighborhood) 0 = Some ptr
     ∧ 0 < top_left_neighbor_count neighborhood)
  ∧ (array_get (bottom_right_neighborhood neighborhood) 0 = Some ptr
     ∧ 0 < bottom_right_neighbor_count neighborhood)
  ∧ (array_get (top_right_neighborhood neighborhood) 0 = Some ptr
     ∧ 0 < top_right_neighbor_count neighborhood).

(** The batch of a field is laid out consistently: the neighborhood of index
    [i] starts with a patch whose position is [patch_positions[i]]. *)
Definition batch_wf (g : gibbs_field) (position_of : nat → position) : Prop :=
  ∀ i pp nb,
    array_get (patch_positions g) i = Some pp →
    array_get (neighborhoods g) i = Some nb →
    ∃ ptr, starts_with ptr nb ∧ pp = position_of ptr.

(** Every patch of the store has its items well placed. *)
Definition store_wf (g : gibbs_field) (position_of : nat → position)
    (store : gmap nat patch_type) : Prop :=
  ∀ ptr cur,
    store !! ptr = Some cur →
    items_wf (item_type_count (cache g)) (n g)
      (position_scale (position_of ptr) (n g)) (items cur).

(** The patch at [ptr] is the one sampled at some index of the batch. *)
Definition sampled (g : gibbs_field) (ptr : nat) : Prop :=
  ∃ i nb,
    0 ≤ i < patch_count g
    ∧ array_get (neighborhoods g) i = Some nb
    ∧ array_get (top_left_neighborhood nb) 0 = Some ptr.

(** One step of the sampler on the list of items of a patch. *)
Inductive items_step (its its' : list item) : Prop :=
  | items_same : its' = its → items_step its its'
  | items_born (new : item) : its' = its ++ [new] → items_step its its'
  | items_died (old : item) : its ≡ₚ old :: its' → items_step its its'.

(* =================================================================== *)
(** ** resample                                                         *)
(* =================================================================== *)

(** [gibbs_field::resample]: the loop computes [real_intensity] and
    [new_intensity] for every patch and stores neither. *)
Definition resample (g : gibbs_field) (current_time : Z) (s : sampler_state)
    : option sampler_state :=
  for_range 0 (patch_count g) (fun i s =>
    patch_position ← array_get (patch_positions g) i;
    let patch_position_offset := position_scale patch_position (n g) in
    neighborhood ← array_get (neighborhoods g) i;
    current_ptr ← array_get (top_left_neighborhood neighborhood) 0;
    current ← patches s !! current_ptr;
    (* New intensity function *)
    let real_intensity :=
      f_sub (f_log (f_of_Z (Z.of_nat (length (items current)))))
            (LOG_N_SQUARED g) in
    let r := f_of_Z 0 in
    let new_intensity := f_add (f_log (f_add (f_of_Z 1) r)) real_intensity in
    Some s)
    s.

End SamplerInvariants.

(** The batch of [Scenario] after the birth of an item of type 0 at (3, 1). *)
Module ScenarioAfter.
Import Scenario.

Definition after_birth : sampler_state (rng_state := Z) :=
  mk_sampler_state 2009854435
    (<[0%nat := mk_patch [ mk_item 0 (mk_position 3 3) 0 0;
                           mk_item 0 (mk_position 3 1) 0 0 ] false]>
       sparse_store).

End ScenarioAfter.

(* ===================================================================== *)
(** * simulator.cpp: more of the Python binding                           *)
(* ===================================================================== *)

(** Python lists as the C API builds them.  [PyList_New(len)] makes a list of
    [len] slots that hold NULL until an item is stored; [PyList_SetItem(list,
    index, item)] stores [item] in the slot [index] and, for an index outside
    the list, sets [IndexError] and leaves the list as it is
    ([PyList_SetItem_fails]).  The binding never looks at what
    [PyList_SetItem] returns, so after a failed call it goes on with the
    error pending. *)
Definition PyList_New {A} (len : Z) : list (option A) :=
  replicate (Z.to_nat len) None.

Definition PyList_SetItem {A} (py_list : list (option A)) (index : Z) (item : A)
    : list (option A) :=
  if (0 <=? index) && (index <? Z.of_nat (length py_list)) then
    <[Z.to_nat index := Some item]> py_list
  else py_list.

Definition PyList_SetItem_fails {A} (py_list : list (option A)) (index : Z) : bool :=
  negb ((0 <=? index) && (index <? Z.of_nat (length py_list))).

(** [core::array<T>::index_of(element)] ([core/array.h]): the index of the
    first element equal to [element], or [length] when there is none. *)
Fixpoint index_of (a : list Z) (element : Z) : nat :=
  match a with
  | [] => 0
  | x :: rest => if decide (x = element) then 0%nat else S (index_of rest element)
  end.

Section PythonBindingMore.
Context {simulator_state server_state agent_state simulator_config : Type}.
Context {py_callback py_agent : Type}.
Variable get_agent_state : simulator_state → Z → option agent_state.
Variable build_py_agent : agent_state → simulator_config → Z → py_agent.

Local Abbreviation simulator := (@simulator simulator_state server_state py_callback).

(** The Python objects that the lists below hold: the tuple of an agent
    ([build_py_agent]) and an integer ([PyLong_FromUnsignedLongLong]). *)
Inductive py_object :=
  | Py_agent_tuple (agent : py_agent)
  | Py_long (value : Z).

(** [simulator_reconnect_client], from the answer of [reconnect_client]
    ([mpi.h]) on: the time, or [UINT64_MAX] on failure, and the arrays
    [agent_ids], [agent_states], [semaphore_ids] with their counts.  The
    result is the tuple [(simulator_time, client, py_states,
    py_semaphore_ids)], of which the two lists are kept here.  The second
    loop is as the source has it: it stores into [py_states].  [error] says
    whether a call of [PyList_SetItem] has set [IndexError]: the function
    then still returns its tuple, and the interpreter, handed a result with
    an error pending, raises [SystemError] in its place. *)
Definition simulator_reconnect_client (callbacks_callable : bool)
    (simulator_time : Z) (config : simulator_config)
    (agent_ids : list Z) (agent_states : list agent_state) (agent_count : Z)
    (semaphore_ids : list Z) (semaphore_count : Z)
    : option (py_return (Z * list (option py_object) * list (option py_object))) :=
  if negb callbacks_callable then Some Py_exception
  else if decide (simulator_time = 2 ^ 64 - 1) then Some Py_exception
  else
    let py_states := PyList_New agent_count in
    '(py_states, error) ←
      for_range 0 agent_count (fun i '(py_states, error) =>
          state ← array_get agent_states i;
          id ← array_get agent_ids i;
          Some (PyList_SetItem py_states i
                  (Py_agent_tuple (build_py_agent state config id)),
                error || PyList_SetItem_fails py_states i))
        (py_states, false);
    let py_semaphore_ids := PyList_New semaphore_count in
    '(py_states, error) ←
      for_range 0 semaphore_count (fun i '(py_states, error) =>
          id ← array_get semaphore_ids i;
          Some (PyList_SetItem py_states i (Py_long id),
                error || PyList_SetItem_fails py_states i))
        (py_states, error);
    if error : bool then Some Py_exception
    else Some (Py_value (simulator_time, py_states, py_semaphore_ids)).

(** [simulator_get_x_coordinates]: with [py_client_handle == Py_None] the
    list, parallel to the ids, of [PyLong_FromUnsignedLongLong(
    agent_states[i]->current_position.x)], or [None] for a null state;
    through a client the function returns NULL. *)
Definition simulator_get_x_coordinates
    (current_position : agent_state → position)
    (sim_handle : simulator) (local : bool) (agent_ids : list Z)
    : py_return (list (option Z)) :=
  let agent_count := length agent_ids in
  if local then
    let agent_states :=
      get_agent_states get_agent_state (sim sim_handle) agent_ids agent_count in
    Py_value
      (map (λ state : option agent_state,
              (λ a, wrap64 (px (current_position a))) <$> state)
         agent_states)
  else Py_exception.

(** The local branch of [simulator_remove_agent] (and, with the semaphore
    ids, of [simulator_remove_semaphore]): [remove] is the simulator's own
    [remove_agent], and on [status::OK] the id is taken out of the list of
    owned ids.  The result is the Python boolean and the list of owned ids
    afterwards. *)
Definition remove_owned_id (ids : list Z) (id : Z) : option (list Z) :=
  let index := wrap32 (Z.of_nat (index_of ids id)) in
  if decide (index ≠ Z.of_nat (length ids)) then array_remove ids (Z.to_nat index)
  else Some ids.

Definition simulator_remove_agent_local
    (remove : simulator_state → Z → status * simulator_state)
    (sim_handle : simulator) (agent_id : Z) : option (bool * simulator) :=
  let '(result, s) := remove (sim sim_handle) agent_id in
  let data := data sim_handle in
  if decide (result = OK) then
    agent_ids ← remove_owned_id (agent_ids data) agent_id;
    Some (true,
          mk_simulator s
            (mk_py_simulator_data (server data) (callback data) agent_ids
               (semaphore_ids data)))
  else Some (false, mk_simulator s data).

End PythonBindingMore.

(* ===================================================================== *)
(** * gibbs_field.h: when the sampler has a defined result                *)
(* ===================================================================== *)

Section SamplerSafety.
Context {float : Type} {H : FloatOps float}.
Context {rng_state : Type} {R : RNGType rng_state}.
Variable NDEBUG : bool.

Local Abbreviation gibbs_field := (@gibbs_field float).
Local Abbreviation item_properties := (@item_properties float).







End SamplerSafety.

(* ===================================================================== *)
(** * simulator.cpp: the map handed to Python                             *)
(* ===================================================================== *)

(** A range-based [for] over an array, with a body that can go wrong. *)
Fixpoint for_each {A S} (body : S → A → option S) (array : list A) (s : S)
    : option S :=
  match array with
  | [] => Some s
  | a :: rest => s ← body s a; for_each body rest s
  end.

Section PythonMap.
Context {float : Type}.

(** [patch_state] ([simulator.h]), as far as [build_py_map] reads it:
    [items] with [item_count] its length, [agent_positions] and
    [agent_directions] with [agent_count] their length, and [scent] and
    [vision], each null or an array of floats. *)
Record patch_state := mk_patch_state {
  patch_position : position;
  patch_fixed : bool;
  patch_scent : option (list float);
  patch_vision : option (list float);
  patch_items : list (Z * position);
  agent_positions : list position;
  agent_directions : list Z;
}.

(** The tuple [((x, y), fixed, scent, vision, items, agents)] of a patch;
    [None] for [scent] or [vision] is Python's None, a [None] in [items] or
    [agents] is a slot that still holds NULL. *)
Record py_patch := mk_py_patch {
  py_patch_position : position;
  py_fixed : bool;
  py_scent : option (list float);
  py_vision : option (list float);
  py_items : list (option (Z * position));
  py_agents : list (option (position * Z));
}.

(** [memcpy(dst, src, sizeof(float) * count)] into a fresh array. *)
Definition memcpy_floats (src : list float) (count : Z) : option (list float) :=
  if (0 <=? count) && (count <=? Z.of_nat (length src)) then
    Some (take (Z.to_nat count) src)
  else None.

(** The body of the inner loop of [build_py_map] up to [Py_BuildValue]. *)
Definition build_py_patch (patch : patch_state)
    (patch_size scent_dimension color_dimension : Z) : option py_patch :=
  let item_count := Z.of_nat (length (patch_items patch)) in
  let py_items := PyList_New item_count in
  py_items ←
    for_range 0 item_count (fun i py_items =>
        it ← array_get (patch_items patch) i;
        Some (PyList_SetItem py_items i it))
      py_items;
  let agent_count := Z.of_nat (length (agent_positions patch)) in
  let py_agents := PyList_New agent_count in
  py_agents ←
    for_range 0 agent_count (fun i py_agents =>
        pos ← array_get (agent_positions patch) i;
        dir ← array_get (agent_directions patch) i;
        Some (PyList_SetItem py_agents i (pos, dir)))
      py_agents;
  let n := patch_size in
  scent ← match patch_scent patch with
          | None => Some None
          | Some src => Some <$> memcpy_floats src (n * n * scent_dimension)
          end;
  vision ← match patch_vision patch with
           | None => Some None
           | Some src => Some <$> memcpy_floats src (n * n * color_dimension)
           end;
  Some (mk_py_patch (patch_position patch) (patch_fixed patch) scent vision
          py_items py_agents).

(** [build_py_map]: [patch_count] and [index] are [unsigned int]. *)
Definition build_py_map (patches : list (list patch_state))
    (patch_size scent_dimension color_dimension : Z)
    : option (list (option py_patch)) :=
  let patch_count :=
    fold_left (λ patch_count row, wrap32 (patch_count + Z.of_nat (length row)))
      patches 0 in
  let index := 0 in
  let py_list := PyList_New patch_count in
  snd <$>
    for_each (λ state row,
                for_each (λ '(index, py_list) patch,
                            py_patch ← build_py_patch patch patch_size
                                         scent_dimension color_dimension;
                            Some (wrap32 (index + 1),
                                  PyList_SetItem py_list index py_patch))
                  row state)
      patches (index, py_list).

(** The tuple that stands for a patch in the list. *)
Definition py_patch_of (patch : patch_state)
    (patch_size scent_dimension color_dimension : Z) : py_patch :=
  mk_py_patch (patch_position patch) (patch_fixed patch)
    (take (Z.to_nat (patch_size * patch_size * scent_dimension))
       <$> patch_scent patch)
    (take (Z.to_nat (patch_size * patch_size * color_dimension))
       <$> patch_vision patch)
    (Some <$> patch_items patch)
    (Some <$> zip (agent_positions patch) (agent_directions patch)).

(** A patch whose arrays are as long as [build_py_map] takes them to be. *)
Definition patch_state_wf (patch_size scent_dimension color_dimension : Z)
    (patch : patch_state) : Prop :=
  length (agent_directions patch) = length (agent_positions patch)
  ∧ (∀ src, patch_scent patch = Some src →
       0 ≤ patch_size * patch_size * scent_dimension ≤ Z.of_nat (length src))
  ∧ (∀ src, patch_vision patch = Some src →
       0 ≤ patch_size * patch_size * color_dimension ≤ Z.of_nat (length src)).

End PythonMap.

(* ===================================================================== *)
(** * simulator.cpp: concat                                               *)
(* ===================================================================== *)

Module c_string.

(** [strlen]: the number of bytes before the first NUL of the array; the
    behaviour is undefined when the array holds no NUL. *)
Fixpoint strlen (s : list byte) : option Z :=
  match s with
  | [] => None
  | c :: rest => if Byte.eqb c x00 then Some 0 else Z.succ <$> strlen rest
  end.

(** [concat(first, second)]; allocation is taken to succeed.  The counters
    [i] and [j] are [unsigned int] and the lengths are [size_t]: for a length
    of [2^32] or more the loop does not end, and there is no result. *)
Definition concat (first second : list byte) : option (list (option byte)) :=
  first_length ← strlen first;
  second_length ← strlen second;
  if decide (2 ^ 32 ≤ first_length ∨ 2 ^ 32 ≤ second_length) then None
  else
    let buf := replicate (Z.to_nat (first_length + second_length + 1)) None in
    buf ← for_range 0 first_length (fun i buf =>
              c ← array_get first i;
              array_set buf i (Some c))
            buf;
    buf ← for_range 0 second_length (fun j buf =>
              c ← array_get second j;
              array_set buf (first_length + j) (Some c))
            buf;
    array_set buf (first_length + second_length) (Some x00).

End c_string.

(* ===================================================================== *)
(** * Concrete maps and strings                                           *)
(* ===================================================================== *)

(** Two rows of patches, with floats taken to be integers: a patch with one
    item, an agent and a scent array, and a row of two empty patches. *)
Definition busy_patch : patch_state (float := Z) :=
  mk_patch_state (mk_position 0 0) true (Some [1; 2; 3; 4; 5]) None
    [(2, mk_position 1 1)] [mk_position 0 1] [3].

Definition empty_patch (x : Z) : patch_state (float := Z) :=
  mk_patch_state (mk_position x 1) false None None [] [] [].

(** The bytes of the C strings [ab] and [c], each in a longer buffer. *)
Definition text_ab : list byte := [x61; x62; x00; x7a].
Definition text_c : list byte := [x63; x00].

(* ===================================================================== *)
(** * Facts about the energy functions                                    *)
(* ===================================================================== *)

Section EnergyFacts.
Context {float : Type} {H : FloatOps float}.

Lemma position_eqb_eq (a b : position) : position_eqb a b = true ↔ a = b.
Proof.
  destruct a as [ax ay], b as [bx b_y]; unfold position_eqb; simpl.
  rewrite andb_true_iff, !Z.eqb_eq. split.
  - intros [-> ->]; reflexivity.
  - intros [= -> ->]; auto.
Qed.

Lemma position_eqb_refl (a : position) : position_eqb a a = true.
Proof. apply position_eqb_eq; reflexivity. Qed.

Lemma position_sub_shift (p1 p2 d : position) :
  position_sub (position_add p1 d) (position_add p2 d) = position_sub p1 p2.
Proof. unfold position_sub, position_add; simpl; f_equal; lia. Qed.

Lemma zero_displacement_only : displacement_only zero_interaction_fn.
Proof. intros p1 p2 d args; reflexivity. Qed.

Lemma piecewise_box_displacement_only : displacement_only piecewise_box_interaction_fn.
Proof.
  intros p1 p2 d args; simpl; unfold piecewise_box_interaction.
  rewrite position_sub_shift; reflexivity.
Qed.

Lemma cross_displacement_only : displacement_only cross_interaction_fn.
Proof.
  intros p1 p2 d args; simpl; unfold cross_interaction.
  rewrite position_sub_shift; reflexivity.
Qed.

Lemma moore_displacement_only : displacement_only moore_interaction_fn.
Proof.
  intros p1 p2 d args; simpl; unfold moore_interaction.
  rewrite position_sub_shift; reflexivity.
Qed.

Lemma four_displacement_only : displacement_only four_interaction_fn.
Proof.
  intros p1 p2 d args; simpl; unfold four_interaction.
  rewrite position_sub_shift; reflexivity.
Qed.

Lemma gaussian_displacement_only : displacement_only gaussian_interaction_fn.
Proof.
  intros p1 p2 d args; simpl; unfold gaussian_interaction.
  rewrite position_sub_shift; reflexivity.
Qed.

(** What [is_stationary] accepts is displacement-only. *)
Lemma is_stationary_sound (f : interaction_function) :
  is_stationary f = true → displacement_only f.
Proof.
  destruct f; simpl; intros Hs; try discriminate Hs.
  - apply zero_displacement_only.
  - apply piecewise_box_displacement_only.
  - apply cross_displacement_only.
  - apply moore_displacement_only.
Qed.

(** C5.  [is_stationary] answers [false] for FOUR and for GAUSSIAN, and both
    depend on the displacement of their two positions only: the
    classification is not "true exactly for the displacement-only
    functions". *)
Theorem is_stationary_misses_four_and_gaussian :
  (is_stationary four_interaction_fn = false
   ∧ displacement_only four_interaction_fn)
  ∧ (is_stationary gaussian_interaction_fn = false
     ∧ displacement_only gaussian_interaction_fn).
Proof.
  repeat split.
  - apply four_displacement_only.
  - apply gaussian_displacement_only.
Qed.

(** C4.  [custom_regeneration_fn] reads [args[time]] as it is: for a tick at
    or past the end of the array there is no bounds check and no value, in
    particular not the value 0. *)
Theorem custom_regeneration_fn_unchecked (pos : position) (time : Z)
    (args : list float) :
  Z.of_nat (length args) ≤ time →
  call_regeneration custom_regeneration_fn pos time args = None
  ∧ call_regeneration custom_regeneration_fn pos time args ≠ Some f_zero.
Proof.
  intros Hlen; simpl; unfold custom_regeneration, arg.
  assert (Hnone : args !! Z.to_nat time = None).
  { apply lookup_ge_None. lia. }
  rewrite Hnone; split; [reflexivity | discriminate].
Qed.

Lemma arity_exactly (k num_args : nat) :
  arity_ok (Exactly k) num_args = false ↔ num_args ≠ k.
Proof. simpl; rewrite bool_decide_eq_false; reflexivity. Qed.

Lemma get_intensity_fn_type_inj (f f' : intensity_function) :
  get_intensity_fn_type f = get_intensity_fn_type f' → f = f'.
Proof. destruct f, f'; simpl; intros E; try reflexivity; discriminate E. Qed.

Lemma get_interaction_fn_type_inj (f f' : interaction_function) :
  get_interaction_fn_type f = get_interaction_fn_type f' → f = f'.
Proof. destruct f, f'; simpl; intros E; try reflexivity; discriminate E. Qed.

Lemma get_regeneration_fn_type_inj (f f' : regeneration_function) :
  get_regeneration_fn_type f = get_regeneration_fn_type f' → f = f'.
Proof. destruct f, f'; simpl; intros E; try reflexivity; discriminate E. Qed.

Ltac registry_cases :=
  repeat (case_decide; subst; simpl in * );
  try discriminate; try done; try lia.

Lemma get_intensity_fn_null (type : N) (args : list float) (num_args : nat) :
  get_intensity_fn type args num_args = None
  ↔ spec_valid (spec_intensity_arity type) num_args = false.
Proof.
  unfold get_intensity_fn, spec_intensity_arity, spec_valid, arity_ok.
  split; intros Hn; registry_cases;
    repeat (case_bool_decide; try done; try lia).
Qed.

Lemma get_interaction_fn_null (type : N) (args : list float) (num_args : nat) :
  get_interaction_fn type args num_args = None
  ↔ spec_valid (spec_interaction_arity type) num_args = false.
Proof.
  unfold get_interaction_fn, spec_interaction_arity, spec_valid, arity_ok.
  split; intros Hn; registry_cases;
    repeat (case_bool_decide; try done; try lia).
Qed.

Lemma get_regeneration_fn_null (type : N) (args : list float) (num_args : nat) :
  get_regeneration_fn type args num_args = None
  ↔ spec_valid (spec_regeneration_arity type) num_args = false.
Proof.
  unfold get_regeneration_fn, spec_regeneration_arity, spec_valid, arity_ok.
  split; intros Hn; registry_cases;
    repeat (case_bool_decide; try done; try lia).
Qed.

Lemma get_intensity_fn_tag type (args : list float) num_args f :
  get_intensity_fn type args num_args = Some f → get_intensity_fn_type f = type.
Proof. unfold get_intensity_fn; intros Hf; registry_cases; by simplify_eq. Qed.

Lemma get_interaction_fn_tag type (args : list float) num_args f :
  get_interaction_fn type args num_args = Some f → get_interaction_fn_type f = type.
Proof. unfold get_interaction_fn; intros Hf; registry_cases; by simplify_eq. Qed.

Lemma get_regeneration_fn_tag type (args : list float) num_args f :
  get_regeneration_fn type args num_args = Some f → get_regeneration_fn_type f = type.
Proof. unfold get_regeneration_fn; intros Hf; registry_cases; by simplify_eq. Qed.

(** C6.  For every tag and every argument count, each of [get_intensity_fn],
    [get_interaction_fn] and [get_regeneration_fn] returns NULL exactly when
    the tag is unknown or the count does not fit the tag's arity; any
    function it returns is the one whose tag is the requested tag, and no
    two functions share a tag. *)
Theorem get_fn_null_iff_invalid (type : N) (args : list float) (num_args : nat) :
  (get_intensity_fn type args num_args = None
     ↔ spec_valid (spec_intensity_arity type) num_args = false)
  ∧ (get_interaction_fn type args num_args = None
     ↔ spec_valid (spec_interaction_arity type) num_args = false)
  ∧ (get_regeneration_fn type args num_args = None
     ↔ spec_valid (spec_regeneration_arity type) num_args = false)
  ∧ (∀ f, get_intensity_fn type args num_args = Some f →
          get_intensity_fn_type f = type
          ∧ ∀ f', get_intensity_fn_type f' = type → f' = f)
  ∧ (∀ f, get_interaction_fn type args num_args = Some f →
          get_interaction_fn_type f = type
          ∧ ∀ f', get_interaction_fn_type f' = type → f' = f)
  ∧ (∀ f, get_regeneration_fn type args num_args = Some f →
          get_regeneration_fn_type f = type
          ∧ ∀ f', get_regeneration_fn_type f' = type → f' = f).
Proof.
  split; [apply get_intensity_fn_null |].
  split; [apply get_interaction_fn_null |].
  split; [apply get_regeneration_fn_null |].
  split; [| split]; intros f Hf.
  - pose proof (get_intensity_fn_tag _ _ _ _ Hf) as Ht. split; [exact Ht |].
    intros f' Hf'. apply get_intensity_fn_type_inj. congruence.
  - pose proof (get_interaction_fn_tag _ _ _ _ Hf) as Ht. split; [exact Ht |].
    intros f' Hf'. apply get_interaction_fn_type_inj. congruence.
  - pose proof (get_regeneration_fn_tag _ _ _ _ Hf) as Ht. split; [exact Ht |].
    intros f' Hf'. apply get_regeneration_fn_type_inj. congruence.
Qed.

End EnergyFacts.

(* ===================================================================== *)
(** * Facts about loops and arrays                                        *)
(* ===================================================================== *)

Section LoopFacts.
Context {S : Type}.

Lemma for_up_inv (P : Z → S → Prop) (body : Z → S → option S) :
  ∀ (count : nat) (lo : Z) (s s' : S),
    P lo s →
    (∀ i t t', lo ≤ i < lo + Z.of_nat count → P i t → body i t = Some t' → P (i + 1) t') →
    for_up count lo body s = Some s' →
    P (lo + Z.of_nat count) s'.
Proof.
  induction count as [| count IH]; intros lo s s' H0 Hstep Hrun; simpl in Hrun.
  - injection Hrun as <-. replace (lo + Z.of_nat 0) with lo by lia. exact H0.
  - destruct (body lo s) as [s1 |] eqn:Hb; simpl in Hrun; [| discriminate].
    replace (lo + Z.of_nat (Datatypes.S count)) with ((lo + 1) + Z.of_nat count) by lia.
    apply (IH (lo + 1) s1 s'); [| | exact Hrun].
    + apply (Hstep lo s s1); [lia | exact H0 | exact Hb].
    + intros i t t' Hi. apply Hstep. lia.
Qed.

Lemma for_range_inv (P : Z → S → Prop) (body : Z → S → option S)
    (lo hi : Z) (s s' : S) :
  lo ≤ hi →
  P lo s →
  (∀ i t t', lo ≤ i < hi → P i t → body i t = Some t' → P (i + 1) t') →
  for_range lo hi body s = Some s' →
  P hi s'.
Proof.
  intros Hle H0 Hstep Hrun. unfold for_range in Hrun.
  replace hi with (lo + Z.of_nat (Z.to_nat (hi - lo))) by lia.
  eapply for_up_inv; [exact H0 | | exact Hrun].
  intros i t t' Hi. apply Hstep. lia.
Qed.

End LoopFacts.

Lemma wrap32_small (z : Z) : 0 ≤ z < 2 ^ 32 → wrap32 z = z.
Proof. intros Hz. unfold wrap32. apply Z.mod_small. exact Hz. Qed.

Lemma array_get_Some {A} (a : list A) (i : Z) (v : A) :
  array_get a i = Some v ↔ 0 ≤ i ∧ a !! Z.to_nat i = Some v.
Proof.
  unfold array_get. destruct (Z.ltb_spec i 0); split.
  - discriminate.
  - intros [? _]; lia.
  - auto.
  - intros [_ E]; exact E.
Qed.

Lemma array_set_Some {A} (a a' : list A) (i : Z) (v : A) :
  array_set a i v = Some a' →
  0 ≤ i < Z.of_nat (length a) ∧ a' = <[Z.to_nat i := v]> a.
Proof.
  unfold array_set.
  destruct (Z.leb_spec 0 i), (Z.ltb_spec i (Z.of_nat (length a))); simpl;
    intros E; try discriminate E.
  injection E as <-. split; [lia | reflexivity].
Qed.

Lemma cell_index_inj (w x y x' y' : Z) :
  0 ≤ y < w → 0 ≤ y' < w → 0 ≤ x → 0 ≤ x' →
  x * w + y = x' * w + y' → x = x' ∧ y = y'.
Proof. intros. assert (x = x') by nia. subst. split; [reflexivity | lia]. Qed.

Lemma cell_index_bound (w x y : Z) :
  0 ≤ x < w → 0 ≤ y < w → 0 ≤ x * w + y < w * w.
Proof. intros. nia. Qed.

(* ===================================================================== *)
(** * Facts about the cache                                               *)
(* ===================================================================== *)

Section CacheFacts.
Context {float : Type} {H : FloatOps float}.
Variable NDEBUG : bool.

Local Abbreviation gibbs_field_cache := (@gibbs_field_cache float).

(** After the two loops every cell [(x, y)] of the table holds [table_cell]. *)
Lemma fill_table_cells (f : interaction_function) (args : list float)
    (two_n four_n : Z) (table0 table : list (option float)) :
  0 ≤ four_n → four_n * four_n ≤ 2 ^ 32 →
  fill_table f args two_n four_n table0 = Some table →
  length table = length table0
  ∧ ∀ x y, 0 ≤ x < four_n → 0 ≤ y < four_n →
      ∃ v, table !! Z.to_nat (x * four_n + y) = Some (Some v)
           ∧ table_cell f args two_n x y = Some v.
Proof.
  intros Hn Hsq Hfill. unfold fill_table in Hfill.
  set (done_before (x y x' y' : Z) := x' < x ∨ (x' = x ∧ y' < y)).
  set (cells (x y : Z) (t : list (option float)) :=
         length t = length table0
         ∧ ∀ x' y', 0 ≤ x' < four_n → 0 ≤ y' < four_n → done_before x y x' y' →
             ∃ v, t !! Z.to_nat (x' * four_n + y') = Some (Some v)
                  ∧ table_cell f args two_n x' y' = Some v).
  assert (Hend : cells four_n 0 table).
  { revert Hfill.
    apply (for_range_inv (λ x t, cells x 0 t)); [exact Hn | |].
    - split; [reflexivity |]. intros x' y' Hx' Hy' [Hlt | [_ Hlt]]; lia.
    - intros x t t' Hx Hinv Hrow.
      assert (Hrow_end : cells x four_n t').
      { revert Hrow.
        apply (for_range_inv (λ y t, cells x y t)); [exact Hn | exact Hinv |].
        clear t t' Hinv. intros y t t' Hy [Hlen Hinv] Hbody.
        destruct (if (x =? two_n) && (y =? two_n) then Some f_zero
                  else call_interaction f (mk_position two_n two_n)
                         (mk_position x y) args) as [value |] eqn:Hval;
          simpl in Hbody; [| discriminate].
        assert (Hidx : wrap32 (wrap32 (x * four_n) + y) = x * four_n + y).
        { pose proof (cell_index_bound four_n x y Hx Hy).
          rewrite (wrap32_small (x * four_n)) by nia.
          apply wrap32_small. lia. }
        rewrite Hidx in Hbody.
        apply array_set_Some in Hbody as [Hin ->].
        split; [rewrite length_insert; exact Hlen |].
        intros x' y' Hx' Hy' Hdone.
        destruct (decide (x' = x ∧ y' = y)) as [[-> ->] | Hne].
        + exists value. split; [| exact Hval].
          apply list_lookup_insert_eq. lia.
        + destruct (Hinv x' y' Hx' Hy') as [v [Hl Hv]].
          { unfold done_before in *. lia. }
          exists v. split; [| exact Hv].
          rewrite list_lookup_insert_ne; [exact Hl |].
          intros Heq. apply Hne.
          pose proof (cell_index_bound four_n x y Hx Hy).
          pose proof (cell_index_bound four_n x' y' Hx' Hy').
          apply (cell_index_inj four_n); lia. }
      destruct Hrow_end as [Hlen Hinv']. split; [exact Hlen |].
      intros x' y' Hx' Hy' Hdone. apply Hinv'; [exact Hx' | exact Hy' |].
      unfold done_before in *. lia. }
  destruct Hend as [Hlen Hcells]. split; [exact Hlen |].
  intros x y Hx Hy. apply Hcells; [exact Hx | exact Hy |].
  unfold done_before. lia.
Qed.

Lemma same_config_refl (c : gibbs_field_cache) : same_config c c.
Proof. repeat split. Qed.

Lemma same_config_set_intensities (c0 c : gibbs_field_cache) v :
  same_config c0 c → same_config c0 (set_intensities c v).
Proof. intros (? & ? & ? & ?). repeat split; assumption. Qed.

Lemma same_config_set_regenerations (c0 c : gibbs_field_cache) v :
  same_config c0 c → same_config c0 (set_regenerations c v).
Proof. intros (? & ? & ? & ?). repeat split; assumption. Qed.

Lemma same_config_set_interactions (c0 c : gibbs_field_cache) v :
  same_config c0 c → same_config c0 (set_interactions c v).
Proof. intros (? & ? & ? & ?). repeat split; assumption. Qed.

Lemma init_helper_tables (c0 c : gibbs_field_cache) (n : Z) :
  0 ≤ item_type_count c0 →
  item_type_count c0 * item_type_count c0 < 2 ^ 32 →
  init_helper c0 n = Some c →
  same_config c0 c
  ∧ ∀ i j, 0 ≤ i < item_type_count c0 → 0 ≤ j < item_type_count c0 →
      entry_ok c0 c i j.
Proof.
  intros Hcount Hsq Hinit. unfold init_helper in Hinit.
  set (count := item_type_count c0) in *.
  set (done_before (i j i' j' : Z) := i' < i ∨ (i' = i ∧ j' < j)).
  set (inv (i j : Z) (c : gibbs_field_cache) :=
         same_config c0 c
         ∧ length (interactions c) = Z.to_nat (count * count)
         ∧ ∀ i' j', 0 ≤ i' < count → 0 ≤ j' < count → done_before i j i' j' →
             entry_ok c0 c i' j').
  assert (Hend : inv count 0 c).
  { revert Hinit.
    apply (for_range_inv (λ i c, inv i 0 c)); [exact Hcount | |].
    - split; [repeat split |]. split.
      + simpl. rewrite length_replicate. rewrite wrap32_small by lia. reflexivity.
      + intros i' j' Hi' Hj' [Hlt | [_ Hlt]]; lia.
    - intros i c1 c4 Hi (Hcfg & Hlen & Hinv) Hbody.
      assert (Hty : item_types c1 = item_types c0) by apply Hcfg.
      rewrite Hty in Hbody.
      destruct (array_get (item_types c0) i) as [it |] eqn:Hit;
        simpl in Hbody; [| discriminate].
      (* the intensity of item type i *)
      match type of Hbody with
      | (?m ≫= _) = _ => destruct m as [c2 |] eqn:Hc2
      end; simpl in Hbody; [| discriminate].
      assert (H2 : same_config c0 c2 ∧ interactions c2 = interactions c1).
      { destruct (is_stationary_intensity (fn (intensity_fn it))).
        - destruct (call_intensity _ _ _) as [v |]; simpl in Hc2; [| discriminate].
          destruct (array_set (intensities c1) i (Some v)) as [a |];
            simpl in Hc2; [| discriminate].
          injection Hc2 as <-. split; [| reflexivity].
          by apply same_config_set_intensities.
        - injection Hc2 as <-. split; [exact Hcfg | reflexivity]. }
      destruct H2 as [Hcfg2 Hint2].
      (* the regeneration of item type i *)
      match type of Hbody with
      | (?m ≫= _) = _ => destruct m as [c3 |] eqn:Hc3
      end; simpl in Hbody; [| discriminate].
      assert (H3 : same_config c0 c3 ∧ interactions c3 = interactions c1).
      { destruct (is_stationary_regeneration _ && is_time_independent _).
        - destruct (call_regeneration _ _ _ _) as [v |]; simpl in Hc3; [| discriminate].
          destruct (array_set (regenerations c2) i (Some v)) as [a |];
            simpl in Hc3; [| discriminate].
          injection Hc3 as <-. split; [| exact Hint2].
          by apply same_config_set_regenerations.
        - injection Hc3 as <-. split; [exact Hcfg2 | exact Hint2]. }
      destruct H3 as [Hcfg3 Hint3].
      (* the tables of the pairs (i, j) *)
      assert (Hrow : inv i count c4).
      { revert Hbody.
        apply (for_range_inv (λ j c, inv i j c)); [exact Hcount | |].
        - split; [exact Hcfg3 |]. rewrite Hint3. split; [exact Hlen |].
          intros i' j' Hi' Hj' Hdone.
          destruct (Hinv i' j' Hi' Hj' Hdone) as (it' & ef' & E1 & E2 & E3).
          exists it', ef'. rewrite Hint3. auto.
        - clear c1 c2 c3 Hcfg Hlen Hinv Hc2 Hc3 Hcfg2 Hint2 Hcfg3 Hint3 Hty.
          intros j c1 c2 Hj (Hcfg & Hlen & Hinv) Hstep.
          destruct (array_get (interaction_fns it) j) as [ef |] eqn:Hef;
            simpl in Hstep; [| discriminate].
          assert (Hidx : wrap32 (wrap32 (i * count) + j) = i * count + j).
          { pose proof (cell_index_bound count i j Hi Hj).
            rewrite (wrap32_small (i * count)) by nia.
            apply wrap32_small. lia. }
          rewrite Hidx in Hstep.
          pose proof (cell_index_bound count i j Hi Hj) as Hij.
          assert (Hkeep : ∀ v a,
                    array_set (interactions c1) (i * count + j) v = Some a →
                    inv i j (set_interactions c1 a)
                    ∧ a !! Z.to_nat (i * count + j) = Some v).
          { intros v a Ha. apply array_set_Some in Ha as [Hin ->].
            split; [split; [by apply same_config_set_interactions |] |].
            - split; [simpl; rewrite length_insert; exact Hlen |].
              intros i' j' Hi' Hj' Hdone.
              destruct (Hinv i' j' Hi' Hj' Hdone) as (it' & ef' & E1 & E2 & E3).
              exists it', ef'. split; [exact E1 |]. split; [exact E2 |].
              intros Hc. destruct (E3 Hc) as (table & Ht & Hf).
              exists table. split; [| exact Hf]. simpl.
              rewrite list_lookup_insert_ne; [exact Ht |].
              pose proof (cell_index_bound count i' j' Hi' Hj').
              intros Heq.
              assert (i = i' ∧ j = j') as [-> ->]
                by (apply (cell_index_inj count); fold count in Heq; lia).
              unfold done_before in Hdone. lia.
            - apply list_lookup_insert_eq. lia. }
          assert (Hext : ∀ c', inv i j c' →
                    (cacheable (fn ef) = true →
                     ∃ table,
                       interactions c' !! Z.to_nat (i * count + j) = Some (Some table)
                       ∧ fill_table (fn ef) (args ef) (two_n c0) (four_n c0)
                           (replicate (Z.to_nat (four_n c0 * four_n c0)) None)
                         = Some table) →
                    inv i (j + 1) c').
          { intros c' (Hcfg' & Hlen' & Hinv') Hnew.
            split; [exact Hcfg' |]. split; [exact Hlen' |].
            intros i' j' Hi' Hj' Hdone.
            destruct (decide (i' = i ∧ j' = j)) as [[-> ->] | Hne].
            - exists it, ef. split; [exact Hit |]. split; [exact Hef |]. exact Hnew.
            - apply Hinv'; [exact Hi' | exact Hj' |].
              unfold done_before in *. lia. }
          assert (Htwo : two_n c1 = two_n c0) by apply Hcfg.
          assert (Hfour : four_n c1 = four_n c0) by apply Hcfg.
          rewrite Htwo, Hfour in Hstep.
          destruct (negb (is_constant (fn ef)) && is_stationary (fn ef)) eqn:Hc.
          + destruct (fill_table _ _ _ _ _) as [table |] eqn:Hfill;
              simpl in Hstep; [| discriminate].
            destruct (array_set (interactions c1) (i * count + j) (Some table))
              as [a |] eqn:Ha; simpl in Hstep; [| discriminate].
            injection Hstep as <-.
            destruct (Hkeep _ _ Ha) as [Hinv1 Hget].
            apply Hext; [exact Hinv1 |].
            intros _. exists table. split; [exact Hget | reflexivity].
          + destruct (array_set (interactions c1) (i * count + j) None)
              as [a |] eqn:Ha; simpl in Hstep; [| discriminate].
            injection Hstep as <-.
            destruct (Hkeep _ _ Ha) as [Hinv1 Hget].
            apply Hext; [exact Hinv1 |].
            unfold cacheable. rewrite Hc. discriminate. }
      destruct Hrow as (Hcfg4 & Hlen4 & Hinv4).
      split; [exact Hcfg4 |]. split; [exact Hlen4 |].
      intros i' j' Hi' Hj' Hdone. apply Hinv4; [exact Hi' | exact Hj' |].
      unfold done_before in *. lia. }
  destruct Hend as (Hcfg & _ & Hinv). split; [exact Hcfg |].
  intros i j Hi Hj. apply Hinv; [exact Hi | exact Hj |].
  unfold done_before. lia.
Qed.

Lemma squared_length_sub_sym (p1 p2 : position) :
  squared_length (position_sub p1 p2) = squared_length (position_sub p2 p1).
Proof. unfold squared_length, position_sub; simpl. ring. Qed.

(** The functions that [is_stationary] accepts are even: exchanging the two
    positions does not change the value. *)
Lemma is_stationary_symmetric (f : interaction_function) (p1 p2 : position)
    (args : list float) :
  is_stationary f = true →
  call_interaction f p1 p2 args = call_interaction f p2 p1 args.
Proof.
  assert (Habs : ∀ a b : Z, Z.abs (a - b) = Z.abs (b - a)) by (intros; lia).
  assert (Hz : ∀ a b : Z, (a - b =? 0) = (b - a =? 0)).
  { intros a b. destruct (Z.eqb_spec (a - b) 0), (Z.eqb_spec (b - a) 0); lia. }
  destruct f; simpl; intros Hs; try discriminate Hs.
  - reflexivity.
  - unfold piecewise_box_interaction.
    rewrite (squared_length_sub_sym p1 p2). reflexivity.
  - unfold cross_interaction, position_sub; simpl.
    rewrite (Habs (px p1)), (Habs (py p1)), (Hz (px p1)), (Hz (py p1)). reflexivity.
  - unfold moore_interaction, position_sub; simpl.
    rewrite (Habs (px p1)), (Habs (py p1)). reflexivity.
Qed.

(** A table cell away from the centre holds the function's value on any two
    positions with the displacement that the cell stands for. *)
Lemma table_cell_displacement (f : interaction_function) (args : list float)
    (two_n : Z) (p1 p2 : position) :
  is_stationary f = true → p1 ≠ p2 →
  table_cell f args two_n (px p1 - px p2 + two_n) (py p1 - py p2 + two_n)
  = call_interaction f p1 p2 args.
Proof.
  intros Hs Hne. unfold table_cell.
  destruct ((px p1 - px p2 + two_n =? two_n) && (py p1 - py p2 + two_n =? two_n))
    eqn:Hcentre.
  - exfalso. apply Hne. apply andb_true_iff in Hcentre as [Hx Hy].
    apply Z.eqb_eq in Hx, Hy. destruct p1, p2; simpl in *. f_equal; lia.
  - rewrite (is_stationary_symmetric f p1 p2 args Hs).
    rewrite <- (is_stationary_sound f Hs p2 p1
                  (mk_position (two_n - px p2) (two_n - py p2)) args).
    f_equal; unfold position_add; destruct p1, p2; simpl; f_equal; lia.
Qed.

Lemma init_sizes (n : Z) :
  0 < n ≤ 2 ^ 14 →
  wrap32 (2 * n) = 2 * n ∧ wrap32 (4 * n) = 4 * n
  ∧ (4 * n) * (4 * n) ≤ 2 ^ 32.
Proof.
  intros Hn. split; [apply wrap32_small; lia |].
  split; [apply wrap32_small; lia |].
  change (2 ^ 32) with ((4 * 2 ^ 14) * (4 * 2 ^ 14)). nia.
Qed.

(** What a successful [init] establishes for the pair of item types
    [(t1, t2)]. *)
Lemma init_entry (types : list item_properties) (count n : Z)
    (c : gibbs_field_cache) (t1 t2 : Z) :
  0 < n ≤ 2 ^ 14 → count * count < 2 ^ 32 →
  0 ≤ t1 < count → 0 ≤ t2 < count →
  init types count n = Some c →
  two_n c = 2 * n ∧ four_n c = 4 * n ∧ item_type_count c = count
  ∧ ∃ it ef,
      array_get (item_types c) t1 = Some it
      ∧ array_get (interaction_fns it) t2 = Some ef
      ∧ (cacheable (fn ef) = true →
         ∃ table,
           interaction_table c t1 t2 = Some table
           ∧ length table = Z.to_nat ((4 * n) * (4 * n))
           ∧ ∀ x y, 0 ≤ x < 4 * n → 0 ≤ y < 4 * n →
               ∃ v, table !! Z.to_nat (x * (4 * n) + y) = Some (Some v)
                    ∧ table_cell (fn ef) (args ef) (2 * n) x y = Some v).
Proof.
  intros Hn Hsq Ht1 Ht2 Hinit. unfold init in Hinit.
  destruct (init_sizes n Hn) as (H2 & H4 & Hfit).
  rewrite H2, H4 in Hinit.
  apply init_helper_tables in Hinit as [(Etwo & Efour & Ety & Ecnt) Hentries];
    cbn [two_n four_n item_types item_type_count] in *;
    [| lia | exact Hsq].
  split; [exact Etwo |]. split; [exact Efour |]. split; [exact Ecnt |].
  destruct (Hentries t1 t2 Ht1 Ht2) as (it & ef & Hit & Hef & Htable).
  cbn [two_n four_n item_types item_type_count] in Hit.
  exists it, ef. rewrite Ety. split; [exact Hit |]. split; [exact Hef |].
  intros Hc. destruct (Htable Hc) as (table & Hlook & Hfill).
  cbn [two_n four_n item_types item_type_count] in Hlook, Hfill.
  apply fill_table_cells in Hfill as [Hlen Hcells]; [| lia | exact Hfit].
  exists table. split; [| split].
  - unfold interaction_table. rewrite Ecnt.
    pose proof (cell_index_bound count t1 t2 Ht1 Ht2).
    unfold array_get. destruct (Z.ltb_spec (t1 * count + t2) 0); [lia |].
    rewrite Hlook. reflexivity.
  - rewrite Hlen, length_replicate. reflexivity.
  - exact Hcells.
Qed.

End CacheFacts.

Section CacheTheorems.
Context {float : Type} {H : FloatOps float}.
Variable NDEBUG : bool.

Local Abbreviation gibbs_field_cache := (@gibbs_field_cache float).

Lemma cacheable_branch (f : interaction_function) :
  cacheable f = true → is_constant f || negb (is_stationary f) = false.
Proof.
  unfold cacheable. destruct (is_constant f), (is_stationary f); simpl; congruence.
Qed.

Lemma cacheable_stationary (f : interaction_function) :
  cacheable f = true → is_stationary f = true.
Proof. unfold cacheable. intros Hc. apply andb_true_iff in Hc. tauto. Qed.

(** On the table path, [interaction] is the read of the table cell of the
    displacement. *)
Lemma interaction_reads_table (c : gibbs_field_cache) (p1 p2 : position)
    (t1 t2 : Z) it ef table :
  array_get (item_types c) t1 = Some it →
  array_get (interaction_fns it) t2 = Some ef →
  cacheable (fn ef) = true →
  0 ≤ t1 * item_type_count c + t2 < 2 ^ 32 →
  interaction_table c t1 t2 = Some table →
  in_table c (position_sub p1 p2) →
  interaction NDEBUG c p1 p2 t1 t2 = table_entry c table (position_sub p1 p2).
Proof.
  intros Hit Hef Hc Hidx Htable (Hx & Hy). unfold interaction.
  rewrite Hit. cbn [mbind option_bind]. rewrite Hef. cbn [mbind option_bind].
  rewrite (cacheable_branch _ Hc).
  set (diff := position_add (position_sub p1 p2) (mk_position (two_n c) (two_n c))) in *.
  assert (Hin : (px diff <? 0) || (px diff >=? four_n c)
                || (py diff <? 0) || (py diff >=? four_n c) = false).
  { repeat (apply orb_false_iff; split); lia. }
  rewrite Hin, andb_false_r.
  rewrite wrap32_small by exact Hidx.
  unfold interaction_table in Htable. rewrite Htable. cbn [mbind option_bind].
  reflexivity.
Qed.

(** On both paths [interaction] is 0 on two equal positions: the direct path
    compares the positions first, and the table path reads the centre cell. *)
Lemma interaction_at_equal_positions (types : list item_properties)
    (count n : Z) (c : gibbs_field_cache) (p : position) (t1 t2 : Z) :
  0 < n ≤ 2 ^ 14 → count * count < 2 ^ 32 →
  init types count n = Some c →
  0 ≤ t1 < count → 0 ≤ t2 < count →
  interaction NDEBUG c p p t1 t2 = Some f_zero.
Proof.
  intros Hn Hsq Hinit Ht1 Ht2.
  destruct (init_entry types count n c t1 t2 Hn Hsq Ht1 Ht2 Hinit)
    as (Htwo & Hfour & Hcnt & it & ef & Hit & Hef & Htable).
  destruct (is_constant (fn ef) || negb (is_stationary (fn ef))) eqn:Hdirect.
  - unfold interaction. rewrite Hit; simpl. rewrite Hef; simpl.
    rewrite Hdirect, position_eqb_refl. reflexivity.
  - assert (Hc : cacheable (fn ef) = true).
    { unfold cacheable.
      destruct (is_constant (fn ef)), (is_stationary (fn ef)); simpl in *; congruence. }
    destruct (Htable Hc) as (table & Htab & _ & Hcells).
    pose proof (cell_index_bound count t1 t2 Ht1 Ht2) as Hidx.
    rewrite (interaction_reads_table c p p t1 t2 it ef table Hit Hef Hc);
      [| rewrite Hcnt; lia | exact Htab
       | unfold in_table; simpl; rewrite Htwo, Hfour; lia].
    unfold table_entry; simpl. rewrite Htwo, Hfour.
    replace (px p - px p + 2 * n) with (2 * n) by lia.
    replace (py p - py p + 2 * n) with (2 * n) by lia.
    destruct (Hcells (2 * n) (2 * n)) as (v & Hv & Hcell); [lia | lia |].
    unfold table_cell in Hcell. rewrite !Z.eqb_refl in Hcell. simpl in Hcell.
    injection Hcell as <-.
    assert (Hnn : 0 ≤ 2 * n * (4 * n) + 2 * n) by nia.
    unfold array_get. destruct (Z.ltb_spec (2 * n * (4 * n) + 2 * n) 0); [lia |].
    rewrite Hv. reflexivity.
Qed.

(** C7.  For a cache built by [init], every position [p] and every pair of
    item types, [interaction(p, p, t1, t2)] is 0 on every path; so in a sum
    of pairwise terms an item that sits in the cell [p] itself contributes
    the two terms 0 and 0. *)
Theorem interaction_same_position_is_zero (types : list item_properties)
    (count n : Z) (c : gibbs_field_cache) (p : position) (t1 t2 : Z) :
  0 < n ≤ 2 ^ 14 → count * count < 2 ^ 32 →
  init types count n = Some c →
  0 ≤ t1 < count → 0 ≤ t2 < count →
  interaction NDEBUG c p p t1 t2 = Some f_zero
  ∧ ∀ (op : float → float → float) (it : item) (its : list item) (acc : float),
      location it = p → item_type it = t2 →
      pairwise_terms NDEBUG op c p t1 (it :: its) acc
      = pairwise_terms NDEBUG op c p t1 its (op (op acc f_zero) f_zero).
Proof.
  intros Hn Hsq Hinit Ht1 Ht2.
  pose proof (interaction_at_equal_positions types count n c p t1 t2
                Hn Hsq Hinit Ht1 Ht2) as H12.
  pose proof (interaction_at_equal_positions types count n c p t2 t1
                Hn Hsq Hinit Ht2 Ht1) as H21.
  split; [exact H12 |].
  intros op it its acc Hloc Htype. cbn [pairwise_terms].
  rewrite Hloc, Htype, H12, H21. reflexivity.
Qed.

(** C3, as the code has it.  For a cache built by [init] and a pair of item
    types whose interaction function is stationary and not constant, there is
    a table of [4n * 4n] cells; its centre cell (displacement zero) holds 0;
    its cell for every nonzero displacement [p1 - p2] inside the table holds
    the value of the function on [(p1, p2)]; and for such positions
    [interaction(p1, p2, t1, t2)] returns exactly that value. *)
Theorem cached_interaction_refines_function (types : list item_properties)
    (count n : Z) (c : gibbs_field_cache) (t1 t2 : Z) it ef :
  0 < n ≤ 2 ^ 14 → count * count < 2 ^ 32 →
  init types count n = Some c →
  0 ≤ t1 < count → 0 ≤ t2 < count →
  array_get types t1 = Some it →
  array_get (interaction_fns it) t2 = Some ef →
  cacheable (fn ef) = true →
  ∃ table,
    interaction_table c t1 t2 = Some table
    ∧ length table = Z.to_nat (four_n c * four_n c)
    ∧ four_n c = 4 * n
    ∧ table_entry c table (mk_position 0 0) = Some f_zero
    ∧ ∀ p1 p2, p1 ≠ p2 → in_table c (position_sub p1 p2) →
        is_Some (call_interaction (fn ef) p1 p2 (args ef))
        ∧ table_entry c table (position_sub p1 p2)
          = call_interaction (fn ef) p1 p2 (args ef)
        ∧ interaction NDEBUG c p1 p2 t1 t2
          = call_interaction (fn ef) p1 p2 (args ef).
Proof.
  intros Hn Hsq Hinit Ht1 Ht2 Hit0 Hef0 Hc.
  destruct (init_entry types count n c t1 t2 Hn Hsq Ht1 Ht2 Hinit)
    as (Htwo & Hfour & Hcnt & it' & ef' & Hit & Hef & Htable).
  assert (Hty : item_types c = types).
  { unfold init in Hinit. apply init_helper_tables in Hinit as [Hcfg _].
    - apply Hcfg.
    - simpl. lia.
    - exact Hsq. }
  rewrite Hty in Hit. assert (it' = it) as -> by congruence.
  assert (ef' = ef) as -> by congruence.
  destruct (Htable Hc) as (table & Htab & Hlen & Hcells).
  assert (Hentry : ∀ d, in_table c d →
            ∃ v, table_entry c table d = Some v
                 ∧ table_cell (fn ef) (args ef) (2 * n)
                     (px d + 2 * n) (py d + 2 * n) = Some v).
  { intros d (Hx & Hy). simpl in Hx, Hy. rewrite Htwo, Hfour in Hx, Hy.
    destruct (Hcells (px d + 2 * n) (py d + 2 * n) Hx Hy) as (v & Hv & Hcell).
    exists v. split; [| exact Hcell].
    unfold table_entry; simpl. rewrite Htwo, Hfour.
    assert (Hnn : 0 ≤ (px d + 2 * n) * (4 * n) + (py d + 2 * n)) by nia.
    unfold array_get.
    destruct (Z.ltb_spec ((px d + 2 * n) * (4 * n) + (py d + 2 * n)) 0); [lia |].
    rewrite Hv. reflexivity. }
  exists table. split; [exact Htab |].
  split; [rewrite Hfour; exact Hlen |]. split; [exact Hfour |]. split.
  - destruct (Hentry (mk_position 0 0)) as (v & Hv & Hcell).
    { unfold in_table; simpl. rewrite Htwo, Hfour. lia. }
    rewrite Hv. unfold table_cell in Hcell; simpl in Hcell.
    rewrite !Z.eqb_refl in Hcell. cbn [andb] in Hcell. congruence.
  - intros p1 p2 Hne Hin.
    destruct (Hentry _ Hin) as (v & Hv & Hcell). simpl in Hcell.
    rewrite (table_cell_displacement _ _ _ p1 p2 (cacheable_stationary _ Hc) Hne)
      in Hcell.
    pose proof (cell_index_bound count t1 t2 Ht1 Ht2) as Hidx.
    split; [rewrite Hcell; eauto |]. split; [congruence |].
    rewrite <- Hty in Hit0.
    rewrite (interaction_reads_table c p1 p2 t1 t2 it ef table Hit0 Hef Hc);
      [congruence | rewrite Hcnt; lia | exact Htab | exact Hin].
Qed.

End CacheTheorems.

(* ===================================================================== *)
(** * The energy functions and the cache on concrete inputs               *)
(* ===================================================================== *)

Section ConcreteCache.
Import Worlds.
Local Existing Instance Binary32.ops.

Example moore_at_zero_displacement :
  call_interaction moore_interaction_fn (mk_position 3 7) (mk_position 3 7) []
  = Some (f_of_Z 1).
Proof. reflexivity. Qed.

Example four_diagonal_neighbor :
  call_interaction four_interaction_fn (mk_position 3 7) (mk_position 4 8) []
  = Some (f_of_Z (-200)).
Proof. reflexivity. Qed.

(** CROSS_HASH does depend on where the pair is: the same displacement
    [(-2, 0)] has value -6 at [x = 0] and -5 at [x = 7]. *)
Lemma cross_hash_not_displacement_only :
  ¬ displacement_only cross_hash_interaction_fn.
Proof.
  intros Hd.
  specialize (Hd (mk_position 0 0) (mk_position 2 0) (mk_position 7 0)
                 (map f_of_Z [4; 1; 3; 2; -5; -6; -7; -8])).
  assert (Hfar : call_interaction cross_hash_interaction_fn
                   (mk_position 7 0) (mk_position 9 0)
                   (map f_of_Z [4; 1; 3; 2; -5; -6; -7; -8])
                 = Some (f_of_Z (-5))) by reflexivity.
  assert (Hnear : call_interaction cross_hash_interaction_fn
                    (mk_position 0 0) (mk_position 2 0)
                    (map f_of_Z [4; 1; 3; 2; -5; -6; -7; -8])
                  = Some (f_of_Z (-6))) by reflexivity.
  change (position_add (mk_position 0 0) (mk_position 7 0)) with (mk_position 7 0) in Hd.
  change (position_add (mk_position 2 0) (mk_position 7 0)) with (mk_position 9 0) in Hd.
  rewrite Hfar, Hnear in Hd. discriminate Hd.
Qed.

Lemma custom_regeneration_fn_unchecked_witness :
  Z.of_nat (length [f_of_Z 5]) ≤ 1
  ∧ call_regeneration custom_regeneration_fn (mk_position 0 0) 1 [f_of_Z 5] = None
  ∧ call_regeneration custom_regeneration_fn (mk_position 0 0) 1 [f_of_Z 5]
    ≠ Some f_zero.
Proof.
  split; [simpl; lia |].
  apply (custom_regeneration_fn_unchecked (mk_position 0 0) 1 [f_of_Z 5]).
  simpl; lia.
Defined.

Lemma init_moore_world : init moore_world 1 1 = Some moore_cache.
Proof. reflexivity. Qed.

Lemma init_mixed_world : init mixed_world 2 1 = Some mixed_cache.
Proof. reflexivity. Qed.

Lemma interaction_same_position_is_zero_witness :
  init mixed_world 2 1 = Some mixed_cache
  ∧ interaction false mixed_cache (mk_position 3 7) (mk_position 3 7) 0 1
    = Some f_zero
  ∧ interaction false mixed_cache (mk_position 3 7) (mk_position 3 7) 1 1
    = Some f_zero.
Proof.
  split; [exact init_mixed_world |]. split.
  - destruct (interaction_same_position_is_zero false mixed_world 2 1
                mixed_cache (mk_position 3 7) 0 1) as [H _];
      [lia | lia | exact init_mixed_world | lia | lia | exact H].
  - destruct (interaction_same_position_is_zero false mixed_world 2 1
                mixed_cache (mk_position 3 7) 1 1) as [H _];
      [lia | lia | exact init_mixed_world | lia | lia | exact H].
Defined.

(** C3 as stated fails at displacement zero: MOORE has value 1 on two equal
    positions, and the table cell for displacement [(0, 0)], at index
    [2 * 4 + 2] for [n = 1], holds 0. *)
Lemma table_centre_is_not_the_function_value :
  ∃ table it ef,
    init moore_world 1 1 = Some moore_cache
    ∧ array_get moore_world 0 = Some it
    ∧ array_get (interaction_fns it) 0 = Some ef
    ∧ cacheable (fn ef) = true
    ∧ interaction_table moore_cache 0 0 = Some table
    ∧ in_table moore_cache (position_sub (mk_position 3 7) (mk_position 3 7))
    ∧ table_entry moore_cache table (position_sub (mk_position 3 7) (mk_position 3 7))
      ≠ call_interaction (fn ef) (mk_position 3 7) (mk_position 3 7) (args ef).
Proof.
  exists (default [] (interaction_table moore_cache 0 0)).
  exists (mk_item_type [ mk_energy_function _ moore_interaction_fn [] ]).
  exists (mk_energy_function _ moore_interaction_fn []).
  split; [exact init_moore_world |].
  split; [reflexivity |]. split; [reflexivity |]. split; [reflexivity |].
  split; [reflexivity |]. split; [vm_compute; intuition discriminate |].
  assert (Hcell : table_entry moore_cache
                    (default [] (interaction_table moore_cache 0 0))
                    (position_sub (mk_position 3 7) (mk_position 3 7))
                  = Some (S754_zero false)) by reflexivity.
  rewrite Hcell. discriminate.
Qed.

Lemma cached_interaction_refines_function_witness :
  init mixed_world 2 1 = Some mixed_cache
  ∧ ∃ table,
      interaction_table mixed_cache 1 1 = Some table
      ∧ table_entry mixed_cache table (mk_position 0 0) = Some f_zero
      ∧ interaction false mixed_cache (mk_position 3 7) (mk_position 4 6) 1 1
        = call_interaction piecewise_box_interaction_fn
            (mk_position 3 7) (mk_position 4 6)
            [f_of_Z 3; f_of_Z 20; f_of_Z (-6); f_of_Z 2].
Proof.
  split; [exact init_mixed_world |].
  destruct (cached_interaction_refines_function false mixed_world 2 1
              mixed_cache 1 1
              (mk_item_type
                 [ mk_energy_function _ zero_interaction_fn [];
                   mk_energy_function _ piecewise_box_interaction_fn
                     [f_of_Z 3; f_of_Z 20; f_of_Z (-6); f_of_Z 2] ])
              (mk_energy_function _ piecewise_box_interaction_fn
                 [f_of_Z 3; f_of_Z 20; f_of_Z (-6); f_of_Z 2]))
    as (table & Htab & _ & _ & Hzero & Hall);
    [lia | lia | exact init_mixed_world | lia | lia
     | reflexivity | reflexivity | reflexivity |].
  exists table. split; [exact Htab |]. split; [exact Hzero |].
  apply (Hall (mk_position 3 7) (mk_position 4 6)).
  - discriminate.
  - vm_compute. intuition discriminate.
Defined.

End ConcreteCache.

(* ===================================================================== *)
(** * shuffle                                                             *)
(* ===================================================================== *)

Section ArrayFacts.
Context {A : Type}.
Implicit Types a : list A.

Lemma insert_Permutation a i x y :
  a !! i = Some x → <[i:=y]> a ≡ₚ y :: delete i a.
Proof.
  intros Hi. apply lookup_lt_Some in Hi.
  rewrite insert_take_drop by exact Hi. rewrite delete_take_drop.
  symmetry. apply Permutation_middle.
Qed.

Lemma swap_Permutation a a' i j :
  i ≠ j → swap a i j = Some a' → a' ≡ₚ a.
Proof.
  unfold swap. intros Hne Hswap.
  destruct (a !! i) as [x |] eqn:Hx; simpl in Hswap; [| discriminate].
  destruct (a !! j) as [y |] eqn:Hy; simpl in Hswap; [| discriminate].
  injection Hswap as <-.
  assert (Hb : <[i:=y]> a !! j = Some y)
    by (rewrite list_lookup_insert_ne; [exact Hy | exact Hne]).
  etrans; [apply (insert_Permutation _ j y x Hb) |].
  symmetry. etrans; [apply (delete_Permutation a i x Hx) |].
  apply Permutation_skip.
  apply (Permutation_cons_inv (a := y)).
  etrans; [symmetry; apply (insert_Permutation a i x y Hx) |].
  apply (delete_Permutation _ j y Hb).
Qed.

Lemma swap_is_Some a i j :
  (i < length a)%nat → (j < length a)%nat → is_Some (swap a i j).
Proof.
  intros Hi Hj. unfold swap.
  destruct (lookup_lt_is_Some_2 a i Hi) as [x ->].
  destruct (lookup_lt_is_Some_2 a j Hj) as [y ->].
  simpl. eauto.
Qed.

(** [array.remove(index)] takes exactly the element at [index] away. *)
Lemma array_remove_Permutation a a' index x :
  a !! index = Some x → array_remove a index = Some a' → a ≡ₚ x :: a'.
Proof.
  intros Hx. unfold array_remove. rewrite Hx; simpl.
  pose proof (lookup_lt_Some _ _ _ Hx) as Hlt.
  destruct (decide (index = (length a - 1)%nat)) as [-> | Hne].
  - intros [= <-].
    rewrite <- (take_drop (length a - 1) a) at 1.
    rewrite (drop_S a x (length a - 1) Hx).
    rewrite drop_ge by lia. rewrite <- Permutation_middle, app_nil_r. reflexivity.
  - destruct (a !! (length a - 1)%nat) as [last |] eqn:Hlast; simpl; [| discriminate].
    intros [= <-].
    assert (Htake : take (length a - 1) a !! index = Some x).
    { rewrite lookup_take_lt by lia. exact Hx. }
    rewrite (insert_Permutation _ index x last Htake).
    rewrite <- (take_drop (length a - 1) a) at 1.
    rewrite (drop_S a last (length a - 1) Hlast).
    rewrite drop_ge by lia. rewrite <- Permutation_middle, app_nil_r.
    rewrite (delete_Permutation _ index x Htake) at 1.
    apply Permutation_swap.
Qed.

Lemma array_remove_is_Some a index :
  (index < length a)%nat → is_Some (array_remove a index).
Proof.
  intros Hlt. unfold array_remove.
  destruct (lookup_lt_is_Some_2 a index Hlt) as [x ->]; simpl.
  destruct (decide (index = (length a - 1)%nat)); [eauto |].
  destruct (lookup_lt_is_Some_2 a (length a - 1)) as [last ->]; [lia |].
  simpl. eauto.
Qed.

End ArrayFacts.

Section ShuffleFacts.
Context {rng_state : Type} {R : RNGType rng_state} {T : Type}.

Lemma shuffle_loop_Permutation (i : nat) :
  ∀ (array : list T) (rng : rng_state),
    (i < length array)%nat → Z.of_nat i + 1 < 2 ^ 32 →
    ∃ array' rng',
      shuffle_loop i array rng = Some (array', rng') ∧ array' ≡ₚ array.
Proof.
  induction i as [| i IH]; intros array rng Hlt Hfit; simpl.
  - exists array, rng. split; reflexivity.
  - destruct (rng_call rng) as [r rng1].
    rewrite wrap32_small by lia. unfold umod.
    destruct (Z.eqb_spec (Z.of_nat (S i) + 1) 0) as [Hz | _]; [lia |].
    cbn [mbind option_bind].
    pose proof (Z.mod_pos_bound r (Z.of_nat (S i) + 1) ltac:(lia)) as Hnext.
    set (next := r mod (Z.of_nat (S i) + 1)) in *.
    destruct (decide (Z.to_nat next ≠ S i)) as [Hne | _].
    + destruct (swap_is_Some array (Z.to_nat next) (S i)) as [array1 Hswap];
        [lia | lia |].
      rewrite Hswap. cbn [mbind option_bind].
      pose proof (swap_Permutation _ _ _ _ Hne Hswap) as Hperm.
      destruct (IH array1 rng1) as (array' & rng' & Hrun & Hperm').
      { rewrite (Permutation_length Hperm). lia. }
      { lia. }
      exists array', rng'. split; [exact Hrun |].
      rewrite Hperm'. exact Hperm.
    + cbn [mbind option_bind]. apply IH; lia.
Qed.

End ShuffleFacts.

Section ShuffleTheorem.
Context {rng_state : Type} {R : RNGType rng_state} {T : Type}.
Variable NDEBUG : bool.

(** C10.  For every array of [length >= 1] elements and every generator,
    [shuffle] returns, and the array it leaves is a permutation of the one it
    was given: same elements with the same multiplicities, same length. *)
Theorem shuffle_is_permutation (array : list T) (length : Z) (rng : rng_state) :
  length = Z.of_nat (List.length array) → 1 ≤ length < 2 ^ 32 →
  ∃ array' rng',
    shuffle NDEBUG array length rng = Some (array', rng')
    ∧ array' ≡ₚ array
    ∧ List.length array' = List.length array.
Proof.
  intros Hlen Hpos. unfold shuffle.
  destruct (Z.eqb_spec length 0) as [Hz | _]; [lia |].
  rewrite andb_false_r. rewrite wrap32_small by lia.
  destruct (shuffle_loop_Permutation (Z.to_nat (length - 1)) array rng)
    as (array' & rng' & Hrun & Hperm); [lia | lia |].
  exists array', rng'. split; [exact Hrun |]. split; [exact Hperm |].
  apply Permutation_length. exact Hperm.
Qed.

End ShuffleTheorem.

Example shuffle_five :
  fst <$> shuffle (R := Minstd.rng) false [10; 20; 30; 40; 50] 5 1
  = Some [40; 50; 10; 30; 20].
Proof. vm_compute. reflexivity. Qed.

Lemma shuffle_is_permutation_witness :
  5 = Z.of_nat (List.length [10; 20; 30; 40; 50]) ∧ 1 ≤ 5 < 2 ^ 32
  ∧ ∃ array' rng',
      shuffle (R := Minstd.rng) false [10; 20; 30; 40; 50] 5 1 = Some (array', rng')
      ∧ array' ≡ₚ [10; 20; 30; 40; 50]
      ∧ List.length array' = List.length [10; 20; 30; 40; 50].
Proof.
  split; [reflexivity |]. split; [lia |].
  apply (shuffle_is_permutation (R := Minstd.rng) false [10; 20; 30; 40; 50] 5 1);
    [reflexivity | lia].
Defined.

(* ===================================================================== *)
(** * The Metropolis-Hastings moves of gibbs_field::sample                *)
(* ===================================================================== *)

Lemma umod_pos (a b : Z) : 0 < b → umod a b = Some (a mod b).
Proof. intros Hb. unfold umod. destruct (Z.eqb_spec b 0); [lia | reflexivity]. Qed.

(** ** How evenly [rng() % k] spreads the values of a generator *)












Section SamplerFacts.
Context {float : Type} {H : FloatOps float}.
Context {rng_state : Type} {R : RNGType rng_state}.
Variable NDEBUG : bool.

Local Abbreviation gibbs_field_cache := (@gibbs_field_cache float).









End SamplerFacts.

Section SamplerTheorems.
Context {float : Type} {H : FloatOps float}.
Context {rng_state : Type} {R : RNGType rng_state}.
Variable NDEBUG : bool.
Variable x_first : bool.

Local Abbreviation gibbs_field_cache := (@gibbs_field_cache float).



(** With the coin odd and no item in the patch, nothing is proposed. *)
Lemma death_move_empty (c : gibbs_field_cache) (positions : list position)
    (hoods : list patch_neighborhood) (count patch_size : Z) (i : Z)
    (s : sampler_state) (patch_position : position)
    (neighborhood : patch_neighborhood) (current_ptr : nat)
    (current : patch_type) :
  array_get positions i = Some patch_position →
  array_get hoods i = Some neighborhood →
  array_get (top_left_neighborhood neighborhood) 0 = Some current_ptr →
  patches s !! current_ptr = Some current →
  items current = [] →
  rng_value (rng s) mod 2 ≠ 0 →
  sample_patch NDEBUG x_first (new_gibbs_field c positions hoods count patch_size) i s
  = Some (mk_sampler_state (rng_step (rng s)) (patches s)).
Proof.
  intros Hpos Hhood Hptr Hcur Hempty Hcoin. unfold sample_patch, new_gibbs_field.
  cbn [patch_positions neighborhoods cache n].
  rewrite Hpos. cbn [mbind option_bind]. rewrite Hhood. cbn [mbind option_bind].
  rewrite Hptr. cbn [mbind option_bind]. rewrite Hcur. cbn [mbind option_bind].
  unfold rng_value, rng_step in *.
  destruct (rng_call (rng s)) as [a0 t1]. cbn [fst snd] in *.
  destruct (Z.eqb_spec (a0 mod 2) 0) as [Heven | _]; [contradiction |].
  rewrite Hempty. reflexivity.
Qed.

End SamplerTheorems.

(* ===================================================================== *)
(** * The moves on a concrete batch                                       *)
(* ===================================================================== *)

Section ConcreteSampler.
Import Worlds Scenario.
#[local] Existing Instance Binary32.ops.
#[local] Existing Instance Minstd.rng.





End ConcreteSampler.

(* ===================================================================== *)
(** * Facts about the byte encodings                                      *)
(* ===================================================================== *)

Lemma Z_of_byte_of_Z (z : Z) : 0 ≤ z < 256 → Z_of_byte (byte_of_Z z) = z.
Proof.
  intros Hz. unfold Z_of_byte, byte_of_Z.
  destruct (Byte.of_N (Z.to_N z)) as [b |] eqn:Hb; simpl.
  - apply Byte.to_of_N in Hb. rewrite Hb. lia.
  - apply Byte.of_N_None_iff in Hb. lia.
Qed.

Lemma length_le_bytes (width : nat) (z : Z) : length (le_bytes width z) = width.
Proof. revert z. induction width as [| w IH]; intros z; simpl; [| rewrite IH]; reflexivity. Qed.

Lemma le_value_le_bytes (width : nat) :
  ∀ z, 0 ≤ z < 256 ^ Z.of_nat width → le_value (le_bytes width z) = z.
Proof.
  induction width as [| w IH]; intros z Hz; simpl.
  - change (256 ^ Z.of_nat 0) with 1 in Hz. lia.
  - rewrite Nat2Z.inj_succ, Z.pow_succ_r in Hz by lia.
    rewrite Z_of_byte_of_Z by (apply Z.mod_pos_bound; lia).
    rewrite IH.
    + pose proof (Z.div_mod z 256 ltac:(lia)). lia.
    + split; [apply Z.div_pos; lia |].
      apply Z.div_lt_upper_bound; lia.
Qed.

Lemma uint_codec_ok (width : nat) : codec_ok (uint_codec width).
Proof.
  intros z rest Hz. simpl in *. unfold read_uint.
  rewrite length_app, length_le_bytes.
  destruct (decide (width + length rest < width)%nat); [lia |].
  rewrite take_app_length', drop_app_length' by (rewrite length_le_bytes; reflexivity).
  rewrite le_value_le_bytes by exact Hz. reflexivity.
Qed.

Lemma read_write_uint64 (z : Z) (rest : list byte) :
  0 ≤ z < 2 ^ 64 → read_uint64 (write_uint64 z ++ rest) = Some (z, rest).
Proof. intros Hz. apply (uint_codec_ok 8). exact Hz. Qed.

Lemma read_write_uint64_array (data : list Z) (rest : list byte) :
  Forall (λ z, 0 ≤ z < 2 ^ 64) data →
  read_uint64_array (length data) (write_uint64_array data ++ rest)
  = Some (data, rest).
Proof.
  induction 1 as [| z data Hz _ IH]; [reflexivity |].
  unfold write_uint64_array in *. cbn [map concat length read_uint64_array].
  rewrite <- app_assoc.
  rewrite read_write_uint64 by exact Hz. simpl.
  rewrite IH. reflexivity.
Qed.

Module SnapshotFacts.
Import Snapshot.

Lemma bool_codec_ok : codec_ok bool_codec.
Proof. intros [] rest _; reflexivity. Qed.

Lemma int64_codec_ok : codec_ok int64_codec.
Proof.
  intros z rest Hz. cbn [wf enc dec int64_codec] in *.
  pose proof (Z.mod_pos_bound z (2 ^ 64) ltac:(lia)) as Hw.
  pose proof (uint_codec_ok 8 (wrap64 z) rest Hw) as Hread.
  cbn [wf enc dec uint_codec] in Hread. rewrite Hread.
  cbn [mbind option_bind].
  f_equal. f_equal. unfold wrap64.
  destruct (Z.ltb_spec (z mod 2 ^ 64) (2 ^ 63)) as [Hlt | Hge].
  - destruct (Z.le_gt_cases 0 z) as [Hpos | Hneg].
    + apply Z.mod_small. lia.
    + rewrite <- (Z.mod_add z 1 (2 ^ 64)) in Hlt by lia.
      rewrite Z.mod_small in Hlt by lia. lia.
  - destruct (Z.le_gt_cases 0 z) as [Hpos | Hneg].
    + rewrite Z.mod_small in Hge by lia. lia.
    + rewrite <- (Z.mod_add z 1 (2 ^ 64)) by lia.
      rewrite Z.mod_small by lia. lia.
Qed.

Lemma pair_codec_ok {A B} (CA : codec A) (CB : codec B) :
  codec_ok CA → codec_ok CB → codec_ok (pair_codec CA CB).
Proof.
  intros HA HB [a b] rest [Ha Hb]. simpl in *.
  rewrite <- app_assoc, (HA a _ Ha). simpl.
  rewrite (HB b _ Hb). reflexivity.
Qed.

Lemma dec_elements_ok {A} (C : codec A) (l : list A) (rest : list byte) :
  codec_ok C → Forall (wf C) l →
  dec_elements C (length l) (concat (map (enc C) l) ++ rest) = Some (l, rest).
Proof.
  intros HC. induction 1 as [| a l Ha _ IH]; simpl; [reflexivity |].
  rewrite <- app_assoc, (HC a _ Ha). simpl. rewrite IH. reflexivity.
Qed.

Lemma list_codec_ok {A} (C : codec A) : codec_ok C → codec_ok (list_codec C).
Proof.
  intros HC l rest [Hlen Hall]. cbn [wf enc dec list_codec] in *.
  rewrite <- app_assoc, read_write_uint64 by lia. cbn [mbind option_bind].
  rewrite Nat2Z.id. apply dec_elements_ok; assumption.
Qed.

Lemma struct_codec_ok {A B} (to_fields : B → A) (of_fields : A → B) (C : codec A) :
  (∀ b, of_fields (to_fields b) = b) → codec_ok C →
  codec_ok (struct_codec to_fields of_fields C).
Proof.
  intros Hiso HC b rest Hb. simpl in *.
  rewrite (HC _ _ Hb). simpl. rewrite Hiso. reflexivity.
Qed.

Lemma map_codec_ok {K A} `{Countable K} (C : codec (K * A)) :
  codec_ok C → codec_ok (map_codec C).
Proof.
  intros HC. apply struct_codec_ok.
  - intros m. apply list_to_map_to_list.
  - apply list_codec_ok. exact HC.
Qed.

Create HintDb codec discriminated.
#[local] Hint Resolve uint_codec_ok bool_codec_ok int64_codec_ok : codec.
#[local] Hint Resolve pair_codec_ok list_codec_ok map_codec_ok : codec.

Ltac codec_struct :=
  apply struct_codec_ok;
  [ let b := fresh in intros b; destruct b; reflexivity
  | unfold energy_codec, u8, u32, u64, f32; auto 30 with codec ].

Lemma item_type_codec_ok : codec_ok item_type_codec.
Proof. codec_struct. Qed.

#[local] Hint Resolve item_type_codec_ok : codec.

Lemma config_codec_ok : codec_ok config_codec.
Proof. codec_struct. Qed.

Lemma position_codec_ok : codec_ok position_codec.
Proof. codec_struct. Qed.

#[local] Hint Resolve config_codec_ok position_codec_ok : codec.

Lemma item_codec_ok : codec_ok item_codec.
Proof. codec_struct. Qed.

#[local] Hint Resolve item_codec_ok : codec.

Lemma patch_codec_ok : codec_ok patch_codec.
Proof. codec_struct. Qed.

Lemma agent_codec_ok : codec_ok agent_codec.
Proof. codec_struct. Qed.

Lemma coordinator_codec_ok : codec_ok coordinator_codec.
Proof. codec_struct. Qed.

Lemma client_codec_ok : codec_ok client_codec.
Proof. codec_struct. Qed.

#[local] Hint Resolve patch_codec_ok agent_codec_ok coordinator_codec_ok
  client_codec_ok : codec.

Lemma simulator_codec_ok : codec_ok simulator_codec.
Proof. codec_struct. Qed.

Lemma server_state_codec_ok : codec_ok server_state_codec.
Proof.
  unfold server_state_codec, u64. apply map_codec_ok. auto 30 with codec.
Qed.

End SnapshotFacts.

(* ===================================================================== *)
(** * simulator.cpp: saving, loading and the agent states                 *)
(* ===================================================================== *)

Section PythonFacts.
Context {simulator_state server_state agent_state simulator_config : Type}.
Context {py_callback py_agent : Type}.
Variable sim_codec : codec simulator_state.
Variable state_codec : codec server_state.
Variable get_agent_state : simulator_state → Z → option agent_state.
Variable simulator_time : simulator_state → Z.
Variable get_config : simulator_state → simulator_config.
Variable build_py_agent : agent_state → simulator_config → Z → py_agent.
Variable initial_server_state : server_state.

Local Abbreviation simulator := (@simulator simulator_state server_state py_callback).
Local Abbreviation save := (simulator_save sim_codec state_codec).
Local Abbreviation load :=
  (simulator_load sim_codec state_codec get_agent_state simulator_time get_config
     build_py_agent initial_server_state).

(** The states of the owned agents that [simulator_load] hands to Python. *)
Lemma owned_states_defined (s : simulator_state) (agent_ids : list Z) :
  Z.of_nat (length agent_ids) < 2 ^ 32 →
  Forall (λ id, is_Some (get_agent_state s id)) agent_ids →
  is_Some
    (mapM (λ i,
             agent ← mjoin (get_agent_states get_agent_state s agent_ids
                              (Z.to_nat (wrap32 (Z.of_nat (length agent_ids)))) !! i);
             id ← agent_ids !! i;
             Some (build_py_agent agent (get_config s) id))
          (seq 0 (Z.to_nat (Z.of_nat (length agent_ids))))).
Proof.
  intros Hlen Hall. apply mapM_is_Some_2. apply Forall_forall.
  intros i Hi. apply elem_of_seq in Hi. rewrite Nat2Z.id in Hi.
  rewrite wrap32_small by lia. rewrite Nat2Z.id.
  unfold get_agent_states. rewrite take_ge by lia.
  destruct (lookup_lt_is_Some_2 agent_ids i) as [id Hid]; [lia |].
  rewrite Forall_forall in Hall.
  destruct (Hall id) as [agent Hagent]; [eapply list_elem_of_lookup_2; exact Hid |].
  simpl. rewrite list_lookup_fmap, Hid. simpl. rewrite Hagent. simpl. eauto.
Qed.

(** Loading a saved file gives back the simulator it was saved from, with the
    new callback. *)
Lemma load_of_save (sim_handle : simulator) (cb : py_callback) :
  codec_ok sim_codec → codec_ok state_codec →
  simulator_wf sim_codec state_codec get_agent_state sim_handle →
  ∃ py_states,
    load (save sim_handle) cb
    = Some (Py_value
              (mk_loaded (simulator_time (sim sim_handle))
                 (mk_simulator (sim sim_handle)
                    (mk_py_simulator_data (server (data sim_handle)) cb
                       (agent_ids (data sim_handle))
                       (semaphore_ids (data sim_handle))))
                 py_states)).
Proof.
  intros Hsim Hstate (Hwf_sim & Hwf_state & Hagents & Hsems & Hlen_a & Hlen_s & Howned).
  destruct sim_handle as [s [srv cb0 aids sids]]. simpl in *.
  destruct (owned_states_defined s aids Hlen_a Howned) as [py_states Hstates].
  exists py_states.
  unfold simulator_load, simulator_save. cbn [sim data agent_ids semaphore_ids server].
  rewrite (Hsim s _ Hwf_sim).
  rewrite read_write_uint64 by lia. cbn [mbind option_bind].
  rewrite Nat2Z.id, (read_write_uint64_array aids) by exact Hagents.
  cbn [mbind option_bind].
  rewrite read_write_uint64 by lia. cbn [mbind option_bind].
  rewrite Nat2Z.id, (read_write_uint64_array sids) by exact Hsems.
  cbn [mbind option_bind].
  rewrite <- (app_nil_r (enc state_codec srv)), (Hstate srv [] Hwf_state).
  cbn [mbind option_bind].
  cbv zeta. cbn [callback new_py_simulator_data].
  rewrite Nat2Z.id in Hstates. rewrite Nat2Z.id. rewrite Hstates. reflexivity.
Qed.

(** Save, load, save: the second file is the first one, byte for byte. *)
Lemma save_load_save_generic (sim_handle : simulator) (cb : py_callback) :
  codec_ok sim_codec → codec_ok state_codec →
  simulator_wf sim_codec state_codec get_agent_state sim_handle →
  ∃ l,
    load (save sim_handle) cb = Some (Py_value l)
    ∧ save (loaded_simulator l) = save sim_handle.
Proof.
  intros Hsim Hstate Hwf.
  destruct (load_of_save sim_handle cb Hsim Hstate Hwf) as [py_states Hload].
  eexists. split; [exact Hload |]. reflexivity.
Qed.

(** The local branch answers entry by entry. *)
Lemma agent_states_local (sim_handle : simulator) (agent_ids : list Z) :
  simulator_agent_states_local get_agent_state get_config build_py_agent
    sim_handle agent_ids
  = Py_value
      (map (expected_entry get_agent_state build_py_agent (sim sim_handle)
              (get_config (sim sim_handle))) agent_ids).
Proof.
  unfold simulator_agent_states_local, get_agent_states. f_equal.
  rewrite take_ge by lia.
  induction agent_ids as [| id rest IH]; simpl; [reflexivity |].
  rewrite IH. reflexivity.
Qed.

Lemma found_agents_known (s : simulator_state) (agent_ids : list Z) id agent :
  (id, agent) ∈ found_agents get_agent_state s agent_ids →
  get_agent_state s id = Some agent.
Proof.
  unfold found_agents. intros Hin.
  apply list_elem_of_omap in Hin as (id' & _ & Hfound).
  destruct (get_agent_state s id') as [agent' |] eqn:Hget; simpl in Hfound;
    [| discriminate].
  injection Hfound as <- <-. exact Hget.
Qed.

Lemma response_length (l : list (Z * agent_state)) :
  length (states (response_of l)) = length l.
Proof. unfold response_of. cbn [states]. apply length_map. Qed.

Lemma response_ids_middle (before more : list (Z * agent_state)) x :
  ids (response_of (before ++ x :: more)) !! length before = Some (fst x).
Proof.
  unfold response_of. cbn [ids]. rewrite list_lookup_fmap.
  rewrite list_lookup_middle by reflexivity. reflexivity.
Qed.

Lemma response_states_middle (before more : list (Z * agent_state)) x :
  states (response_of (before ++ x :: more)) !! length before = Some (snd x).
Proof.
  unfold response_of. cbn [states]. rewrite list_lookup_fmap.
  rewrite list_lookup_middle by reflexivity. reflexivity.
Qed.

Lemma found_agents_cons (s : simulator_state) (id : Z) (rest : list Z) :
  found_agents get_agent_state s (id :: rest)
  = match get_agent_state s id with
    | Some agent => (id, agent) :: found_agents get_agent_state s rest
    | None => found_agents get_agent_state s rest
    end.
Proof.
  unfold found_agents. simpl.
  destruct (get_agent_state s id); reflexivity.
Qed.

(** The loop of the client branch, started anywhere in a response that
    continues with the answer to the remaining ids. *)
Lemma merge_agent_states_reply (s : simulator_state) (config : simulator_config)
    (agent_ids : list Z) :
  ∀ before : list (Z * agent_state),
    merge_agent_states build_py_agent config
      (response_of (before ++ found_agents get_agent_state s agent_ids))
      agent_ids (length before)
    = Some (map (expected_entry get_agent_state build_py_agent s config) agent_ids).
Proof.
  clear simulator_time get_config.
  induction agent_ids as [| id rest IH]; intros before; [reflexivity |].
  cbn [merge_agent_states map].
  rewrite response_length, length_app, found_agents_cons.
  unfold expected_entry at 1.
  destruct (get_agent_state s id) as [agent |] eqn:Hget;
    cbn [fmap option_fmap option_map].
  - (* a known id: the next entry of the response is its state *)
    cbn [length].
    destruct (decide (length before
                      = length before
                        + S (length (found_agents get_agent_state s rest)))%nat);
      [lia |].
    rewrite response_ids_middle, response_states_middle.
    cbn [mbind option_bind fst snd].
    destruct (decide (id ≠ id)) as [Hne | _]; [contradiction |].
    specialize (IH (before ++ [(id, agent)])).
    rewrite <- app_assoc in IH. cbn [app] in IH.
    rewrite length_app in IH. cbn [length] in IH.
    replace (length before + 1)%nat with (S (length before)) in IH by lia.
    rewrite IH. reflexivity.
  - (* an unknown id: the response has no entry for it *)
    specialize (IH before).
    destruct (decide (length before
                      = length before + length (found_agents get_agent_state s rest))%nat)
      as [Hend | Hmore].
    + rewrite IH. reflexivity.
    + destruct (found_agents get_agent_state s rest) as [| [id' agent'] more] eqn:Hfound;
        [simpl in Hmore; lia |].
      assert (Hknown : get_agent_state s id' = Some agent').
      { apply (found_agents_known s rest). rewrite Hfound. left. }
      rewrite response_ids_middle. cbn [mbind option_bind fst].
      destruct (decide (id' ≠ id)) as [_ | Heq].
      * rewrite IH. reflexivity.
      * assert (id' = id) as -> by (destruct (decide (id' = id)); tauto).
        congruence.
Qed.

End PythonFacts.

Section AgentStates.
Context {simulator_state server_state agent_state simulator_config : Type}.
Context {py_callback py_agent : Type}.
Variable get_agent_state : simulator_state → Z → option agent_state.
Variable get_config : simulator_state → simulator_config.
Variable build_py_agent : agent_state → simulator_config → Z → py_agent.

(** C9.  For every list of agent ids, [simulator_agent_states] returns the
    list, parallel to the request, whose entry for an id that names an agent
    is that agent's state and whose entry for any other id is None: the same
    list whether it is asked of the simulator directly or through a client
    whose request the server has answered with status OK. *)
Theorem agent_states_parallel
    (sim_handle : simulator (server_state := server_state) (py_callback := py_callback))
    (agent_ids : list Z) :
  let s := sim sim_handle in
  let config := get_config s in
  let expected :=
    map (expected_entry get_agent_state build_py_agent s config) agent_ids in
  simulator_agent_states_local get_agent_state get_config build_py_agent
    sim_handle agent_ids
  = Py_value expected
  ∧ simulator_agent_states_client build_py_agent config true true OK
      (server_reply get_agent_state s agent_ids) agent_ids
    = Some (Py_value expected)
  ∧ length expected = length agent_ids
  ∧ (∀ i id, agent_ids !! i = Some id →
       expected !! i
       = Some (expected_entry get_agent_state build_py_agent s config id))
  ∧ (∀ id, expected_entry get_agent_state build_py_agent s config id = None
           ↔ get_agent_state s id = None)
  ∧ (∀ id agent, get_agent_state s id = Some agent →
       expected_entry get_agent_state build_py_agent s config id
       = Some (build_py_agent agent config id)).
Proof.
  intros s config expected.
  split; [apply agent_states_local |]. split.
  { unfold simulator_agent_states_client. cbn [negb].
    destruct (decide (OK ≠ OK)) as [Hne | _]; [contradiction |].
    unfold server_reply.
    pose proof (merge_agent_states_reply get_agent_state build_py_agent s config
                  agent_ids []) as Hmerge.
    cbn [app length] in Hmerge. rewrite Hmerge. reflexivity. }
  split; [apply length_map |]. split.
  { intros i id Hid. subst expected. rewrite list_lookup_fmap, Hid. reflexivity. }
  split.
  - intros id. unfold expected_entry.
    destruct (get_agent_state s id); simpl; split; congruence.
  - intros id agent Hget. unfold expected_entry. rewrite Hget. reflexivity.
Qed.

End AgentStates.

Section SaveLoad.
Context {py_callback py_agent : Type}.
Variable build_py_agent : Snapshot.agent → Snapshot.config → Z → py_agent.
Variable initial_server_state : Snapshot.server_state.

Local Abbreviation save :=
  (simulator_save (py_callback := py_callback)
     Snapshot.simulator_codec Snapshot.server_state_codec).
Local Abbreviation load :=
  (simulator_load (py_callback := py_callback)
     Snapshot.simulator_codec Snapshot.server_state_codec
     Snapshot.get_agent_state Snapshot.current_tick Snapshot.configuration
     build_py_agent initial_server_state).

(** C8.  The file that [simulator_save] writes is the simulator state
    followed by the owned agent ids, the owned semaphore ids (each list with
    its count first) and the server state; loading it succeeds, and saving
    the loaded simulator writes the same bytes again. *)
Theorem save_load_save (sim_handle : simulator) (cb : py_callback) :
  simulator_wf Snapshot.simulator_codec Snapshot.server_state_codec
    Snapshot.get_agent_state sim_handle →
  save sim_handle
  = enc Snapshot.simulator_codec (sim sim_handle)
    ++ write_uint64 (Z.of_nat (length (agent_ids (data sim_handle))))
    ++ write_uint64_array (agent_ids (data sim_handle))
    ++ write_uint64 (Z.of_nat (length (semaphore_ids (data sim_handle))))
    ++ write_uint64_array (semaphore_ids (data sim_handle))
    ++ enc Snapshot.server_state_codec (server (data sim_handle))
  ∧ ∃ l,
      load (save sim_handle) cb = Some (Py_value l)
      ∧ save (loaded_simulator l) = save sim_handle.
Proof.
  intros Hwf. split; [reflexivity |].
  apply save_load_save_generic.
  - apply SnapshotFacts.simulator_codec_ok.
  - apply SnapshotFacts.server_state_codec_ok.
  - exact Hwf.
Qed.

End SaveLoad.

Ltac codec_wf :=
  repeat first
    [ exact I
    | lia
    | split
    | apply Forall_nil_2
    | apply Forall_cons_2
    | match goal with
      | |- context [map_to_list ?m] =>
          let l := eval vm_compute in (map_to_list m) in
          change (map_to_list m) with l
      end
    | progress simpl ].

Lemma example_handle_wf :
  simulator_wf Snapshot.simulator_codec Snapshot.server_state_codec
    Snapshot.get_agent_state SnapshotExample.handle.
Proof.
  unfold simulator_wf.
  cbn [data sim server agent_ids semaphore_ids SnapshotExample.handle].
  split; [| split; [| repeat split]].
  - codec_wf.
  - codec_wf.
  - codec_wf.
  - codec_wf.
  - apply Forall_cons_2; [| apply Forall_nil_2].
    exists SnapshotExample.agent_7. vm_compute. reflexivity.
Defined.

Example example_file_length :
  length (simulator_save Snapshot.simulator_codec Snapshot.server_state_codec
            SnapshotExample.handle) = 637%nat.
Proof. vm_compute. reflexivity. Qed.

Lemma save_load_save_witness :
  ∃ l,
    simulator_load Snapshot.simulator_codec Snapshot.server_state_codec
      Snapshot.get_agent_state Snapshot.current_tick Snapshot.configuration
      (λ agent _ id, (id, Snapshot.current_position agent)) ∅
      (simulator_save Snapshot.simulator_codec Snapshot.server_state_codec
         SnapshotExample.handle) tt
    = Some (Py_value l)
    ∧ simulator_save Snapshot.simulator_codec Snapshot.server_state_codec
        (loaded_simulator l)
      = simulator_save Snapshot.simulator_codec Snapshot.server_state_codec
          SnapshotExample.handle.
Proof.
  apply (save_load_save (λ agent _ id, (id, Snapshot.current_position agent)) ∅
           SnapshotExample.handle tt).
  exact example_handle_wf.
Defined.

Example agent_states_of_example :
  simulator_agent_states_client (λ agent _ id, (id, Snapshot.current_position agent))
    SnapshotExample.configuration true true OK
    (server_reply Snapshot.get_agent_state SnapshotExample.state [9; 7; 7; 2])
    [9; 7; 7; 2]
  = Some (Py_value [None; Some (7, mk_position 0 0); Some (7, mk_position 0 0); None]).
Proof. vm_compute. reflexivity. Qed.

Example agent_states_permission_denied :
  simulator_agent_states_client (λ agent _ id, (id, Snapshot.current_position agent))
    SnapshotExample.configuration true true PERMISSION_DENIED
    (mk_agent_state_array [] []) [7]
  = Some Py_None.
Proof. reflexivity. Qed.

(* ===================================================================== *)
(** * More about the energy functions                                     *)
(* ===================================================================== *)

Section HashFacts.

Lemma testbit_above (x n : Z) : 0 ≤ x < 2 ^ 32 → 32 ≤ n → Z.testbit x n = false.
Proof.
  intros Hx Hn. rewrite <- (Z.mod_small x (2 ^ 32)) by exact Hx.
  apply Z.mod_pow2_bits_high. lia.
Qed.

Lemma below_of_testbit (y : Z) :
  0 ≤ y → (∀ n, 32 ≤ n → Z.testbit y n = false) → 0 ≤ y < 2 ^ 32.
Proof.
  intros Hy Hbits. split; [exact Hy |].
  assert (Hmod : y mod 2 ^ 32 = y).
  { apply Z.bits_inj'. intros n Hn.
    destruct (Z.lt_ge_cases n 32) as [Hlt | Hge].
    - apply Z.mod_pow2_bits_low. exact Hlt.
    - rewrite Z.mod_pow2_bits_high by lia. symmetry. apply Hbits. exact Hge. }
  rewrite <- Hmod. apply Z.mod_pos_bound. lia.
Qed.

(** [x ^= x >> 16] keeps a 32-bit word a 32-bit word and undoes itself. *)
Lemma xorshift16_range (x : Z) :
  0 ≤ x < 2 ^ 32 → 0 ≤ Z.lxor x (Z.shiftr x 16) < 2 ^ 32.
Proof.
  intros Hx. apply below_of_testbit.
  - apply Z.lxor_nonneg. split; intros _; [apply Z.shiftr_nonneg |]; lia.
  - intros n Hn. rewrite Z.lxor_spec, Z.shiftr_spec by lia.
    rewrite !testbit_above by (try exact Hx; lia). reflexivity.
Qed.

Lemma xorshift16_involutive (x : Z) :
  0 ≤ x < 2 ^ 32 →
  let y := Z.lxor x (Z.shiftr x 16) in
  Z.lxor y (Z.shiftr y 16) = x.
Proof.
  intros Hx y. subst y. apply Z.bits_inj'. intros n Hn.
  rewrite !Z.lxor_spec, !Z.shiftr_spec by lia.
  rewrite Z.lxor_spec, Z.shiftr_spec by lia.
  rewrite (testbit_above x (n + 16 + 16)) by (try exact Hx; lia).
  destruct (Z.testbit x n), (Z.testbit x (n + 16)); reflexivity.
Qed.

Lemma wrap32_range (z : Z) : 0 ≤ wrap32 z < 2 ^ 32.
Proof. unfold wrap32. apply Z.mod_pos_bound. lia. Qed.

(** The two multipliers are inverse to each other modulo [2^32]. *)
Lemma multiplier_inverse (x a b : Z) :
  (a * b) mod 2 ^ 32 = 1 → 0 ≤ x < 2 ^ 32 →
  wrap32 (wrap32 (x * a) * b) = x.
Proof.
  intros Hab Hx. unfold wrap32.
  rewrite Z.mul_mod_idemp_l by lia.
  rewrite <- Z.mul_assoc, <- Z.mul_mod_idemp_r, Hab by lia.
  rewrite Z.mul_1_r. apply Z.mod_small. exact Hx.
Qed.

Lemma unmix32_mix32 (x : Z) :
  0 ≤ x < 2 ^ 32 → murmurhash32_unmix32 (murmurhash32_mix32 x) = x.
Proof.
  intros Hx. unfold murmurhash32_unmix32, murmurhash32_mix32. cbv zeta.
  pose proof (xorshift16_range x Hx) as H1.
  set (x1 := Z.lxor x (Z.shiftr x 16)) in *.
  pose proof (wrap32_range (x1 * 73244475)) as H2.
  set (x2 := wrap32 (x1 * 73244475)) in *.
  pose proof (xorshift16_range x2 H2) as H3.
  set (x3 := Z.lxor x2 (Z.shiftr x2 16)) in *.
  pose proof (wrap32_range (x3 * 73244475)) as H4.
  set (x4 := wrap32 (x3 * 73244475)) in *.
  rewrite (xorshift16_involutive x4 H4).
  subst x4. rewrite (multiplier_inverse x3) by (try exact H3; reflexivity).
  subst x3. rewrite (xorshift16_involutive x2 H2).
  subst x2. rewrite (multiplier_inverse x1) by (try exact H1; reflexivity).
  subst x1. apply (xorshift16_involutive x Hx).
Qed.

Lemma mix32_unmix32 (x : Z) :
  0 ≤ x < 2 ^ 32 → murmurhash32_mix32 (murmurhash32_unmix32 x) = x.
Proof.
  intros Hx. unfold murmurhash32_unmix32, murmurhash32_mix32. cbv zeta.
  pose proof (xorshift16_range x Hx) as H1.
  set (x1 := Z.lxor x (Z.shiftr x 16)) in *.
  pose proof (wrap32_range (x1 * 295559667)) as H2.
  set (x2 := wrap32 (x1 * 295559667)) in *.
  pose proof (xorshift16_range x2 H2) as H3.
  set (x3 := Z.lxor x2 (Z.shiftr x2 16)) in *.
  pose proof (wrap32_range (x3 * 295559667)) as H4.
  set (x4 := wrap32 (x3 * 295559667)) in *.
  rewrite (xorshift16_involutive x4 H4).
  subst x4. rewrite (multiplier_inverse x3) by (try exact H3; reflexivity).
  subst x3. rewrite (xorshift16_involutive x2 H2).
  subst x2. rewrite (multiplier_inverse x1) by (try exact H1; reflexivity).
  subst x1. apply (xorshift16_involutive x Hx).
Qed.

Lemma mix32_range (x : Z) : 0 ≤ x < 2 ^ 32 → 0 ≤ murmurhash32_mix32 x < 2 ^ 32.
Proof.
  intros Hx. unfold murmurhash32_mix32. cbv zeta.
  apply xorshift16_range, wrap32_range.
Qed.

Lemma unmix32_range (x : Z) : 0 ≤ x < 2 ^ 32 → 0 ≤ murmurhash32_unmix32 x < 2 ^ 32.
Proof.
  intros Hx. unfold murmurhash32_unmix32. cbv zeta.
  apply xorshift16_range, wrap32_range.
Qed.

(** X1.  [murmurhash32_mix32] permutes the 32-bit words: its value is a 32-bit
    word, two different words never get the same value, and every word is the
    value of some word. *)
Theorem murmurhash32_mix32_is_a_permutation (x y : Z) :
  0 ≤ x < 2 ^ 32 → 0 ≤ y < 2 ^ 32 →
  0 ≤ murmurhash32_mix32 x < 2 ^ 32
  ∧ (murmurhash32_mix32 x = murmurhash32_mix32 y → x = y)
  ∧ ∃ z, 0 ≤ z < 2 ^ 32 ∧ murmurhash32_mix32 z = x.
Proof.
  intros Hx Hy. split; [apply mix32_range; exact Hx |]. split.
  - intros Heq. rewrite <- (unmix32_mix32 x Hx), <- (unmix32_mix32 y Hy), Heq.
    reflexivity.
  - exists (murmurhash32_unmix32 x).
    split; [apply unmix32_range; exact Hx | apply mix32_unmix32; exact Hx].
Qed.

Lemma murmurhash32_mix32_is_a_permutation_witness :
  0 ≤ murmurhash32_mix32 12345 < 2 ^ 32
  ∧ (murmurhash32_mix32 12345 = murmurhash32_mix32 54321 → 12345 = 54321)
  ∧ ∃ z, 0 ≤ z < 2 ^ 32 ∧ murmurhash32_mix32 z = 12345.
Proof. apply (murmurhash32_mix32_is_a_permutation 12345 54321); lia. Defined.

End HashFacts.

Section EnergyEdges.
Context {float : Type} {H : FloatOps float}.

(** X2.  The registry accepts RADIAL_HASH with any four arguments and CROSS_HASH
    with any eight, and both functions divide by [scale], the argument cast
    to [uint32_t].  The value of CROSS_HASH is undefined exactly when
    [scale] is 0.  The value of RADIAL_HASH is undefined exactly when
    [scale] is 0 or the cast [(uint32_t) sqrt(pos.squared_length())] is: the
    root is taken in double precision, and it does not fit 32 bits when the
    position is far enough from the origin.  (For positions whose squared
    length fits the [uint64_t] that [squared_length] returns.) *)
Theorem hash_energy_undefined_cases (pos pos2 : position)
    (shift_arg scale_arg a1 a2 a3 a4 a5 a6 a7 : float) (shift scale : Z) :
  f_to_uint32 shift_arg = Some shift →
  f_to_uint32 scale_arg = Some scale →
  squared_length pos < 2 ^ 64 →
  let radial_args := [shift_arg; scale_arg; a2; a3] in
  let cross_args := [scale_arg; a1; a2; a3; a4; a5; a6; a7] in
  get_intensity_fn intensity_fns.RADIAL_HASH radial_args (length radial_args)
  = Some radial_hash_intensity_fn
  ∧ (call_intensity radial_hash_intensity_fn pos radial_args = None
     ↔ scale = 0 ∨ sqrt_to_uint32 (squared_length pos) = None)
  ∧ get_interaction_fn interaction_fns.CROSS_HASH cross_args (length cross_args)
    = Some cross_hash_interaction_fn
  ∧ (call_interaction cross_hash_interaction_fn pos pos2 cross_args = None
     ↔ scale = 0).
Proof.
  intros Hshift Hscale _ radial_args cross_args.
  split; [reflexivity |]. split; [| split; [reflexivity |]].
  - cbn [call_intensity]. unfold radial_hash_intensity, hash_function, arg.
    subst radial_args. cbn [lookup list_lookup mbind option_bind].
    rewrite Hshift, Hscale. cbn [mbind option_bind].
    destruct (sqrt_to_uint32 (squared_length pos)) as [root |];
      cbn [mbind option_bind]; [| split; [right; reflexivity | reflexivity]].
    unfold udiv, umod. destruct (Z.eqb_spec scale 0) as [-> | Hne].
    + split; [left; reflexivity | reflexivity].
    + cbn [mbind option_bind].
      split; [intros Hnone | intros [Hz | Hz]; [contradiction | discriminate Hz]].
      destruct (f_ltb _ _); discriminate Hnone.
  - cbn [call_interaction]. unfold cross_hash_interaction, hash_function, arg.
    subst cross_args. cbn [lookup list_lookup mbind option_bind].
    rewrite Hscale. cbn [mbind option_bind].
    unfold udiv, umod. destruct (Z.eqb_spec scale 0) as [-> | Hne].
    + split; reflexivity.
    + cbn [mbind option_bind].
      split; [intros Hnone | intros Hz; contradiction].
      repeat match type of Hnone with
             | context [if ?b then _ else _] => destruct b
             end; discriminate Hnone.
Qed.

(** X3.  Every interaction function but CROSS_HASH gives the same value when its
    two positions are exchanged. *)
Theorem interaction_function_symmetric (f : interaction_function)
    (p1 p2 : position) (args : list float) :
  f ≠ cross_hash_interaction_fn →
  call_interaction f p1 p2 args = call_interaction f p2 p1 args.
Proof.
  assert (Habs : ∀ a b : Z, Z.abs (a - b) = Z.abs (b - a)) by (intros; lia).
  intros Hf. destruct f; try contradiction;
    try (apply is_stationary_symmetric; reflexivity).
  - cbn [call_interaction]. unfold four_interaction, position_sub; simpl.
    rewrite (Habs (px p1)), (Habs (py p1)). reflexivity.
  - cbn [call_interaction]. unfold gaussian_interaction, position_sub; simpl.
    replace (- (px p2 - px p1) * (px p2 - px p1))
      with (- (px p1 - px p2) * (px p1 - px p2)) by ring.
    replace ((py p2 - py p1) * (py p2 - py p1))
      with ((py p1 - py p2) * (py p1 - py p2)) by ring.
    reflexivity.
Qed.

(** X4.  MOORE rewards exactly the positions at Chebyshev distance at most 1 (the
    eight neighbours and the position itself) and FOUR exactly those at
    Manhattan distance at most 1 (the four neighbours and the position
    itself); every other pair of positions gets -200. *)
Theorem moore_and_four_neighborhoods (p1 p2 : position) (args : list float) :
  let dx := Z.abs (px p1 - px p2) in
  let dy := Z.abs (py p1 - py p2) in
  call_interaction moore_interaction_fn p1 p2 args
  = Some (if decide (Z.max dx dy ≤ 1) then f_of_Z 1 else f_of_Z (-200))
  ∧ call_interaction four_interaction_fn p1 p2 args
    = Some (if decide (dx + dy ≤ 1) then f_of_Z 1 else f_of_Z (-200)).
Proof.
  intros dx dy. cbn [call_interaction].
  unfold moore_interaction, four_interaction, position_sub. cbn [px py].
  subst dx dy.
  destruct (Z.ltb_spec (Z.abs (px p1 - px p2)) 2),
    (Z.ltb_spec (Z.abs (py p1 - py p2)) 2),
    (Z.ltb_spec (Z.abs (px p1 - px p2)) 1),
    (Z.ltb_spec (Z.abs (py p1 - py p2)) 1);
    cbn [andb]; repeat case_decide; try (split; reflexivity); lia.
Qed.

End EnergyEdges.

(** The double-precision root is not the integer root: just below the square
    of 100820001 it rounds up to 100820001; and at the top of the 64-bit
    range it rounds to [2^32], which the cast cannot hold. *)
Example sqrt_to_uint32_rounds :
  sqrt_to_uint32 (100820001 * 100820001 - 1) = Some 100820001
  ∧ Z.sqrt (100820001 * 100820001 - 1) = 100820000
  ∧ sqrt_to_uint32 (2 ^ 64 - 1) = None.
Proof. repeat split; vm_compute; reflexivity. Qed.

Lemma hash_energy_undefined_cases_witness :
  call_intensity (H := Binary32.ops) radial_hash_intensity_fn (mk_position 3 4)
    [Binary32.of_Z 3; Binary32.of_Z 0; Binary32.of_Z 1; Binary32.of_Z 1] = None.
Proof.
  destruct (hash_energy_undefined_cases (H := Binary32.ops)
              (mk_position 3 4) (mk_position 0 0)
              (Binary32.of_Z 3) (Binary32.of_Z 0) (Binary32.of_Z 1)
              (Binary32.of_Z 1) (Binary32.of_Z 1) (Binary32.of_Z 1)
              (Binary32.of_Z 1) (Binary32.of_Z 1) (Binary32.of_Z 1) 3 0)
    as (_ & Hradial & _); [reflexivity | reflexivity | reflexivity |].
  apply Hradial. left. reflexivity.
Defined.

Lemma interaction_function_symmetric_witness :
  call_interaction (H := Binary32.ops) gaussian_interaction_fn
    (mk_position 1 5) (mk_position 4 2) [Binary32.of_Z 2; Binary32.of_Z 7]
  = call_interaction (H := Binary32.ops) gaussian_interaction_fn
      (mk_position 4 2) (mk_position 1 5) [Binary32.of_Z 2; Binary32.of_Z 7].
Proof.
  apply (interaction_function_symmetric (H := Binary32.ops)
           gaussian_interaction_fn (mk_position 1 5) (mk_position 4 2)).
  discriminate.
Defined.

(* ===================================================================== *)
(** * The function pointers on a stream                                   *)
(* ===================================================================== *)

Lemma byte_of_Z_of_byte (b : byte) : byte_of_Z (Z_of_byte b) = b.
Proof.
  unfold byte_of_Z, Z_of_byte. rewrite N2Z.id, Byte.of_to_N. reflexivity.
Qed.

Lemma Z_of_byte_range (b : byte) : 0 ≤ Z_of_byte b < 256.
Proof.
  unfold Z_of_byte. pose proof (Byte.to_N_bounded b). lia.
Qed.

Lemma le_value_range (bytes : list byte) :
  0 ≤ le_value bytes < 256 ^ Z.of_nat (length bytes).
Proof.
  induction bytes as [| b rest IH]; simpl le_value.
  - simpl. lia.
  - cbn [length]. rewrite Nat2Z.inj_succ, Z.pow_succ_r by lia.
    pose proof (Z_of_byte_range b). lia.
Qed.

Lemma le_bytes_le_value (bytes : list byte) :
  le_bytes (length bytes) (le_value bytes) = bytes.
Proof.
  induction bytes as [| b rest IH]; [reflexivity |].
  cbn [length le_bytes le_value].
  pose proof (Z_of_byte_range b) as Hb.
  rewrite (Z.mul_comm 256 (le_value rest)).
  rewrite Z.mod_add, Z.div_add by lia.
  rewrite (Z.mod_small (Z_of_byte b)), (Z.div_small (Z_of_byte b)) by exact Hb.
  rewrite Z.add_0_l.
  rewrite byte_of_Z_of_byte, IH. reflexivity.
Qed.

(** What [read_uint64] accepts is the encoding of the value it returns,
    followed by the rest it returns. *)
Lemma read_uint64_inverts (input rest : list byte) (z : Z) :
  read_uint64 input = Some (z, rest) →
  0 ≤ z < 2 ^ 64 ∧ input = write_uint64 z ++ rest.
Proof.
  unfold read_uint64, read_uint, write_uint64.
  destruct (decide (length input < 8)%nat) as [Hshort | Hlong]; [discriminate |].
  intros [= <- <-].
  assert (Hlen : length (take 8 input) = 8%nat) by (rewrite length_take; lia).
  split.
  - pose proof (le_value_range (take 8 input)) as Hr. rewrite Hlen in Hr.
    change (256 ^ Z.of_nat 8) with (2 ^ 64) in Hr. exact Hr.
  - rewrite <- Hlen at 1. rewrite le_bytes_le_value. symmetry. apply take_drop.
Qed.

Ltac tag_cases :=
  repeat (case_decide; subst; try discriminate; try done; simplify_eq).

(** X5.  Writing a function pointer and reading it back gives the same function
    and leaves the rest of the stream; [write] never takes its failing
    branch. *)
Theorem function_pointer_write_then_read (rest : list byte) :
  (∀ f, ∃ bytes, write_intensity_function f = Some bytes
                 ∧ length bytes = 8%nat
                 ∧ read_intensity_function (bytes ++ rest) = Some (f, rest))
  ∧ (∀ f, ∃ bytes, write_interaction_function f = Some bytes
                   ∧ length bytes = 8%nat
                   ∧ read_interaction_function (bytes ++ rest) = Some (f, rest))
  ∧ (∀ f, ∃ bytes, write_regeneration_function f = Some bytes
                   ∧ length bytes = 8%nat
                   ∧ read_regeneration_function (bytes ++ rest) = Some (f, rest)).
Proof.
  split; [| split]; intros f; destruct f; eexists;
    (split; [reflexivity |]); (split; [reflexivity |]);
    match goal with
    | |- ?read (write_uint64 ?z ++ _) = _ =>
        unfold read; rewrite (read_write_uint64 z) by (vm_compute; split; congruence)
    end; reflexivity.
Qed.

(** X6.  Reading succeeds exactly on a stream that starts with the eight bytes of
    a tag of the enumeration: what [read] accepts is what [write] writes for
    the function it returns, followed by the rest it returns. *)
Theorem function_pointer_read_inverts_write (input rest : list byte) :
  (∀ f, read_intensity_function input = Some (f, rest) →
        ∃ bytes, write_intensity_function f = Some bytes ∧ input = bytes ++ rest)
  ∧ (∀ f, read_interaction_function input = Some (f, rest) →
          ∃ bytes, write_interaction_function f = Some bytes ∧ input = bytes ++ rest)
  ∧ (∀ f, read_regeneration_function input = Some (f, rest) →
          ∃ bytes, write_regeneration_function f = Some bytes ∧ input = bytes ++ rest).
Proof.
  split; [| split]; intros f Hread.
  - unfold read_intensity_function in Hread.
    destruct (read_uint64 input) as [[c input'] |] eqn:Hc; [| discriminate].
    apply read_uint64_inverts in Hc as [_ ->]. cbn [mbind option_bind] in Hread.
    revert Hread. tag_cases; intros; simplify_eq; eexists; (split; [reflexivity |]);
      reflexivity.
  - unfold read_interaction_function in Hread.
    destruct (read_uint64 input) as [[c input'] |] eqn:Hc; [| discriminate].
    apply read_uint64_inverts in Hc as [_ ->]. cbn [mbind option_bind] in Hread.
    revert Hread. tag_cases; intros; simplify_eq; eexists; (split; [reflexivity |]);
      reflexivity.
  - unfold read_regeneration_function in Hread.
    destruct (read_uint64 input) as [[c input'] |] eqn:Hc; [| discriminate].
    apply read_uint64_inverts in Hc as [_ ->]. cbn [mbind option_bind] in Hread.
    revert Hread. tag_cases; intros; simplify_eq; eexists; (split; [reflexivity |]);
      reflexivity.
Qed.

(** X7.  Reading fails on a stream of fewer than eight bytes and on a tag outside
    the enumeration: 3 and above for the intensity and the regeneration
    functions, 7 and above for the interaction functions. *)
Theorem function_pointer_read_rejects (input : list byte) :
  (read_intensity_function input = None
   ↔ (length input < 8)%nat ∨ 3 ≤ le_value (take 8 input))
  ∧ (read_interaction_function input = None
     ↔ (length input < 8)%nat ∨ 7 ≤ le_value (take 8 input))
  ∧ (read_regeneration_function input = None
     ↔ (length input < 8)%nat ∨ 3 ≤ le_value (take 8 input)).
Proof.
  pose proof (le_value_range (take 8 input)) as [Hnonneg _].
  unfold read_intensity_function, read_interaction_function,
    read_regeneration_function, read_uint64, read_uint.
  destruct (decide (length input < 8)%nat) as [Hshort | Hlong].
  - cbn [mbind option_bind]. repeat split; auto.
  - cbn [mbind option_bind].
    set (c := le_value (take 8 input)) in *.
    change (Z.of_N intensity_fns.ZERO) with 0.
    change (Z.of_N intensity_fns.CONSTANT) with 1.
    change (Z.of_N intensity_fns.RADIAL_HASH) with 2.
    change (Z.of_N interaction_fns.ZERO) with 0.
    change (Z.of_N interaction_fns.PIECEWISE_BOX) with 1.
    change (Z.of_N interaction_fns.CROSS) with 2.
    change (Z.of_N interaction_fns.CROSS_HASH) with 3.
    change (Z.of_N interaction_fns.MOORE) with 4.
    change (Z.of_N interaction_fns.GAUSSIAN) with 5.
    change (Z.of_N interaction_fns.FOUR) with 6.
    change (Z.of_N regeneration_fns.ZERO) with 0.
    change (Z.of_N regeneration_fns.CONSTANT) with 1.
    change (Z.of_N regeneration_fns.CUSTOM) with 2.
    repeat split; intros Hcase;
      repeat case_decide; try discriminate; try lia; try reflexivity;
      try (right; lia); try (destruct Hcase; lia).
Qed.

(* ===================================================================== *)
(** * More about the cache                                                *)
(* ===================================================================== *)

Section CacheScalarFacts.
Context {float : Type} {H : FloatOps float}.

Local Abbreviation gibbs_field_cache := (@gibbs_field_cache float).

(** The functions that [is_stationary] accepts take the same value at every
    position (and, for a regeneration function, at every time). *)
Lemma stationary_intensity_constant (f : intensity_function) (pos pos' : position)
    (args : list float) :
  is_stationary_intensity f = true →
  call_intensity f pos args = call_intensity f pos' args.
Proof. destruct f; simpl; intros Hs; try discriminate Hs; reflexivity. Qed.

Lemma cached_regeneration_constant (f : regeneration_function)
    (pos pos' : position) (time time' : Z) (args : list float) :
  cached_regeneration f = true →
  call_regeneration f pos time args = call_regeneration f pos' time' args.
Proof. destruct f; simpl; intros Hs; try discriminate Hs; reflexivity. Qed.

(** The loop over [j] of [init_helper] writes to [interactions] only. *)
Lemma init_helper_row_keeps_scalars (it : item_properties) (count i : Z)
    (c3 c4 : gibbs_field_cache) :
  0 ≤ count →
  for_range 0 count (fun j c =>
      ef ← array_get (interaction_fns it) j;
      let interaction := fn ef in
      if negb (is_constant interaction) && is_stationary interaction then
        table ← fill_table interaction (args ef) (two_n c) (four_n c)
                  (replicate (Z.to_nat (four_n c * four_n c)) None);
        set_interactions c <$>
          array_set (interactions c) (wrap32 (wrap32 (i * count) + j)) (Some table)
      else
        set_interactions c <$>
          array_set (interactions c) (wrap32 (wrap32 (i * count) + j)) None)
    c3 = Some c4 →
  intensities c4 = intensities c3 ∧ regenerations c4 = regenerations c3
  ∧ same_config c3 c4.
Proof.
  intros Hcount.
  apply (for_range_inv
           (λ (_ : Z) c, intensities c = intensities c3
                         ∧ regenerations c = regenerations c3
                         ∧ same_config c3 c)); [exact Hcount | |].
  - split; [reflexivity |]. split; [reflexivity | apply same_config_refl].
  - intros j c c' _ (Hi & Hr & Hcfg) Hstep.
    destruct (array_get (interaction_fns it) j) as [ef |];
      simpl in Hstep; [| discriminate].
    destruct (negb (is_constant (fn ef)) && is_stationary (fn ef)).
    + destruct (fill_table _ _ _ _ _) as [table |]; simpl in Hstep; [| discriminate].
      destruct (array_set _ _ _) as [a |]; simpl in Hstep; [| discriminate].
      injection Hstep as <-. split; [exact Hi |]. split; [exact Hr |].
      by apply same_config_set_interactions.
    + destruct (array_set _ _ _) as [a |]; simpl in Hstep; [| discriminate].
      injection Hstep as <-. split; [exact Hi |]. split; [exact Hr |].
      by apply same_config_set_interactions.
Qed.

Lemma init_helper_scalars (c0 c : gibbs_field_cache) (n : Z) :
  init_helper c0 n = Some c →
  same_config c0 c
  ∧ ∀ i, 0 ≤ i < item_type_count c0 → scalar_ok c0 c i.
Proof.
  intros Hinit. unfold init_helper in Hinit.
  set (count := item_type_count c0) in *.
  destruct (Z.le_gt_cases 0 count) as [Hcount | Hneg].
  2:{ unfold for_range in Hinit.
      replace (Z.to_nat (count - 0)) with 0%nat in Hinit by lia.
      injection Hinit as <-. split; [repeat split | intros i Hi; lia]. }
  set (inv (i : Z) (c : gibbs_field_cache) :=
         same_config c0 c
         ∧ length (intensities c) = Z.to_nat count
         ∧ length (regenerations c) = Z.to_nat count
         ∧ ∀ i', 0 ≤ i' < i → scalar_ok c0 c i').
  assert (Hend : inv count c).
  { revert Hinit. apply (for_range_inv inv); [exact Hcount | |].
    - split; [repeat split |].
      split; [simpl; apply length_replicate |].
      split; [simpl; apply length_replicate |].
      intros i' Hi'. lia.
    - intros i c1 c4 Hi (Hcfg & Hlen_i & Hlen_r & Hinv) Hbody.
      assert (Hty : item_types c1 = item_types c0) by apply Hcfg.
      rewrite Hty in Hbody.
      destruct (array_get (item_types c0) i) as [it |] eqn:Hit;
        simpl in Hbody; [| discriminate].
      (* the intensity of item type i *)
      match type of Hbody with
      | (?m ≫= _) = _ => destruct m as [c2 |] eqn:Hc2
      end; simpl in Hbody; [| discriminate].
      assert (H2 : same_config c0 c2
                   ∧ regenerations c2 = regenerations c1
                   ∧ length (intensities c2) = Z.to_nat count
                   ∧ (∀ i', 0 ≤ i' < i →
                        intensities c2 !! Z.to_nat i' = intensities c1 !! Z.to_nat i')
                   ∧ (is_stationary_intensity (fn (intensity_fn it)) = true →
                      ∃ v, intensities c2 !! Z.to_nat i = Some (Some v)
                           ∧ call_intensity (fn (intensity_fn it)) (mk_position 0 0)
                               (args (intensity_fn it)) = Some v)).
      { destruct (is_stationary_intensity (fn (intensity_fn it))).
        - destruct (call_intensity _ _ _) as [v |] eqn:Hv; simpl in Hc2;
            [| discriminate].
          destruct (array_set (intensities c1) i (Some v)) as [a |] eqn:Ha;
            simpl in Hc2; [| discriminate].
          injection Hc2 as <-. apply array_set_Some in Ha as [Hin ->].
          split; [by apply same_config_set_intensities |].
          split; [reflexivity |].
          split; [simpl; rewrite length_insert; exact Hlen_i |]. split.
          + intros i' Hi'. simpl. apply list_lookup_insert_ne. lia.
          + intros _. exists v. split; [| reflexivity].
            simpl. apply list_lookup_insert_eq. lia.
        - injection Hc2 as <-. split; [exact Hcfg |]. split; [reflexivity |].
          split; [exact Hlen_i |]. split; [reflexivity | discriminate]. }
      destruct H2 as (Hcfg2 & Hreg2 & Hlen2 & Hold2 & Hnew2).
      (* the regeneration of item type i *)
      match type of Hbody with
      | (?m ≫= _) = _ => destruct m as [c3 |] eqn:Hc3
      end; simpl in Hbody; [| discriminate].
      assert (H3 : same_config c0 c3
                   ∧ intensities c3 = intensities c2
                   ∧ length (regenerations c3) = Z.to_nat count
                   ∧ (∀ i', 0 ≤ i' < i →
                        regenerations c3 !! Z.to_nat i'
                        = regenerations c1 !! Z.to_nat i')
                   ∧ (cached_regeneration (fn (regeneration_fn it)) = true →
                      ∃ v, regenerations c3 !! Z.to_nat i = Some (Some v)
                           ∧ call_regeneration (fn (regeneration_fn it))
                               (mk_position 0 0) 0 (args (regeneration_fn it))
                             = Some v)).
      { unfold cached_regeneration.
        destruct (is_stationary_regeneration _ && is_time_independent _).
        - destruct (call_regeneration _ _ _ _) as [v |] eqn:Hv; simpl in Hc3;
            [| discriminate].
          destruct (array_set (regenerations c2) i (Some v)) as [a |] eqn:Ha;
            simpl in Hc3; [| discriminate].
          injection Hc3 as <-. apply array_set_Some in Ha as [Hin ->].
          split; [by apply same_config_set_regenerations |].
          split; [reflexivity |].
          split; [simpl; rewrite length_insert, Hreg2; exact Hlen_r |]. split.
          + intros i' Hi'. simpl. rewrite Hreg2. apply list_lookup_insert_ne. lia.
          + intros _. exists v. split; [| reflexivity].
            simpl. apply list_lookup_insert_eq. lia.
        - injection Hc3 as <-. split; [exact Hcfg2 |]. split; [reflexivity |].
          split; [rewrite Hreg2; exact Hlen_r |].
          split; [intros; rewrite Hreg2; reflexivity | discriminate]. }
      destruct H3 as (Hcfg3 & Hint3 & Hlen3 & Hold3 & Hnew3).
      (* the loop over j leaves the two arrays alone *)
      apply (init_helper_row_keeps_scalars it count i c3 c4 Hcount) in Hbody
        as (Hint4 & Hreg4 & Hcfg4).
      split.
      { destruct Hcfg3 as (? & ? & ? & ?), Hcfg4 as (? & ? & ? & ?).
        repeat split; congruence. }
      split; [rewrite Hint4, Hint3; exact Hlen2 |].
      split; [rewrite Hreg4; exact Hlen3 |].
      intros i' Hi'. destruct (decide (i' = i)) as [-> | Hne].
      + exists it. split; [exact Hit |]. rewrite Hint4, Hint3, Hreg4.
        split; [exact Hnew2 | exact Hnew3].
      + destruct (Hinv i') as (it' & Hit' & Hi1 & Hr1); [lia |].
        exists it'. split; [exact Hit' |].
        rewrite Hint4, Hint3, Hreg4, Hold2, Hold3 by lia.
        split; [exact Hi1 | exact Hr1]. }
  destruct Hend as (Hcfg & _ & _ & Hall). split; [exact Hcfg | exact Hall].
Qed.

(** X8.  For a cache built by [init], [intensity(pos, item_type)] is the value of
    the item type's intensity function at [pos], whether it comes from the
    array filled at construction or from a call; for a stationary function
    the value exists. *)
Theorem cached_intensity_refines_function (types : list item_properties)
    (count n : Z) (c : gibbs_field_cache) (t : Z) (it : item_properties)
    (pos : position) :
  init types count n = Some c →
  0 ≤ t < count →
  array_get types t = Some it →
  intensity c pos t
  = call_intensity (fn (intensity_fn it)) pos (args (intensity_fn it))
  ∧ (is_stationary_intensity (fn (intensity_fn it)) = true →
     is_Some (intensity c pos t)).
Proof.
  intros Hinit Ht Hit. unfold init in Hinit.
  apply init_helper_scalars in Hinit as [(_ & _ & Hty & _) Hall].
  cbn [item_types item_type_count] in Hty, Hall.
  destruct (Hall t Ht) as (it' & Hit' & Hint & _).
  cbn [item_types] in Hit'. assert (it' = it) as -> by congruence.
  unfold intensity. rewrite Hty, Hit. cbn [mbind option_bind].
  destruct (is_stationary_intensity (fn (intensity_fn it))) eqn:Hs.
  - destruct (Hint eq_refl) as (v & Hv & Hcall).
    assert (Hget : array_get (intensities c) t = Some (Some v)).
    { apply array_get_Some. split; [lia | exact Hv]. }
    rewrite Hget. cbn [mjoin option_join].
    rewrite (stationary_intensity_constant _ pos (mk_position 0 0) _ Hs), Hcall.
    split; [reflexivity | eauto].
  - split; [reflexivity | discriminate].
Qed.

(** X9.  For a cache built by [init], [regeneration(pos, time, item_type)] is the
    value of the item type's regeneration function at [pos] and [time]. *)
Theorem cached_regeneration_refines_function (types : list item_properties)
    (count n : Z) (c : gibbs_field_cache) (t : Z) (it : item_properties)
    (pos : position) (time : Z) :
  init types count n = Some c →
  0 ≤ t < count →
  array_get types t = Some it →
  regeneration c pos time t
  = call_regeneration (fn (regeneration_fn it)) pos time (args (regeneration_fn it))
  ∧ (cached_regeneration (fn (regeneration_fn it)) = true →
     is_Some (regeneration c pos time t)).
Proof.
  intros Hinit Ht Hit. unfold init in Hinit.
  apply init_helper_scalars in Hinit as [(_ & _ & Hty & _) Hall].
  cbn [item_types item_type_count] in Hty, Hall.
  destruct (Hall t Ht) as (it' & Hit' & _ & Hreg).
  cbn [item_types] in Hit'. assert (it' = it) as -> by congruence.
  unfold regeneration. rewrite Hty, Hit. cbn [mbind option_bind].
  fold (cached_regeneration (fn (regeneration_fn it))).
  destruct (cached_regeneration (fn (regeneration_fn it))) eqn:Hs.
  - destruct (Hreg eq_refl) as (v & Hv & Hcall).
    assert (Hget : array_get (regenerations c) t = Some (Some v)).
    { apply array_get_Some. split; [lia | exact Hv]. }
    rewrite Hget. cbn [mjoin option_join].
    rewrite (cached_regeneration_constant _ pos (mk_position 0 0) time 0 _ Hs), Hcall.
    split; [reflexivity | eauto].
  - split; [reflexivity | discriminate].
Qed.

(** X10.  Two positions whose displacement falls outside the table of a cached
    pair of item types.  A build without [NDEBUG] answers 0, whatever the
    interaction function says there (MOORE says -200); a build with [NDEBUG]
    reads the table at the unchecked index, which is outside the array when
    the index is negative or at least [16 n^2]. *)
Theorem interaction_outside_table (types : list item_properties)
    (count n : Z) (c : gibbs_field_cache) (t1 t2 : Z) (it : item_properties)
    (ef : energy_function interaction_function) (p1 p2 : position) :
  0 < n ≤ 2 ^ 14 → count * count < 2 ^ 32 →
  init types count n = Some c →
  0 ≤ t1 < count → 0 ≤ t2 < count →
  array_get types t1 = Some it →
  array_get (interaction_fns it) t2 = Some ef →
  cacheable (fn ef) = true →
  ¬ in_table c (position_sub p1 p2) →
  let x := px p1 - px p2 + 2 * n in
  let y := py p1 - py p2 + 2 * n in
  interaction false c p1 p2 t1 t2 = Some f_zero
  ∧ (fn ef = moore_interaction_fn →
     call_interaction (fn ef) p1 p2 (args ef) = Some (f_of_Z (-200)))
  ∧ (x * (4 * n) + y < 0 ∨ (4 * n) * (4 * n) ≤ x * (4 * n) + y →
     interaction true c p1 p2 t1 t2 = None).
Proof.
  intros Hn Hsq Hinit Ht1 Ht2 Hit0 Hef0 Hc Hout x y.
  destruct (init_entry types count n c t1 t2 Hn Hsq Ht1 Ht2 Hinit)
    as (Htwo & Hfour & Hcnt & it' & ef' & Hit & Hef & Htable).
  assert (Hty : item_types c = types).
  { unfold init in Hinit. apply init_helper_scalars in Hinit as [Hcfg _].
    apply Hcfg. }
  rewrite Hty in Hit. assert (it' = it) as -> by congruence.
  assert (ef' = ef) as -> by congruence.
  destruct (Htable Hc) as (table & Htab & Hlen & _).
  unfold in_table in Hout. cbn [position_add position_sub px py] in Hout.
  rewrite Htwo, Hfour in Hout. fold x y in Hout.
  pose proof (cell_index_bound count t1 t2 Ht1 Ht2) as Hidx.
  split; [| split].
  - unfold interaction. rewrite Hty, Hit0. cbn [mbind option_bind].
    rewrite Hef0. cbn [mbind option_bind]. rewrite (cacheable_branch _ Hc).
    cbn [position_add position_sub px py negb andb]. rewrite Htwo, Hfour.
    fold x y.
    assert (Hrange : (x <? 0) || (x >=? 4 * n) || (y <? 0) || (y >=? 4 * n) = true).
    { destruct (Z.ltb_spec x 0); [reflexivity |].
      destruct (Z.geb_spec x (4 * n)); [reflexivity |].
      destruct (Z.ltb_spec y 0); [reflexivity |].
      destruct (Z.geb_spec y (4 * n)); [reflexivity |]. lia. }
    rewrite Hrange. reflexivity.
  - intros Hmoore. rewrite Hmoore. cbn [call_interaction].
    unfold moore_interaction. cbn [position_sub px py].
    destruct (Z.ltb_spec (Z.abs (px p1 - px p2)) 2);
      destruct (Z.ltb_spec (Z.abs (py p1 - py p2)) 2);
      try reflexivity.
    exfalso. apply Hout. subst x y. lia.
  - intros Hindex. unfold interaction. rewrite Hty, Hit0. cbn [mbind option_bind].
    rewrite Hef0. cbn [mbind option_bind]. rewrite (cacheable_branch _ Hc).
    cbn [position_add position_sub px py negb andb]. rewrite Htwo, Hfour, Hcnt.
    fold x y. rewrite wrap32_small by lia.
    unfold interaction_table in Htab. rewrite Hcnt in Htab. rewrite Htab.
    cbn [mbind option_bind]. unfold array_get.
    destruct (Z.ltb_spec (x * (4 * n) + y) 0) as [Hlt | Hge]; [reflexivity |].
    rewrite (lookup_ge_None_2 table) by lia. reflexivity.
Qed.

End CacheScalarFacts.

Section ConcreteCacheExtras.
Import Worlds.
Local Existing Instance Binary32.ops.

Lemma cached_intensity_refines_function_witness :
  intensity mixed_cache (mk_position 3 7) 1 = Some (f_of_Z (-2)).
Proof.
  destruct (cached_intensity_refines_function mixed_world 2 1 mixed_cache 1
              (mk_item_type [ mk_energy_function _ zero_interaction_fn [];
                              mk_energy_function _ piecewise_box_interaction_fn
                                [f_of_Z 3; f_of_Z 20; f_of_Z (-6); f_of_Z 2] ])
              (mk_position 3 7)) as [Heq _];
    [exact init_mixed_world | lia | reflexivity |].
  rewrite Heq. reflexivity.
Defined.

Lemma cached_regeneration_refines_function_witness :
  regeneration mixed_cache (mk_position 3 7) 12 1 = Some f_zero.
Proof.
  destruct (cached_regeneration_refines_function mixed_world 2 1 mixed_cache 1
              (mk_item_type [ mk_energy_function _ zero_interaction_fn [];
                              mk_energy_function _ piecewise_box_interaction_fn
                                [f_of_Z 3; f_of_Z 20; f_of_Z (-6); f_of_Z 2] ])
              (mk_position 3 7) 12) as [Heq _];
    [exact init_mixed_world | lia | reflexivity |].
  rewrite Heq. reflexivity.
Defined.

(** Two MOORE items five cells apart with patches of size 1: the debug build
    answers 0 where the function says -200, and the release build reads cell
    30 of a table of 16 cells. *)
Lemma interaction_outside_table_witness :
  interaction false moore_cache (mk_position 5 0) (mk_position 0 0) 0 0
  = Some f_zero
  ∧ call_interaction moore_interaction_fn (mk_position 5 0) (mk_position 0 0) []
    = Some (f_of_Z (-200))
  ∧ interaction true moore_cache (mk_position 5 0) (mk_position 0 0) 0 0 = None.
Proof.
  destruct (interaction_outside_table moore_world 1 1 moore_cache 0 0
              (mk_item_type [ mk_energy_function _ moore_interaction_fn [] ])
              (mk_energy_function _ moore_interaction_fn [])
              (mk_position 5 0) (mk_position 0 0))
    as (Hdebug & Hmoore & Hrelease);
    [lia | lia | exact init_moore_world | lia | lia | reflexivity | reflexivity
    | reflexivity | |].
  - intros [[_ Hx] _]. vm_compute in Hx. discriminate Hx.
  - split; [exact Hdebug |]. split; [apply Hmoore; reflexivity |].
    apply Hrelease. right. cbn [px py]. lia.
Defined.

End ConcreteCacheExtras.

(* ===================================================================== *)
(** * More about shuffle                                                  *)
(* ===================================================================== *)

Section ShuffleDraws.
Context {rng_state : Type} {R : RNGType rng_state} {T : Type}.
Variable NDEBUG : bool.

Lemma shuffle_loop_draws (i : nat) :
  ∀ (array : list T) (rng : rng_state),
    (i < length array)%nat → Z.of_nat i + 1 < 2 ^ 32 →
    ∃ array',
      shuffle_loop i array rng = Some (array', Nat.iter i rng_step rng)
      ∧ length array' = length array.
Proof.
  induction i as [| i IH]; intros array rng Hi Hfit.
  - exists array. split; reflexivity.
  - rewrite Nat.iter_succ_r. cbn [shuffle_loop].
    unfold rng_step at 2. destruct (rng_call rng) as [r rng1]. cbn [snd].
    rewrite wrap32_small by lia. rewrite umod_pos by lia.
    cbn [mbind option_bind].
    assert (Hnext : (Z.to_nat (r mod (Z.of_nat (S i) + 1)) < length array)%nat).
    { pose proof (Z.mod_pos_bound r (Z.of_nat (S i) + 1)). lia. }
    destruct (decide (Z.to_nat (r mod (Z.of_nat (S i) + 1)) ≠ S i)) as [Hne | Heq].
    + destruct (swap_is_Some array (Z.to_nat (r mod (Z.of_nat (S i) + 1))) (S i))
        as [array1 Hswap]; [exact Hnext | exact Hi |].
      rewrite Hswap. cbn [mbind option_bind].
      assert (Hlen : length array1 = length array).
      { unfold swap in Hswap.
        destruct (array !! Z.to_nat (r mod (Z.of_nat (S i) + 1))) as [x |];
          simpl in Hswap; [| discriminate Hswap].
        destruct (array !! S i) as [y |]; simpl in Hswap; [| discriminate Hswap].
        injection Hswap as <-. rewrite !length_insert. reflexivity. }
      destruct (IH array1 rng1) as (array' & Hrun & Hlen'); [lia | lia |].
      exists array'. split; [exact Hrun | congruence].
    + cbn [mbind option_bind].
      destruct (IH array rng1) as (array' & Hrun & Hlen'); [lia | lia |].
      exists array'. split; [exact Hrun | exact Hlen'].
Qed.

(** X11.  [shuffle] calls the generator exactly [length - 1] times; an array of one
    element comes back as it is, with the generator untouched. *)
Theorem shuffle_draws (array : list T) (length : Z) (rng : rng_state) :
  length = Z.of_nat (List.length array) → 1 ≤ length < 2 ^ 32 →
  ∃ array',
    shuffle NDEBUG array length rng
    = Some (array', Nat.iter (Z.to_nat (length - 1)) rng_step rng)
    ∧ (length = 1 → array' = array).
Proof.
  intros Hlen Hrange. unfold shuffle.
  destruct (Z.eqb_spec length 0) as [Hz | _]; [lia |].
  rewrite andb_false_r. rewrite wrap32_small by lia.
  destruct (shuffle_loop_draws (Z.to_nat (length - 1)) array rng)
    as (array' & Hrun & _); [lia | lia |].
  exists array'. split; [exact Hrun |].
  intros ->. change (Z.to_nat (1 - 1)) with 0%nat in Hrun.
  cbn [shuffle_loop] in Hrun. congruence.
Qed.

(** X12.  [shuffle] on length 0.  Without [NDEBUG] it warns and returns with the
    array and the generator as they were.  With [NDEBUG] the loop counter
    starts at [0 - 1 = 4294967295], and the first [rng() % (i + 1)] takes a
    remainder modulo [4294967295 + 1 = 0]: the behaviour is undefined. *)
Theorem shuffle_of_length_zero (array : list T) (rng : rng_state) :
  shuffle (R := R) false array 0 rng = Some (array, rng)
  ∧ shuffle (R := R) true array 0 rng = None.
Proof.
  split; [reflexivity |].
  unfold shuffle. cbn [negb andb].
  change (wrap32 (0 - 1)) with 4294967295.
  assert (Hk : ∃ k, Z.to_nat 4294967295 = S k ∧ Z.of_nat (S k) = 4294967295).
  { exists (Z.to_nat 4294967294). split.
    - rewrite <- Z2Nat.inj_succ by lia. f_equal.
    - rewrite Nat2Z.inj_succ, Z2Nat.id by lia. reflexivity. }
  destruct Hk as (k & -> & Hk).
  cbn [shuffle_loop]. destruct (rng_call rng) as [r rng1].
  rewrite Hk. change (wrap32 (4294967295 + 1)) with 0. reflexivity.
Qed.

End ShuffleDraws.

Lemma shuffle_draws_witness :
  ∃ array',
    shuffle (R := Minstd.rng) false [10; 20; 30; 40; 50] 5 1
    = Some (array', 1914720637)
    ∧ (5 = 1 → array' = [10; 20; 30; 40; 50]).
Proof.
  destruct (shuffle_draws (R := Minstd.rng) false [10; 20; 30; 40; 50] 5 1)
    as (array' & Hrun & Hone); [reflexivity | lia |].
  exists array'. split; [| exact Hone].
  etrans; [exact Hrun |]. reflexivity.
Defined.

(* ===================================================================== *)
(** * What the sampler keeps true                                         *)
(* ===================================================================== *)

Section SamplerInvariantFacts.
Context {float : Type} {H : FloatOps float}.
Context {rng_state : Type} {R : RNGType rng_state}.
Variable NDEBUG : bool.
Variable x_first : bool.

Local Abbreviation gibbs_field_cache := (@gibbs_field_cache float).
Local Abbreviation gibbs_field := (@gibbs_field float).
Local Abbreviation sampler_state := (@sampler_state rng_state).

Lemma select_neighborhood_starts (ptr : nat) (nb : patch_neighborhood)
    (pos offset : position) (n : Z) (l : list nat) (k : Z) :
  starts_with ptr nb →
  select_neighborhood nb pos offset n = (l, k) →
  array_get l 0 = Some ptr ∧ 0 < k.
Proof.
  intros (Hbl & Htl & Hbr & Htr). unfold select_neighborhood.
  destruct (_ <? _); destruct (_ <? _); intros [= <- <-]; assumption.
Qed.

(** A scan that ends without finding the cell taken has seen no item at the
    cell. *)
Lemma birth_scan_items_free (c : gibbs_field_cache) (pos : position) (t : Z)
    (its : list item) :
  ∀ acc acc' : float,
    birth_scan_items NDEBUG c pos t its acc = Some (acc', false) →
    Forall (λ it, location it ≠ pos) its.
Proof.
  induction its as [| it rest IH]; intros acc acc' Hscan; [constructor |].
  cbn [birth_scan_items] in Hscan.
  destruct (position_eqb (location it) pos) eqn:Heq; [discriminate Hscan |].
  destruct (interaction NDEBUG c pos (location it) t (item_type it)) as [a |];
    simpl in Hscan; [| discriminate Hscan].
  destruct (interaction NDEBUG c (location it) pos (item_type it) t) as [b |];
    simpl in Hscan; [| discriminate Hscan].
  constructor; [| exact (IH _ _ Hscan)].
  intros Hloc. apply position_eqb_eq in Hloc. congruence.
Qed.

Lemma birth_scan_free (store : gmap nat patch_type) (c : gibbs_field_cache)
    (l : list nat) (pos : position) (t k : Z) (acc acc' : float)
    (ptr : nat) (cur : patch_type) :
  array_get l 0 = Some ptr → 0 < k →
  store !! ptr = Some cur →
  birth_scan NDEBUG store c l pos t (Z.to_nat k) 0 acc = Some (acc', false) →
  Forall (λ it, location it ≠ pos) (items cur).
Proof.
  intros Hl Hk Hcur Hscan.
  destruct (Z.to_nat k) as [| k'] eqn:Hk'; [lia |].
  cbn [birth_scan] in Hscan. rewrite Hl in Hscan. cbn [mbind option_bind] in Hscan.
  rewrite Hcur in Hscan. cbn [mbind option_bind] in Hscan.
  destruct (birth_scan_items NDEBUG c pos t (items cur) acc) as [[acc1 occ] |] eqn:Hitems;
    simpl in Hscan; [| discriminate].
  destruct occ; [discriminate Hscan |].
  exact (birth_scan_items_free _ _ _ _ _ _ Hitems).
Qed.

Lemma items_wf_born (count n : Z) (offset : position) (its : list item)
    (new : item) :
  items_wf count n offset its →
  Forall (λ it, location it ≠ location new) its →
  0 ≤ item_type new < count →
  0 ≤ px (location new) - px offset < n →
  0 ≤ py (location new) - py offset < n →
  items_wf count n offset (its ++ [new]).
Proof.
  intros [Hdup Hall] Hfree Ht Hx Hy. split.
  - rewrite map_app. apply NoDup_app. split; [exact Hdup |]. split.
    + intros p Hp Hnew. cbn [map] in Hnew. apply list_elem_of_singleton in Hnew as ->.
      apply list_elem_of_fmap in Hp as (it & Hloc & Hit).
      rewrite Forall_forall in Hfree. apply (Hfree it Hit). congruence.
    + cbn [map]. apply NoDup_singleton.
  - apply Forall_app. split; [exact Hall |].
    apply Forall_singleton. auto.
Qed.

Lemma items_wf_died (count n : Z) (offset : position) (its its' : list item)
    (old : item) :
  items_wf count n offset its → its ≡ₚ old :: its' →
  items_wf count n offset its'.
Proof.
  intros [Hdup Hall] Hperm. split.
  - assert (Hmap : map location its ≡ₚ location old :: map location its').
    { rewrite Hperm. reflexivity. }
    rewrite Hmap in Hdup. apply NoDup_cons in Hdup as [_ Hdup]. exact Hdup.
  - rewrite Hperm in Hall. apply Forall_cons in Hall as [_ Hall]. exact Hall.
Qed.

Lemma patch_eta (cur : patch_type) : mk_patch (items cur) (fixed cur) = cur.
Proof. destruct cur; reflexivity. Qed.

(** One step of the loop of [sample]: the store changes at the sampled patch
    only, the list of its items stays as it is, gains one item at its end or
    loses one item, and the items stay well placed. *)
Lemma sample_patch_step (g : gibbs_field) (i : Z) (s s' : sampler_state)
    (pp : position) (nb : patch_neighborhood) (ptr : nat) (cur : patch_type) :
  0 ≤ item_type_count (cache g) → 0 ≤ n g →
  array_get (patch_positions g) i = Some pp →
  array_get (neighborhoods g) i = Some nb →
  starts_with ptr nb →
  patches s !! ptr = Some cur →
  items_wf (item_type_count (cache g)) (n g) (position_scale pp (n g)) (items cur) →
  sample_patch NDEBUG x_first g i s = Some s' →
  ∃ its',
    patches s' = <[ptr := mk_patch its' (fixed cur)]> (patches s)
    ∧ items_step (items cur) its'
    ∧ items_wf (item_type_count (cache g)) (n g) (position_scale pp (n g)) its'.
Proof.
  intros Hcount Hn Hpp Hnb Hstart Hcur Hwf Hrun.
  assert (Hsame : ∀ rng', s' = mk_sampler_state rng' (patches s) →
            ∃ its',
              patches s' = <[ptr := mk_patch its' (fixed cur)]> (patches s)
              ∧ items_step (items cur) its'
              ∧ items_wf (item_type_count (cache g)) (n g)
                  (position_scale pp (n g)) its').
  { intros rng' ->. exists (items cur). cbn [patches].
    rewrite patch_eta, insert_id by exact Hcur.
    split; [reflexivity |]. split; [by apply items_same | exact Hwf]. }
  unfold sample_patch in Hrun.
  rewrite Hpp in Hrun. cbn [mbind option_bind] in Hrun.
  rewrite Hnb in Hrun. cbn [mbind option_bind] in Hrun.
  destruct Hstart as (Hbl & Htl & Hbr & Htr).
  assert (Hstart : starts_with ptr nb) by (repeat split; tauto).
  rewrite (proj1 Htl) in Hrun. cbn [mbind option_bind] in Hrun.
  rewrite Hcur in Hrun. cbn [mbind option_bind] in Hrun.
  destruct (rng_call (rng s)) as [r0 rng1].
  destruct (r0 mod 2 =? 0).
  - (* a birth is proposed *)
    destruct (rng_call rng1) as [r1 rng2].
    unfold umod in Hrun.
    destruct (Z.eqb_spec (item_type_count (cache g)) 0) as [| Hc0];
      [discriminate Hrun |].
    cbn [mbind option_bind] in Hrun.
    destruct (rng_call rng2) as [r2 rng3].
    destruct (Z.eqb_spec (n g) 0) as [| Hn0]; [discriminate Hrun |].
    cbn [mbind option_bind] in Hrun.
    destruct (rng_call rng3) as [r3 rng4].
    cbn [mbind option_bind] in Hrun.
    assert (Hcell : (if x_first then (r2 mod n g, r3 mod n g)
                     else (r3 mod n g, r2 mod n g))
                    = ((if x_first then r2 else r3) mod n g,
                       (if x_first then r3 else r2) mod n g))
      by (destruct x_first; reflexivity).
    rewrite Hcell in Hrun. clear Hcell.
    set (new_position :=
           position_add (position_scale pp (n g))
             (mk_position ((if x_first then r2 else r3) mod n g)
                ((if x_first then r3 else r2) mod n g))) in *.
    destruct (select_neighborhood nb new_position (position_scale pp (n g)) (n g))
      as [l k] eqn:Hsel.
    destruct (select_neighborhood_starts _ _ _ _ _ _ _ Hstart Hsel) as [Hl Hk].
    destruct (birth_scan _ _ _ _ _ _ _ _ _) as [[acc occ] |] eqn:Hscan;
      simpl in Hrun; [| discriminate].
    destruct occ.
    + injection Hrun as <-. eapply Hsame. reflexivity.
    + destruct (intensity _ _ _) as [v |]; simpl in Hrun; [| discriminate].
      destruct (rng_call rng4) as [r4 rng5].
      destruct (f_ltb _ _).
      * injection Hrun as <-. cbn [patches].
        exists (items cur ++ [mk_item (r1 mod item_type_count (cache g)) new_position 0 0]).
        split; [reflexivity |]. split; [by eapply items_born |].
        apply items_wf_born; [exact Hwf | | | |].
        -- exact (birth_scan_free _ _ _ _ _ _ _ _ _ _ Hl Hk Hcur Hscan).
        -- cbn [item_type]. apply Z.mod_pos_bound. lia.
        -- cbn [location]. subst new_position. cbn [position_add px].
           pose proof (Z.mod_pos_bound (if x_first then r2 else r3) (n g)). lia.
        -- cbn [location]. subst new_position. cbn [position_add py].
           pose proof (Z.mod_pos_bound (if x_first then r3 else r2) (n g)). lia.
      * injection Hrun as <-. eapply Hsame. reflexivity.
  - destruct (0 <? Z.of_nat (length (items cur))).
    + (* a death is proposed *)
      destruct (rng_call rng1) as [r1 rng2].
      destruct (umod r1 (Z.of_nat (length (items cur)))) as [item_index |];
        simpl in Hrun; [| discriminate].
      destruct (array_get (items cur) (wrap32 item_index)) as [old |] eqn:Hold;
        simpl in Hrun; [| discriminate].
      destruct (select_neighborhood nb (location old) (position_scale pp (n g)) (n g))
        as [l k] eqn:Hsel.
      destruct (death_scan _ _ _ _ _ _ _ _ _) as [acc |]; simpl in Hrun;
        [| discriminate].
      destruct (intensity _ _ _) as [v |]; simpl in Hrun; [| discriminate].
      destruct (rng_call rng2) as [r2 rng3].
      destruct (f_ltb _ _).
      * destruct (array_remove (items cur) (Z.to_nat (wrap32 item_index)))
          as [remaining |] eqn:Hrem; simpl in Hrun; [| discriminate].
        injection Hrun as <-. cbn [patches].
        apply array_get_Some in Hold as [_ Hold].
        pose proof (array_remove_Permutation _ _ _ _ Hold Hrem) as Hperm.
        exists remaining. split; [reflexivity |].
        split; [by eapply items_died |].
        exact (items_wf_died _ _ _ _ _ _ Hwf Hperm).
      * injection Hrun as <-. eapply Hsame. reflexivity.
    + injection Hrun as <-. eapply Hsame. reflexivity.
Qed.

(** X13.  One step of [sample], at the patch of index [i] of the batch: only the
    sampled patch changes, its list of items stays as it is, gains one item
    at its end or loses one item, and if its items were well placed (no two
    in one cell, all inside the patch, all of a known type) they still are. *)
Theorem sample_patch_keeps_items_well_placed (g : gibbs_field) (i : Z)
    (s s' : sampler_state) (pp : position) (nb : patch_neighborhood) (ptr : nat)
    (cur : patch_type) :
  0 ≤ item_type_count (cache g) → 0 ≤ n g →
  array_get (patch_positions g) i = Some pp →
  array_get (neighborhoods g) i = Some nb →
  starts_with ptr nb →
  patches s !! ptr = Some cur →
  items_wf (item_type_count (cache g)) (n g) (position_scale pp (n g)) (items cur) →
  sample_patch NDEBUG x_first g i s = Some s' →
  ∃ its',
    patches s' = <[ptr := mk_patch its' (fixed cur)]> (patches s)
    ∧ items_step (items cur) its'
    ∧ items_wf (item_type_count (cache g)) (n g) (position_scale pp (n g)) its'.
Proof. apply sample_patch_step. Qed.

(** X14.  A whole pass of [sample] over the batch keeps every patch of the store
    well placed, keeps the set of patches and the rest of every patch, and
    leaves alone every patch that is not the sampled patch of an index of the
    batch. *)
Theorem sample_keeps_store_well_placed (g : gibbs_field)
    (position_of : nat → position) (s s' : sampler_state) :
  0 ≤ item_type_count (cache g) → 0 ≤ n g →
  batch_wf g position_of →
  store_wf g position_of (patches s) →
  sample NDEBUG x_first g s = Some s' →
  store_wf g position_of (patches s')
  ∧ (∀ ptr cur, patches s !! ptr = Some cur →
       ∃ cur', patches s' !! ptr = Some cur' ∧ fixed cur' = fixed cur)
  ∧ (∀ ptr, patches s !! ptr = None → patches s' !! ptr = None)
  ∧ (∀ ptr, ¬ sampled g ptr → patches s' !! ptr = patches s !! ptr).
Proof.
  intros Hcount Hn Hbatch Hwf Hrun. unfold sample in Hrun.
  destruct (Z.le_gt_cases 0 (patch_count g)) as [Hpc | Hneg].
  2:{ unfold for_range in Hrun.
      replace (Z.to_nat (patch_count g - 0)) with 0%nat in Hrun by lia.
      injection Hrun as <-. split; [exact Hwf |].
      split; [intros ptr cur Hc; eauto |]. split; auto. }
  set (inv (i : Z) (t : sampler_state) :=
         store_wf g position_of (patches t)
         ∧ (∀ ptr cur, patches s !! ptr = Some cur →
              ∃ cur', patches t !! ptr = Some cur' ∧ fixed cur' = fixed cur)
         ∧ (∀ ptr, patches s !! ptr = None → patches t !! ptr = None)
         ∧ (∀ ptr,
              (∀ k nb, 0 ≤ k < i → array_get (neighborhoods g) k = Some nb →
                 array_get (top_left_neighborhood nb) 0 ≠ Some ptr) →
              patches t !! ptr = patches s !! ptr)).
  assert (Hend : inv (patch_count g) s').
  { revert Hrun. apply (for_range_inv inv); [exact Hpc | |].
    - split; [exact Hwf |]. split; [eauto |]. split; auto.
    - intros i t t' Hi (Hwf_t & Hfixed & Hnone & Hframe) Hstep.
      destruct (array_get (patch_positions g) i) as [pp |] eqn:Hpp.
      2:{ unfold sample_patch in Hstep. rewrite Hpp in Hstep. discriminate Hstep. }
      destruct (array_get (neighborhoods g) i) as [nb |] eqn:Hnb.
      2:{ unfold sample_patch in Hstep. rewrite Hpp in Hstep.
          cbn [mbind option_bind] in Hstep. rewrite Hnb in Hstep.
          discriminate Hstep. }
      destruct (Hbatch i pp nb Hpp Hnb) as (ptr & Hstart & ->).
      destruct (patches t !! ptr) as [cur |] eqn:Hcur.
      2:{ unfold sample_patch in Hstep. rewrite Hpp in Hstep.
          cbn [mbind option_bind] in Hstep. rewrite Hnb in Hstep.
          cbn [mbind option_bind] in Hstep.
          destruct Hstart as (_ & [Htl _] & _). rewrite Htl in Hstep.
          cbn [mbind option_bind] in Hstep. rewrite Hcur in Hstep.
          discriminate Hstep. }
      destruct (sample_patch_step g i t t' (position_of ptr) nb ptr cur
                  Hcount Hn Hpp Hnb Hstart Hcur (Hwf_t ptr cur Hcur) Hstep)
        as (its' & Hstore & _ & Hwf').
      unfold inv. rewrite Hstore. split; [| split; [| split]].
      + intros q cur_q Hq. destruct (decide (q = ptr)) as [-> | Hne].
        * rewrite lookup_insert_eq in Hq. injection Hq as <-. exact Hwf'.
        * rewrite lookup_insert_ne in Hq by congruence. exact (Hwf_t q cur_q Hq).
      + intros q cur_q Hq. destruct (Hfixed q cur_q Hq) as (cur' & Hq' & Hfix).
        destruct (decide (q = ptr)) as [-> | Hne].
        * rewrite lookup_insert_eq. eexists. split; [reflexivity |].
          cbn [fixed]. congruence.
        * rewrite lookup_insert_ne by congruence. eauto.
      + intros q Hq. destruct (decide (q = ptr)) as [-> | Hne].
        * rewrite (Hnone ptr Hq) in Hcur. discriminate Hcur.
        * rewrite lookup_insert_ne by congruence. exact (Hnone q Hq).
      + intros q Hq. destruct (decide (q = ptr)) as [-> | Hne].
        * exfalso. apply (Hq i nb); [lia | exact Hnb |].
          destruct Hstart as (_ & [Htl _] & _). exact Htl.
        * rewrite lookup_insert_ne by congruence. apply Hframe.
          intros k nb' Hk. apply Hq. lia. }
  destruct Hend as (Hwf' & Hfixed & Hnone & Hframe).
  split; [exact Hwf' |]. split; [exact Hfixed |]. split; [exact Hnone |].
  intros ptr Hnot. apply Hframe. intros k nb Hk Hnb Htl.
  apply Hnot. exists k, nb. auto.
Qed.

(** X15.  [resample] reads the patches of the batch and changes nothing: neither
    the store nor the generator, at any time. *)
Theorem resample_changes_nothing (g : gibbs_field) (current_time : Z)
    (s : sampler_state) :
  (∀ i, 0 ≤ i < patch_count g →
     ∃ pp nb ptr cur,
       array_get (patch_positions g) i = Some pp
       ∧ array_get (neighborhoods g) i = Some nb
       ∧ array_get (top_left_neighborhood nb) 0 = Some ptr
       ∧ patches s !! ptr = Some cur) →
  resample g current_time s = Some s.
Proof.
  intros Hvalid. unfold resample, for_range.
  assert (Hloop : ∀ (count : nat) (lo : Z),
            0 ≤ lo → lo + Z.of_nat count ≤ Z.max 0 (patch_count g) →
            for_up count lo
              (fun i s0 =>
                 patch_position ← array_get (patch_positions g) i;
                 neighborhood ← array_get (neighborhoods g) i;
                 current_ptr ← array_get (top_left_neighborhood neighborhood) 0;
                 current ← patches s0 !! current_ptr;
                 Some s0) s = Some s).
  { induction count as [| count IH]; intros lo Hlo Hhi; [reflexivity |].
    cbn [for_up].
    destruct (Hvalid lo) as (pp & nb & ptr & cur & Hpp & Hnb & Hptr & Hcur); [lia |].
    rewrite Hpp. cbn [mbind option_bind]. rewrite Hnb. cbn [mbind option_bind].
    rewrite Hptr. cbn [mbind option_bind]. rewrite Hcur. cbn [mbind option_bind].
    apply IH; lia. }
  apply Hloop; lia.
Qed.

End SamplerInvariantFacts.

Section ConcreteSamplerExtras.
Import Worlds Scenario ScenarioAfter.
#[local] Existing Instance Binary32.ops.
#[local] Existing Instance Minstd.rng.

Example sample_patch_birth_example :
  sample_patch false false field 0 birth_state = Some after_birth.
Proof. vm_compute. reflexivity. Qed.

Example sample_birth_example : sample false false field birth_state = Some after_birth.
Proof. vm_compute. reflexivity. Qed.

Lemma hood_starts_with_current : starts_with 0 hood.
Proof. repeat split; reflexivity. Qed.

Lemma sparse_current_wf :
  items_wf (item_type_count (cache field)) (n field)
    (position_scale (mk_position 0 0) (n field)) (items sparse_current).
Proof.
  split.
  - apply NoDup_singleton.
  - apply Forall_singleton. cbn. lia.
Qed.

Lemma sample_patch_keeps_items_well_placed_witness :
  ∃ its',
    patches after_birth
    = <[0%nat := mk_patch its' (fixed sparse_current)]> (patches birth_state)
    ∧ items_step (items sparse_current) its'
    ∧ items_wf (item_type_count (cache field)) (n field)
        (position_scale (mk_position 0 0) (n field)) its'.
Proof.
  apply (sample_patch_keeps_items_well_placed false false field 0 birth_state
           after_birth (mk_position 0 0) hood 0%nat sparse_current).
  - cbn. lia.
  - cbn. lia.
  - reflexivity.
  - reflexivity.
  - exact hood_starts_with_current.
  - reflexivity.
  - exact sparse_current_wf.
  - exact sample_patch_birth_example.
Defined.

Lemma field_batch_wf : batch_wf field (λ _, mk_position 0 0).
Proof.
  intros i pp nb Hpp Hnb.
  apply array_get_Some in Hpp as [_ Hpp]. apply array_get_Some in Hnb as [_ Hnb].
  cbn [patch_positions neighborhoods field new_gibbs_field] in Hpp, Hnb.
  destruct (Z.to_nat i) as [| k]; [| discriminate Hpp].
  injection Hpp as <-. injection Hnb as <-.
  exists 0%nat. split; [exact hood_starts_with_current | reflexivity].
Qed.

Lemma sparse_store_wf : store_wf field (λ _, mk_position 0 0) sparse_store.
Proof.
  intros ptr cur Hcur. unfold sparse_store in Hcur.
  destruct (decide (ptr = 0%nat)) as [-> | H0].
  - rewrite lookup_insert_eq in Hcur. injection Hcur as <-. exact sparse_current_wf.
  - rewrite lookup_insert_ne in Hcur by congruence.
    destruct (decide (ptr = 1%nat)) as [-> | H1].
    + rewrite lookup_insert_eq in Hcur. injection Hcur as <-.
      split; [apply NoDup_nil_2 | apply Forall_nil_2].
    + rewrite lookup_insert_ne in Hcur by congruence.
      rewrite lookup_empty in Hcur. discriminate Hcur.
Qed.

Lemma sample_keeps_store_well_placed_witness :
  store_wf field (λ _, mk_position 0 0) (patches after_birth)
  ∧ (∀ ptr cur, patches birth_state !! ptr = Some cur →
       ∃ cur', patches after_birth !! ptr = Some cur' ∧ fixed cur' = fixed cur)
  ∧ (∀ ptr, patches birth_state !! ptr = None → patches after_birth !! ptr = None)
  ∧ (∀ ptr, ¬ sampled field ptr →
       patches after_birth !! ptr = patches birth_state !! ptr).
Proof.
  apply (sample_keeps_store_well_placed false false field (λ _, mk_position 0 0)
           birth_state after_birth).
  - cbn. lia.
  - cbn. lia.
  - exact field_batch_wf.
  - exact sparse_store_wf.
  - exact sample_birth_example.
Defined.

Lemma resample_changes_nothing_witness :
  resample field 1200 death_state = Some death_state.
Proof.
  apply (resample_changes_nothing field 1200 death_state).
  intros i Hi. assert (i = 0) as -> by (cbn in Hi; lia).
  exists (mk_position 0 0), hood, 0%nat, current. repeat split; reflexivity.
Defined.

End ConcreteSamplerExtras.

(* ===================================================================== *)
(** * The sampler has a defined result                                    *)
(* ===================================================================== *)

Section LoopTotal.
Context {S : Type}.


End LoopTotal.

Section SafetyFacts.
Context {float : Type} {H : FloatOps float}.
Context {rng_state : Type} {R : RNGType rng_state}.
Variable NDEBUG : bool.
Variable x_first : bool.

Local Abbreviation gibbs_field_cache := (@gibbs_field_cache float).
Local Abbreviation gibbs_field := (@gibbs_field float).
Local Abbreviation item_properties := (@item_properties float).
Local Abbreviation sampler_state := (@sampler_state rng_state).









End SafetyFacts.

Section ConcreteSafety.
Import Worlds Scenario.
#[local] Existing Instance Binary32.ops.
#[local] Existing Instance Minstd.rng.






End ConcreteSafety.

(* ===================================================================== *)
(** * More about the Python binding                                       *)
(* ===================================================================== *)

Section PyListFacts.
Context {A : Type}.

Lemma length_PyList_New (len : Z) : length (PyList_New (A := A) len) = Z.to_nat len.
Proof. apply length_replicate. Qed.

Lemma length_PyList_SetItem (l : list (option A)) (index : Z) (item : A) :
  length (PyList_SetItem l index item) = length l.
Proof.
  unfold PyList_SetItem. destruct (_ && _); [apply length_insert | reflexivity].
Qed.

Lemma lookup_PyList_SetItem (l : list (option A)) (index : Z) (item : A) (k : nat) :
  PyList_SetItem l index item !! k
  = if decide (0 ≤ index < Z.of_nat (length l) ∧ k = Z.to_nat index)
    then Some (Some item) else l !! k.
Proof.
  unfold PyList_SetItem.
  destruct (Z.leb_spec 0 index), (Z.ltb_spec index (Z.of_nat (length l)));
    cbn [andb]; case_decide; try lia; try reflexivity.
  - destruct H1 as [_ ->]. apply list_lookup_insert_eq. lia.
  - apply list_lookup_insert_ne. intros <-. apply H1. split; [lia | reflexivity].
Qed.

End PyListFacts.

Section PythonMoreFacts.
Context {simulator_state server_state agent_state simulator_config : Type}.
Context {py_callback py_agent : Type}.
Variable get_agent_state : simulator_state → Z → option agent_state.
Variable build_py_agent : agent_state → simulator_config → Z → py_agent.

Local Abbreviation simulator := (@simulator simulator_state server_state py_callback).
Local Abbreviation py_object := (@py_object py_agent).


(** X18.  [simulator_get_x_coordinates] answers a local simulator with a list,
    parallel to the request, that holds None for an id that names no agent
    and otherwise the x coordinate as an unsigned 64-bit number, so that a
    negative x comes out as [x + 2^64]; through a client it answers with
    NULL. *)
Theorem get_x_coordinates_are_unsigned
    (current_position : agent_state → position) (sim_handle : simulator)
    (agent_ids : list Z) :
  let entry := λ id,
    (λ a, wrap64 (px (current_position a)))
      <$> get_agent_state (sim sim_handle) id in
  simulator_get_x_coordinates get_agent_state current_position sim_handle
    true agent_ids
  = Py_value (map entry agent_ids)
  ∧ simulator_get_x_coordinates get_agent_state current_position sim_handle
      false agent_ids
    = Py_exception
  ∧ (∀ id, entry id = None ↔ get_agent_state (sim sim_handle) id = None)
  ∧ (∀ id a, get_agent_state (sim sim_handle) id = Some a →
       - 2 ^ 63 ≤ px (current_position a) < 0 →
       entry id = Some (px (current_position a) + 2 ^ 64))
  ∧ (∀ id a, get_agent_state (sim sim_handle) id = Some a →
       0 ≤ px (current_position a) < 2 ^ 63 →
       entry id = Some (px (current_position a))).
Proof.
  intros entry. split; [| split; [reflexivity |]].
  - unfold simulator_get_x_coordinates, get_agent_states.
    rewrite take_ge by lia. rewrite map_map. reflexivity.
  - subst entry. cbv beta. split; [| split].
    + intros id. destruct (get_agent_state (sim sim_handle) id); simpl;
        split; congruence.
    + intros id a -> Hx. simpl. f_equal. unfold wrap64.
      rewrite <- (Z.mod_add _ 1) by lia. apply Z.mod_small. lia.
    + intros id a -> Hx. simpl. f_equal. unfold wrap64. apply Z.mod_small. lia.
Qed.

End PythonMoreFacts.

Lemma index_of_bound (ids : list Z) (id : Z) : (index_of ids id ≤ length ids)%nat.
Proof.
  induction ids as [| x rest IH]; simpl; [lia |].
  destruct (decide (x = id)); lia.
Qed.

Lemma index_of_found (ids : list Z) (id : Z) :
  id ∈ ids → ids !! index_of ids id = Some id.
Proof.
  induction ids as [| x rest IH]; intros Hin; [by apply elem_of_nil in Hin |].
  simpl. destruct (decide (x = id)) as [-> | Hne]; [reflexivity |].
  apply elem_of_cons in Hin as [-> | Hin]; [contradiction |].
  simpl. apply IH. exact Hin.
Qed.

Lemma index_of_missing (ids : list Z) (id : Z) :
  id ∉ ids → index_of ids id = length ids.
Proof.
  induction ids as [| x rest IH]; intros Hnot; [reflexivity |].
  simpl. destruct (decide (x = id)) as [-> | Hne].
  - exfalso. apply Hnot. left.
  - f_equal. apply IH. intros Hin. apply Hnot. by right.
Qed.

Lemma remove_owned_id_spec (ids : list Z) (id : Z) :
  Z.of_nat (length ids) < 2 ^ 32 →
  ∃ ids',
    remove_owned_id ids id = Some ids'
    ∧ (id ∈ ids → ids ≡ₚ id :: ids')
    ∧ (id ∉ ids → ids' = ids).
Proof.
  intros Hlen. unfold remove_owned_id.
  pose proof (index_of_bound ids id) as Hbound.
  rewrite wrap32_small by lia. rewrite Nat2Z.id.
  destruct (decide (id ∈ ids)) as [Hin | Hnot].
  - pose proof (index_of_found ids id Hin) as Hfound.
    pose proof (lookup_lt_Some _ _ _ Hfound) as Hlt.
    destruct (decide (Z.of_nat (index_of ids id) ≠ Z.of_nat (length ids)))
      as [_ | Heq]; [| lia].
    destruct (array_remove_is_Some ids (index_of ids id) Hlt) as [ids' Hrem].
    exists ids'. split; [exact Hrem |]. split; [| contradiction].
    intros _. exact (array_remove_Permutation _ _ _ _ Hfound Hrem).
  - rewrite (index_of_missing ids id Hnot).
    destruct (decide (Z.of_nat (length ids) ≠ Z.of_nat (length ids)))
      as [Hne | _]; [contradiction |].
    exists ids. split; [reflexivity |]. split; [contradiction | reflexivity].
Qed.

Section OwnedIds.
Context {simulator_state server_state : Type} {py_callback : Type}.

Local Abbreviation simulator := (@simulator simulator_state server_state py_callback).

(** X19.  Removing an agent from a local simulator.  The call answers True exactly
    when the simulator's [remove_agent] answers OK.  Then the id is taken
    out of the owned ids and every other owned id stays; when the owned ids
    hold no id twice the removed id is no longer owned.  On any other answer
    the owned ids stay as they are. *)
Theorem remove_agent_updates_owned_ids
    (remove : simulator_state → Z → status * simulator_state)
    (sim_handle : simulator) (agent_id : Z) :
  Z.of_nat (length (agent_ids (data sim_handle))) < 2 ^ 32 →
  ∃ (result : bool) (after : simulator),
    simulator_remove_agent_local remove sim_handle agent_id = Some (result, after)
    ∧ (result = true ↔ fst (remove (sim sim_handle) agent_id) = OK)
    ∧ sim after = snd (remove (sim sim_handle) agent_id)
    ∧ semaphore_ids (data after) = semaphore_ids (data sim_handle)
    ∧ (result = false → agent_ids (data after) = agent_ids (data sim_handle))
    ∧ (result = true →
       (agent_id ∈ agent_ids (data sim_handle) →
        agent_ids (data sim_handle) ≡ₚ agent_id :: agent_ids (data after))
       ∧ (agent_id ∉ agent_ids (data sim_handle) →
          agent_ids (data after) = agent_ids (data sim_handle))
       ∧ (NoDup (agent_ids (data sim_handle)) →
          (agent_id ∉ agent_ids (data after))
          ∧ ∀ id, id ≠ agent_id →
              (id ∈ agent_ids (data after) ↔ id ∈ agent_ids (data sim_handle)))).
Proof.
  intros Hlen. unfold simulator_remove_agent_local.
  destruct (remove (sim sim_handle) agent_id) as [result s]. cbn [fst snd].
  destruct (decide (result = OK)) as [-> | Hne].
  - destruct (remove_owned_id_spec (agent_ids (data sim_handle)) agent_id Hlen)
      as (ids' & Hrem & Hin & Hnot).
    rewrite Hrem. cbn [mbind option_bind].
    eexists true, _. split; [reflexivity |]. cbn [sim data agent_ids semaphore_ids].
    split; [tauto |]. split; [reflexivity |]. split; [reflexivity |].
    split; [discriminate |]. intros _. split; [exact Hin |]. split; [exact Hnot |].
    intros Hdup. destruct (decide (agent_id ∈ agent_ids (data sim_handle)))
      as [Hown | Hfree].
    + specialize (Hin Hown). rewrite Hin in Hdup.
      apply NoDup_cons in Hdup as [Hfresh _]. split; [exact Hfresh |].
      intros id Hid. rewrite Hin. rewrite elem_of_cons. tauto.
    + rewrite (Hnot Hfree). split; [exact Hfree | tauto].
  - eexists false, _. split; [reflexivity |]. cbn [sim data].
    split; [split; [discriminate | contradiction] |].
    split; [reflexivity |]. split; [reflexivity |].
    split; [reflexivity | discriminate].
Qed.

End OwnedIds.

(** A client with three agents and two semaphores reconnects: the two
    semaphore ids land in the list of states, and the list of semaphore ids
    is two NULL slots.  With one agent and two semaphores the call ends in
    an exception. *)
Example reconnect_three_agents_two_semaphores :
  simulator_reconnect_client (λ (state : Z) (_ : unit) (id : Z), (id, state))
    true 5 tt [7; 8; 9] [70; 80; 90] 3 [1; 2] 2
  = Some (Py_value (5,
                    [ Some (Py_long 1); Some (Py_long 2);
                      Some (Py_agent_tuple (9, 90)) ],
                    [ None; None ]))
  ∧ simulator_reconnect_client (λ (state : Z) (_ : unit) (id : Z), (id, state))
      true 5 tt [7] [70] 1 [1; 2] 2
    = Some Py_exception.
Proof. split; reflexivity. Qed.


(** An agent 20 cells to the left of the origin is reported at
    [2^64 - 20]. *)
Example x_coordinate_of_an_agent_on_the_left :
  simulator_get_x_coordinates (server_state := unit) (py_callback := unit)
    (λ (_ : unit) (id : Z), if decide (id = 7) then Some (mk_position (-20) 3) else None)
    (λ a : position, a)
    (mk_simulator tt (mk_py_simulator_data tt tt [7] []))
    true [9; 7]
  = Py_value [None; Some 18446744073709551596].
Proof. reflexivity. Qed.

Lemma remove_agent_updates_owned_ids_witness :
  ∃ (result : bool) (after : simulator (server_state := unit) (py_callback := unit)),
    simulator_remove_agent_local (λ (s : unit) (_ : Z), (OK, s))
      (mk_simulator tt (mk_py_simulator_data tt tt [7; 8; 9] [1])) 7
    = Some (result, after)
    ∧ result = true
    ∧ agent_ids (data after) = [9; 8].
Proof.
  destruct (remove_agent_updates_owned_ids (server_state := unit)
              (py_callback := unit) (λ (s : unit) (_ : Z), (OK, s))
              (mk_simulator tt (mk_py_simulator_data tt tt [7; 8; 9] [1])) 7)
    as (result & after & Hrun & _); [cbn; lia |].
  exists result, after. split; [exact Hrun |].
  vm_compute in Hrun. injection Hrun as <- <-. split; reflexivity.
Defined.

Section LoadAfterSave.
Context {simulator_state server_state agent_state simulator_config : Type}.
Context {py_callback py_agent : Type}.
Variable sim_codec : codec simulator_state.
Variable state_codec : codec server_state.
Variable get_agent_state : simulator_state → Z → option agent_state.
Variable simulator_time : simulator_state → Z.
Variable get_config : simulator_state → simulator_config.
Variable build_py_agent : agent_state → simulator_config → Z → py_agent.
Variable initial_server_state : server_state.

Local Abbreviation simulator := (@simulator simulator_state server_state py_callback).

(** The list of states that [simulator_load] builds is the list of the
    tuples of the owned agents, in the order of their ids. *)
Lemma owned_states_value (s : simulator_state) (agent_ids : list Z)
    (py_states : list py_agent) :
  Z.of_nat (length agent_ids) < 2 ^ 32 →
  mapM (λ i,
          agent ← mjoin (get_agent_states get_agent_state s agent_ids
                           (Z.to_nat (wrap32 (Z.of_nat (length agent_ids)))) !! i);
          id ← agent_ids !! i;
          Some (build_py_agent agent (get_config s) id))
       (seq 0 (Z.to_nat (Z.of_nat (length agent_ids))))
  = Some py_states →
  Some <$> py_states
  = map (expected_entry get_agent_state build_py_agent s (get_config s)) agent_ids.
Proof.
  intros Hlen Hmap. apply mapM_Some in Hmap.
  pose proof (Forall2_length _ _ _ Hmap) as Hlength.
  rewrite length_seq, Nat2Z.id in Hlength.
  apply list_eq. intros i. rewrite !list_lookup_fmap.
  destruct (py_states !! i) as [y |] eqn:Hy.
  - pose proof (lookup_lt_Some _ _ _ Hy) as Hi.
    assert (Hseq : seq 0 (Z.to_nat (Z.of_nat (length agent_ids))) !! i = Some i).
    { rewrite Nat2Z.id. apply lookup_seq. lia. }
    pose proof (Forall2_lookup_lr _ _ _ _ _ _ Hmap Hseq Hy) as Hf. cbv beta in Hf.
    rewrite wrap32_small, Nat2Z.id in Hf by lia.
    unfold get_agent_states in Hf. rewrite take_ge in Hf by lia.
    rewrite list_lookup_fmap in Hf.
    destruct (agent_ids !! i) as [id |]; simpl in Hf; [| discriminate Hf].
    unfold expected_entry. simpl.
    destruct (get_agent_state s id) as [agent |]; simpl in Hf; [| discriminate Hf].
    simpl. congruence.
  - apply lookup_ge_None in Hy.
    rewrite (lookup_ge_None_2 agent_ids) by lia. reflexivity.
Qed.

(** X20.  Loading the file that [simulator_save] wrote gives back the simulator
    that was saved: its state and time, the ids of its agents and of its
    semaphores and the state of its server, with the callback given to
    [load]; the third component of the result is the list of the tuples of
    the owned agents, in the order of their ids.  This holds for every way
    of writing the simulator and the server state that reads back what it
    wrote. *)
Theorem load_restores_the_saved_simulator (sim_handle : simulator)
    (cb : py_callback) :
  codec_ok sim_codec → codec_ok state_codec →
  simulator_wf sim_codec state_codec get_agent_state sim_handle →
  ∃ py_states,
    simulator_load sim_codec state_codec get_agent_state simulator_time
      get_config build_py_agent initial_server_state
      (simulator_save sim_codec state_codec sim_handle) cb
    = Some (Py_value
              (mk_loaded (simulator_time (sim sim_handle))
                 (mk_simulator (sim sim_handle)
                    (mk_py_simulator_data (server (data sim_handle)) cb
                       (agent_ids (data sim_handle))
                       (semaphore_ids (data sim_handle))))
                 py_states))
    ∧ Some <$> py_states
      = map (expected_entry get_agent_state build_py_agent (sim sim_handle)
               (get_config (sim sim_handle)))
          (agent_ids (data sim_handle)).
Proof.
  intros Hsim Hstate (Hwf_sim & Hwf_state & Hagents & Hsems & Hlen_a & Hlen_s & Howned).
  destruct sim_handle as [s [srv cb0 aids sids]]. simpl in *.
  destruct (owned_states_defined get_agent_state get_config build_py_agent
              s aids Hlen_a Howned) as [py_states Hstates].
  exists py_states. split; [| exact (owned_states_value s aids py_states Hlen_a Hstates)].
  unfold simulator_load, simulator_save. cbn [sim data agent_ids semaphore_ids server].
  rewrite (Hsim s _ Hwf_sim).
  rewrite read_write_uint64 by lia. cbn [mbind option_bind].
  rewrite Nat2Z.id, (read_write_uint64_array aids) by exact Hagents.
  cbn [mbind option_bind].
  rewrite read_write_uint64 by lia. cbn [mbind option_bind].
  rewrite Nat2Z.id, (read_write_uint64_array sids) by exact Hsems.
  cbn [mbind option_bind].
  rewrite <- (app_nil_r (enc state_codec srv)), (Hstate srv [] Hwf_state).
  cbn [mbind option_bind].
  cbv zeta. cbn [callback new_py_simulator_data].
  rewrite Nat2Z.id in Hstates. rewrite Nat2Z.id. rewrite Hstates. reflexivity.
Qed.

End LoadAfterSave.

Lemma load_restores_the_saved_simulator_witness :
  ∃ py_states,
    simulator_load Snapshot.simulator_codec Snapshot.server_state_codec
      Snapshot.get_agent_state Snapshot.current_tick Snapshot.configuration
      (λ agent _ id, (id, Snapshot.current_position agent)) ∅
      (simulator_save Snapshot.simulator_codec Snapshot.server_state_codec
         SnapshotExample.handle) tt
    = Some (Py_value
              (mk_loaded (Snapshot.current_tick (sim SnapshotExample.handle))
                 (mk_simulator (sim SnapshotExample.handle)
                    (mk_py_simulator_data (server (data SnapshotExample.handle)) tt
                       (agent_ids (data SnapshotExample.handle))
                       (semaphore_ids (data SnapshotExample.handle))))
                 py_states))
    ∧ Some <$> py_states
      = map (expected_entry Snapshot.get_agent_state
               (λ agent _ id, (id, Snapshot.current_position agent))
               (sim SnapshotExample.handle)
               (Snapshot.configuration (sim SnapshotExample.handle)))
          (agent_ids (data SnapshotExample.handle)).
Proof.
  apply (load_restores_the_saved_simulator Snapshot.simulator_codec
           Snapshot.server_state_codec Snapshot.get_agent_state
           Snapshot.current_tick Snapshot.configuration
           (λ agent _ id, (id, Snapshot.current_position agent)) ∅
           SnapshotExample.handle tt).
  - exact SnapshotFacts.simulator_codec_ok.
  - exact SnapshotFacts.server_state_codec_ok.
  - exact example_handle_wf.
Defined.

(* ===================================================================== *)
(** * The map handed to Python, and concat                                *)
(* ===================================================================== *)

Section FillLoop.
Context {A : Type}.

(** A loop that stores [get i] in slot [i] for the indices from [lo] on. *)
Lemma for_up_fill (get : Z → option A) :
  ∀ (count : nat) (lo : Z) (py_list : list (option A)),
    0 ≤ lo →
    (∀ i, lo ≤ i < lo + Z.of_nat count → is_Some (get i)) →
    lo + Z.of_nat count ≤ Z.of_nat (length py_list) →
    ∃ out,
      for_up count lo (λ i l, v ← get i; Some (PyList_SetItem l i v)) py_list
        = Some out
      ∧ length out = length py_list
      ∧ ∀ k : nat,
          out !! k
          = if decide (lo ≤ Z.of_nat k < lo + Z.of_nat count)
            then Some (get (Z.of_nat k)) else py_list !! k.
Proof.
  induction count as [| count IH]; intros lo py_list Hlo Hget Hlen.
  - exists py_list. split; [reflexivity |]. split; [reflexivity |].
    intros k. case_decide; [lia | reflexivity].
  - destruct (Hget lo ltac:(lia)) as [v Hv].
    destruct (IH (lo + 1) (PyList_SetItem py_list lo v)) as (out & Hrun & Hl & Hk).
    + lia.
    + intros i Hi. apply Hget. lia.
    + rewrite length_PyList_SetItem. lia.
    + exists out. cbn [for_up]. rewrite Hv. cbn. rewrite Hrun.
      split; [reflexivity |].
      split; [rewrite Hl; apply length_PyList_SetItem |].
      intros k. rewrite Hk, lookup_PyList_SetItem.
      repeat case_decide; try lia; try reflexivity.
      destruct H0 as [_ ->]. rewrite Z2Nat.id by lia. by rewrite Hv.
Qed.

End FillLoop.

Section PythonMapFacts.
Context {float : Type}.

Local Abbreviation patch_state := (@patch_state float).
Local Abbreviation py_patch := (@py_patch float).

Lemma build_py_patch_value (patch : patch_state)
    (patch_size scent_dimension color_dimension : Z) :
  patch_state_wf patch_size scent_dimension color_dimension patch →
  build_py_patch patch patch_size scent_dimension color_dimension
  = Some (py_patch_of patch patch_size scent_dimension color_dimension).
Proof.
  intros (Hdirs & Hscent & Hvision). unfold build_py_patch, for_range.
  rewrite !Z.sub_0_r, !Nat2Z.id.
  destruct (for_up_fill (λ i, array_get (patch_items patch) i)
              (length (patch_items patch)) 0
              (PyList_New (Z.of_nat (length (patch_items patch)))))
    as (py_items & -> & Hil & Hik).
  { lia. }
  { intros i Hi. unfold array_get. destruct (Z.ltb_spec i 0); [lia |].
    apply lookup_lt_is_Some. lia. }
  { rewrite length_PyList_New. lia. }
  cbn [mbind option_bind].
  destruct (for_up_fill
              (λ i, pos ← array_get (agent_positions patch) i;
                    dir ← array_get (agent_directions patch) i;
                    Some (pos, dir))
              (length (agent_positions patch)) 0
              (PyList_New (Z.of_nat (length (agent_positions patch)))))
    as (py_agents & Hrun & Hal & Hak).
  { lia. }
  { intros i Hi. unfold array_get. destruct (Z.ltb_spec i 0); [lia |].
    destruct (lookup_lt_is_Some_2 (agent_positions patch) (Z.to_nat i)) as [p ->];
      [lia |].
    destruct (lookup_lt_is_Some_2 (agent_directions patch) (Z.to_nat i)) as [d ->];
      [lia |].
    by eexists. }
  { rewrite length_PyList_New. lia. }
  match goal with
  | |- context [for_up ?c ?lo ?body ?s] =>
      replace (for_up c lo body s) with (Some py_agents)
  end.
  2:{ rewrite <- Hrun. clear.
      generalize (PyList_New (A := position * Z)
                    (Z.of_nat (length (agent_positions patch)))).
      generalize 0. induction (length (agent_positions patch)) as [| c IH];
        intros lo l; [reflexivity |].
      cbn [for_up].
      destruct (array_get (agent_positions patch) lo); [| reflexivity].
      destruct (array_get (agent_directions patch) lo); [| reflexivity].
      cbn. apply IH. }
  cbn [mbind option_bind].
  assert (Hitems : py_items = Some <$> patch_items patch).
  { apply list_eq. intros k. rewrite Hik, list_lookup_fmap.
    rewrite length_PyList_New, Nat2Z.id in Hil.
    case_decide.
    - unfold array_get. destruct (Z.ltb_spec (Z.of_nat k) 0); [lia |].
      rewrite Nat2Z.id.
      destruct (lookup_lt_is_Some_2 (patch_items patch) k) as [it ->]; [lia |].
      reflexivity.
    - rewrite (lookup_ge_None_2 (patch_items patch) k) by lia.
      apply lookup_replicate_None. lia. }
  assert (Hagents :
            py_agents
            = Some <$> zip (agent_positions patch) (agent_directions patch)).
  { apply list_eq. intros k. rewrite Hak, list_lookup_fmap.
    rewrite length_PyList_New, Nat2Z.id in Hal.
    rewrite lookup_zip_with.
    case_decide.
    - unfold array_get. destruct (Z.ltb_spec (Z.of_nat k) 0); [lia |].
      rewrite Nat2Z.id.
      destruct (lookup_lt_is_Some_2 (agent_positions patch) k) as [p ->]; [lia |].
      destruct (lookup_lt_is_Some_2 (agent_directions patch) k) as [d ->]; [lia |].
      reflexivity.
    - rewrite (lookup_ge_None_2 (agent_positions patch) k) by lia.
      apply lookup_replicate_None. lia. }
  unfold py_patch_of. rewrite <- Hitems, <- Hagents.
  assert (Hcopy : ∀ (src : option (list float)) (count : Z),
            (∀ l, src = Some l → 0 ≤ count ≤ Z.of_nat (length l)) →
            match src with
            | None => Some None
            | Some l => Some <$> memcpy_floats l count
            end = Some (take (Z.to_nat count) <$> src)).
  { clear. intros [l |] count Hc; [| reflexivity].
    specialize (Hc l eq_refl). unfold memcpy_floats.
    destruct (Z.leb_spec 0 count); [| lia].
    destruct (Z.leb_spec count (Z.of_nat (length l))); [| lia].
    reflexivity. }
  rewrite (Hcopy _ _ Hscent), (Hcopy _ _ Hvision). reflexivity.
Qed.

(** The inner loop of [build_py_map] over one row. *)
Lemma build_py_map_row (patch_size scent_dimension color_dimension : Z) :
  ∀ (row : list patch_state) (index : Z) (py_list : list (option py_patch)),
    Forall (patch_state_wf patch_size scent_dimension color_dimension) row →
    0 ≤ index →
    index + Z.of_nat (length row) ≤ Z.of_nat (length py_list) →
    Z.of_nat (length py_list) < 2 ^ 32 →
    ∃ out,
      for_each (λ '(index, py_list) patch,
                  py_patch ← build_py_patch patch patch_size
                               scent_dimension color_dimension;
                  Some (wrap32 (index + 1),
                        PyList_SetItem py_list index py_patch))
        row (index, py_list)
      = Some (index + Z.of_nat (length row), out)
      ∧ length out = length py_list
      ∧ ∀ k : nat,
          out !! k
          = if decide (index ≤ Z.of_nat k < index + Z.of_nat (length row))
            then Some <$>
                   ((λ patch, py_patch_of patch patch_size scent_dimension
                                color_dimension)
                      <$> row) !! (k - Z.to_nat index)%nat
            else py_list !! k.
Proof.
  induction row as [| patch row IH]; intros index py_list Hwf Hindex Hfit Hlen.
  - exists py_list. cbn. rewrite Z.add_0_r. split; [reflexivity |].
    split; [reflexivity |]. intros k. case_decide; [lia | reflexivity].
  - apply Forall_cons in Hwf as [Hpatch Hwf]. cbn [length] in Hfit.
    destruct (IH (index + 1)
                (PyList_SetItem py_list index
                   (py_patch_of patch patch_size scent_dimension color_dimension)))
      as (out & Hrun & Hl & Hk).
    + exact Hwf.
    + lia.
    + rewrite length_PyList_SetItem. lia.
    + rewrite length_PyList_SetItem. lia.
    + exists out. cbn [for_each]. cbn [mbind option_bind].
      rewrite (build_py_patch_value _ _ _ _ Hpatch). cbn [mbind option_bind].
      rewrite wrap32_small by lia. rewrite Hrun. cbn [length].
      split; [f_equal; f_equal; lia |].
      split; [rewrite Hl; apply length_PyList_SetItem |].
      intros k. rewrite Hk, lookup_PyList_SetItem.
      repeat case_decide; try lia.
      * replace (k - Z.to_nat index)%nat with (S (k - Z.to_nat (index + 1))) by lia.
        reflexivity.
      * destruct H0 as [_ ->].
        replace (Z.to_nat index - Z.to_nat index)%nat with 0%nat by lia.
        reflexivity.
      * reflexivity.
Qed.

End PythonMapFacts.

Section PythonMapTheorem.
Context {float : Type}.

Local Abbreviation patch_state := (@patch_state float).
Local Abbreviation py_patch := (@py_patch float).

Lemma patch_count_sum :
  ∀ (patches : list (list patch_state)) (patch_count : Z),
    0 ≤ patch_count →
    patch_count + Z.of_nat (length (concat patches)) < 2 ^ 32 →
    fold_left (λ patch_count row, wrap32 (patch_count + Z.of_nat (length row)))
      patches patch_count
    = patch_count + Z.of_nat (length (concat patches)).
Proof.
  intros patches. induction patches as [| row patches IH]; intros patch_count Hc Hsum.
  - cbn. lia.
  - cbn [fold_left concat] in *. rewrite length_app in Hsum.
    rewrite wrap32_small by lia. rewrite IH by lia. rewrite length_app. lia.
Qed.

(** The outer loop of [build_py_map]. *)
Lemma build_py_map_rows (patch_size scent_dimension color_dimension : Z) :
  ∀ (patches : list (list patch_state)) (index : Z)
    (py_list : list (option py_patch)),
    Forall (Forall (patch_state_wf patch_size scent_dimension color_dimension))
      patches →
    0 ≤ index →
    index + Z.of_nat (length (concat patches)) ≤ Z.of_nat (length py_list) →
    Z.of_nat (length py_list) < 2 ^ 32 →
    ∃ out,
      for_each (λ state row,
                  for_each (λ '(index, py_list) patch,
                              py_patch ← build_py_patch patch patch_size
                                           scent_dimension color_dimension;
                              Some (wrap32 (index + 1),
                                    PyList_SetItem py_list index py_patch))
                    row state)
        patches (index, py_list)
      = Some (index + Z.of_nat (length (concat patches)), out)
      ∧ length out = length py_list
      ∧ ∀ k : nat,
          out !! k
          = if decide (index ≤ Z.of_nat k
                       < index + Z.of_nat (length (concat patches)))
            then Some <$>
                   ((λ patch, py_patch_of patch patch_size scent_dimension
                                color_dimension)
                      <$> concat patches) !! (k - Z.to_nat index)%nat
            else py_list !! k.
Proof.
  intros patches. induction patches as [| row patches IH]; intros index py_list Hwf Hindex Hfit Hlen.
  - exists py_list. cbn. rewrite Z.add_0_r. split; [reflexivity |].
    split; [reflexivity |]. intros k. case_decide; [lia | reflexivity].
  - apply Forall_cons in Hwf as [Hrow Hwf]. cbn [concat] in *.
    rewrite length_app in Hfit.
    destruct (build_py_map_row patch_size scent_dimension color_dimension
                row index py_list Hrow Hindex ltac:(lia) Hlen)
      as (mid & Hrun1 & Hl1 & Hk1).
    destruct (IH (index + Z.of_nat (length row)) mid Hwf ltac:(lia)
                ltac:(rewrite Hl1; lia) ltac:(rewrite Hl1; lia))
      as (out & Hrun2 & Hl2 & Hk2).
    exists out. cbn [for_each]. rewrite Hrun1. cbn [mbind option_bind].
    rewrite Hrun2. rewrite length_app.
    split; [f_equal; f_equal; lia |].
    split; [congruence |].
    intros k. rewrite Hk2, Hk1, fmap_app.
    repeat case_decide; try lia; try reflexivity.
    + rewrite lookup_app_r by (rewrite length_fmap; lia).
      rewrite length_fmap. do 2 f_equal. lia.
    + rewrite lookup_app_l by (rewrite length_fmap; lia). reflexivity.
Qed.

(** X21.  [build_py_map] returns one tuple for every patch of every row, in
    the order of the rows and of the patches within a row: no slot of the
    list is left empty, and no patch is listed twice, as long as there are
    fewer than 2^32 patches. *)
Theorem build_py_map_lists_every_patch (patches : list (list patch_state))
    (patch_size scent_dimension color_dimension : Z) :
  Forall (Forall (patch_state_wf patch_size scent_dimension color_dimension))
    patches →
  Z.of_nat (length (concat patches)) < 2 ^ 32 →
  build_py_map patches patch_size scent_dimension color_dimension
  = Some (Some <$>
            ((λ patch, py_patch_of patch patch_size scent_dimension
                         color_dimension)
               <$> concat patches)).
Proof.
  intros Hwf Hcount. unfold build_py_map.
  rewrite patch_count_sum by lia. rewrite Z.add_0_l.
  destruct (build_py_map_rows patch_size scent_dimension color_dimension
              patches 0
              (PyList_New (Z.of_nat (length (concat patches)))) Hwf)
    as (out & Hrun & Hl & Hk).
  { lia. }
  { rewrite length_PyList_New. lia. }
  { rewrite length_PyList_New. lia. }
  rewrite Hrun. cbn [fmap option_fmap option_map snd]. f_equal.
  rewrite length_PyList_New, Nat2Z.id in Hl.
  apply list_eq. intros k. rewrite Hk.
  case_decide.
  - replace (k - Z.to_nat 0)%nat with k by lia. by rewrite !list_lookup_fmap.
  - rewrite (lookup_ge_None_2 (Some <$> _)) by (rewrite !length_fmap; lia).
    apply lookup_replicate_None. lia.
Qed.

End PythonMapTheorem.

Section ConcreteMap.

Lemma build_py_map_lists_every_patch_witness :
  Forall (Forall (patch_state_wf 2 1 3))
    [[busy_patch]; [empty_patch 0; empty_patch 1]]
  ∧ Z.of_nat (length (concat [[busy_patch]; [empty_patch 0; empty_patch 1]]))
    < 2 ^ 32
  ∧ build_py_map [[busy_patch]; [empty_patch 0; empty_patch 1]] 2 1 3
    = Some (Some <$>
              ((λ patch, py_patch_of patch 2 1 3)
                 <$> concat [[busy_patch]; [empty_patch 0; empty_patch 1]])).
Proof.
  assert (Hwf : Forall (Forall (patch_state_wf 2 1 3))
                  [[busy_patch]; [empty_patch 0; empty_patch 1]]).
  { assert (Hbusy : patch_state_wf 2 1 3 busy_patch).
    { split; [reflexivity |].
      split; intros src Hsrc; inversion Hsrc; subst; cbn; lia. }
    assert (Hempty : ∀ x, patch_state_wf 2 1 3 (empty_patch x)).
    { intros x. split; [reflexivity |]. split; intros src Hsrc; inversion Hsrc. }
    repeat first [apply Forall_nil_2 | apply Forall_cons_2]; auto. }
  assert (Hcount :
            Z.of_nat (length (concat [[busy_patch]; [empty_patch 0; empty_patch 1]]))
            < 2 ^ 32).
  { cbn. lia. }
  split; [exact Hwf |]. split; [exact Hcount |].
  exact (build_py_map_lists_every_patch
           [[busy_patch]; [empty_patch 0; empty_patch 1]] 2 1 3 Hwf Hcount).
Defined.

End ConcreteMap.

(* --------------------------------------------------------------------- *)
(** ** concat                                                             *)
(* --------------------------------------------------------------------- *)

Section ConcatFacts.
Import c_string.

Lemma byte_eqb_eq (a b : byte) : Byte.eqb a b = true ↔ a = b.
Proof.
  split; [apply Byte.byte_dec_bl | apply Byte.byte_dec_lb].
Qed.

(** [strlen] finds the first NUL. *)
Lemma strlen_Some (s : list byte) (n : Z) :
  strlen s = Some n →
  0 ≤ n < Z.of_nat (length s)
  ∧ s !! Z.to_nat n = Some x00
  ∧ Forall (λ c, c ≠ x00) (take (Z.to_nat n) s).
Proof.
  revert n. induction s as [| c rest IH]; intros n Hn; [discriminate |].
  cbn [strlen] in Hn. destruct (Byte.eqb c x00) eqn:Hc.
  - injection Hn as <-. apply byte_eqb_eq in Hc as ->.
    cbn [length]. split; [lia |]. split; [reflexivity | constructor].
  - destruct (strlen rest) as [m |]; [| discriminate]. injection Hn as <-.
    destruct (IH m eq_refl) as (Hm & Hnul & Hbefore).
    cbn [length]. replace (Z.to_nat (Z.succ m)) with (S (Z.to_nat m)) by lia.
    repeat split; [lia | lia | exact Hnul |].
    cbn [take]. constructor; [| exact Hbefore].
    intros ->. rewrite (proj2 (byte_eqb_eq x00 x00) eq_refl) in Hc. discriminate.
Qed.

Lemma strlen_terminated (s rest : list byte) :
  Forall (λ c, c ≠ x00) s →
  strlen (s ++ x00 :: rest) = Some (Z.of_nat (length s)).
Proof.
  induction 1 as [| c s Hc _ IH]; [reflexivity |].
  cbn [app strlen]. destruct (Byte.eqb c x00) eqn:Heq.
  - apply byte_eqb_eq in Heq. contradiction.
  - rewrite IH. cbn. f_equal. lia.
Qed.

(** A loop that copies [src[i]] to [buf[base + i]] for the indices from
    [lo] on. *)
Lemma for_up_copy (src : list byte) (base : Z)
    (body : Z → list (option byte) → option (list (option byte))) :
  (∀ i buf, body i buf = (c ← array_get src i; array_set buf (base + i) (Some c))) →
  ∀ (count : nat) (lo : Z) (buf : list (option byte)),
    0 ≤ lo → 0 ≤ base →
    lo + Z.of_nat count ≤ Z.of_nat (length src) →
    base + lo + Z.of_nat count ≤ Z.of_nat (length buf) →
    ∃ out,
      for_up count lo body buf = Some out
      ∧ length out = length buf
      ∧ ∀ k : nat,
          out !! k
          = if decide (base + lo ≤ Z.of_nat k < base + lo + Z.of_nat count)
            then Some <$> src !! (k - Z.to_nat base)%nat
            else buf !! k.
Proof.
  intros Hbody.
  induction count as [| count IH]; intros lo buf Hlo Hbase Hsrc Hbuf.
  - exists buf. split; [reflexivity |]. split; [reflexivity |].
    intros k. case_decide; [lia | reflexivity].
  - destruct (lookup_lt_is_Some_2 src (Z.to_nat lo)) as [c Hc]; [lia |].
    destruct (IH (lo + 1) (<[Z.to_nat (base + lo) := Some c]> buf))
      as (out & Hrun & Hl & Hk).
    + lia.
    + lia.
    + lia.
    + rewrite length_insert. lia.
    + exists out. cbn [for_up]. rewrite Hbody. unfold array_get.
      destruct (Z.ltb_spec lo 0); [lia |]. rewrite Hc. cbn [mbind option_bind].
      unfold array_set.
      destruct (Z.leb_spec 0 (base + lo)); [| lia].
      destruct (Z.ltb_spec (base + lo) (Z.of_nat (length buf))); [| lia].
      cbn [andb mbind option_bind]. rewrite Hrun.
      split; [reflexivity |].
      split; [rewrite Hl; apply length_insert |].
      intros k. rewrite Hk.
      destruct (decide (k = Z.to_nat (base + lo))) as [-> | Hne].
      * rewrite list_lookup_insert_eq by lia.
        repeat case_decide; try lia.
        replace (Z.to_nat (base + lo) - Z.to_nat base)%nat with (Z.to_nat lo)
          by lia.
        by rewrite Hc.
      * rewrite list_lookup_insert_ne by lia.
        repeat case_decide; try lia; reflexivity.
Qed.

(** X22.  [concat(first, second)] is a fresh NUL-terminated string that
    holds the characters of [first] followed by those of [second]: its
    length is the sum of the two lengths.  (Both strings shorter than 2^32
    bytes; for a longer one the loop counter wraps and the loop never
    ends.) *)
Theorem concat_is_the_concatenation (first second : list byte)
    (first_length second_length : Z) :
  strlen first = Some first_length →
  strlen second = Some second_length →
  first_length < 2 ^ 32 →
  second_length < 2 ^ 32 →
  let text := take (Z.to_nat first_length) first
              ++ take (Z.to_nat second_length) second in
  concat first second = Some (Some <$> (text ++ [x00]))
  ∧ strlen (text ++ [x00]) = Some (first_length + second_length).
Proof.
  intros Hfirst Hsecond Hlt1 Hlt2 text.
  destruct (strlen_Some _ _ Hfirst) as (Hn1 & _ & Hclean1).
  destruct (strlen_Some _ _ Hsecond) as (Hn2 & _ & Hclean2).
  assert (Htext : length text = Z.to_nat (first_length + second_length)).
  { unfold text. rewrite length_app, !length_take. lia. }
  split.
  2:{ rewrite strlen_terminated.
      - rewrite Htext. f_equal. lia.
      - unfold text. apply Forall_app. split; assumption. }
  unfold concat. rewrite Hfirst, Hsecond. cbn [mbind option_bind].
  case_decide; [lia |]. unfold for_range. rewrite !Z.sub_0_r.
  destruct (for_up_copy first 0
              (λ i buf, c ← array_get first i; array_set buf i (Some c))
              ltac:(intros; reflexivity)
              (Z.to_nat first_length) 0
              (replicate (Z.to_nat (first_length + second_length + 1)) None))
    as (buf1 & -> & Hl1 & Hk1).
  { lia. } { lia. } { lia. } { rewrite length_replicate. lia. }
  rewrite length_replicate in Hl1. cbn [mbind option_bind].
  destruct (for_up_copy second first_length
              (λ j buf, c ← array_get second j;
                        array_set buf (first_length + j) (Some c))
              ltac:(intros; reflexivity)
              (Z.to_nat second_length) 0 buf1)
    as (buf2 & -> & Hl2 & Hk2).
  { lia. } { lia. } { lia. } { rewrite Hl1. lia. }
  cbn [mbind option_bind]. unfold array_set.
  destruct (Z.leb_spec 0 (first_length + second_length)); [| lia].
  destruct (Z.ltb_spec (first_length + second_length) (Z.of_nat (length buf2)));
    [| lia].
  cbn [andb]. f_equal. apply list_eq. intros k.
  rewrite list_lookup_fmap.
  destruct (decide (k = Z.to_nat (first_length + second_length))) as [-> | Hne].
  { rewrite list_lookup_insert_eq by lia.
    rewrite list_lookup_middle by (symmetry; exact Htext). reflexivity. }
  rewrite list_lookup_insert_ne by lia. rewrite Hk2, Hk1.
  subst text.
  repeat case_decide; try lia.
  - rewrite lookup_app_l by (rewrite Htext; lia).
    rewrite lookup_app_r by (rewrite length_take; lia).
    rewrite length_take, lookup_take_lt by lia.
    do 2 f_equal. lia.
  - rewrite lookup_app_l by (rewrite Htext; lia).
    rewrite lookup_app_l by (rewrite length_take; lia).
    rewrite lookup_take_lt by lia. do 2 f_equal. lia.
  - rewrite (lookup_ge_None_2 (_ ++ [x00]))
      by (rewrite length_app, Htext; cbn; lia).
    cbn. apply lookup_replicate_None. lia.
Qed.

End ConcatFacts.

Section ConcreteConcat.
Import c_string.

Lemma concat_is_the_concatenation_witness :
  strlen text_ab = Some 2 ∧ strlen text_c = Some 1
  ∧ concat text_ab text_c
    = Some (Some <$> ((take (Z.to_nat 2) text_ab ++ take (Z.to_nat 1) text_c)
                        ++ [x00])).
Proof.
  split; [reflexivity |]. split; [reflexivity |].
  destruct (concat_is_the_concatenation text_ab text_c 2 1) as [H _];
    [reflexivity | reflexivity | lia | lia | exact H].
Defined.

End ConcreteConcat.
